(** * getnative: the resolution search engine of [src/getnative/app.py]

    A shallow embedding of the search engine and the properties of its
    specification.

    Numbers.  A float64 value is the rational it denotes, kept in lowest
    terms ([Q] normalised with [Qred]).  [Num] computes on these values
    without rounding; [F64] rounds every result to the nearest binary64
    value, ties to even, as IEEE 754 does.  The frame selector, the aspect
    ratio of the source and of the width scan, the window of the width scan,
    [getw], the overstretched test and the width-scan aggregation [Width64]
    are computed with [F64]; the curves of the scans (their sums and means),
    the peak detector and the aggregation [Width] are computed with [Num].
    The sign of zero is not modelled, and frame numbers and sizes are taken
    in the range where a conversion to float64 or to int64 does not
    overflow.  Where numpy continues with an infinity or a NaN (the width
    scan), the value is an [xval].  Python ints are [Z], list positions are
    [nat]. *)

From Stdlib Require Import ZArith QArith Qround Qabs Qpower List Permutation Sorted Lia Bool Arith.
From Stdlib Require String.
Import ListNotations.

Local Open Scope Z_scope.

(** ** Python exceptions and results *)

Inductive exn : Type :=
| ValueError
| IndexError
| ZeroDivisionError
| PermissionError
| GetnativeException
| VapoursynthError
| AttributeError.

Definition result (A : Type) : Type := (exn + A)%type.

Definition ret {A : Type} (a : A) : result A := inr a.
Definition raise {A : Type} (e : exn) : result A := inl e.
Definition bind {A B : Type} (m : result A) (k : A -> result B) : result B :=
  match m with
  | inl e => inl e
  | inr a => k a
  end.

Notation "x <- m ;; k" := (bind m (fun x => k))
  (at level 61, m at next level, right associativity).

(** ** Arithmetic on the values, without rounding *)

Module Num.

Definition eqb (a b : Q) : bool := Qeq_bool a b.
Definition ltb (a b : Q) : bool := negb (Qle_bool b a).

Definition add (a b : Q) : Q := Qred (a + b).
Definition sub (a b : Q) : Q := Qred (a - b).
Definition mul (a b : Q) : Q := Qred (a * b).
(** [a / b] for [b] different from zero. *)
Definition div (a b : Q) : Q := Qred (a / b).

(** [int(x)] on a float: truncation towards zero. *)
Definition py_int (x : Q) : Z := Z.quot (Qnum x) (Z.pos (Qden x)).

(** [round(x)] on a float: to the nearest integer, ties to the even one. *)
Definition py_round (x : Q) : Z :=
  let f := Qfloor x in
  let d := Qred (x - inject_Z f) in
  if ltb d (1 # 2) then f
  else if ltb (1 # 2) d then f + 1
  else if Z.even f then f else f + 1.

End Num.

(** ** Binary64 arithmetic

    A finite float64 value is the rational it denotes.  [round] takes a
    rational to the nearest binary64 value, ties to the even significand:
    the significand has 53 bits, and below [2^-1022] the spacing stays
    [2^-1074]; a negative number is rounded as its opposite is.  An
    operation is the exact operation followed by [round].
    Overflow is left to the caller: a result of [2^1024] or more stands for
    an infinity. *)

Module F64.

Definition pow2 (k : Z) : Q := Qpower 2 k.

(** The exponent [e] of a positive [x]: [2^e <= x < 2^(e+1)]. *)
Definition ilog2 (x : Q) : Z :=
  let e := Z.log2 (Qnum x) - Z.log2 (Z.pos (Qden x)) in
  if Qle_bool (pow2 e) x then e else e - 1.

(** The exponent of the last place of the float64 values around a
    positive [x]. *)
Definition quantum (x : Q) : Z := Z.max (ilog2 x - 52) (-1074).

(** A positive [x] rounded to a multiple of its last place. *)
Definition round_pos (x : Q) : Q :=
  Qred (inject_Z (Num.py_round (x / pow2 (quantum x))) * pow2 (quantum x)).

Definition round (x : Q) : Q :=
  if Qeq_bool x 0 then 0
  else if Qle_bool 0 x then round_pos x
  else Qred (- round_pos (- x)).

Definition add (a b : Q) : Q := round (a + b).
Definition sub (a b : Q) : Q := round (a - b).
Definition mul (a b : Q) : Q := round (a * b).
(** [a / b] for [b] different from zero. *)
Definition div (a b : Q) : Q := round (a / b).

(** [float(z)], and an int64 converted to float64. *)
Definition of_Z (z : Z) : Q := round (inject_Z z).

End F64.

(** ** Python lists *)

(** [range(start, stop, step)]. *)
Definition py_range (start stop step : Z) : result (list Z) :=
  if step =? 0 then raise ValueError
  else if 0 <? step then
    ret (map (fun k => start + Z.of_nat k * step)
             (seq 0 (Z.to_nat ((stop - start + step - 1) / step))))
  else
    ret (map (fun k => start + Z.of_nat k * step)
             (seq 0 (Z.to_nat ((start - stop - step - 1) / (- step))))).

(** [l[i]] for a position [i] that is not negative. *)
Definition getitem {A : Type} (l : list A) (i : nat) : result A :=
  match nth_error l i with
  | Some a => ret a
  | None => raise IndexError
  end.

(** [l.index(x)]: the first position holding a value equal to [x]. *)
Fixpoint index (l : list Q) (x : Q) : result nat :=
  match l with
  | [] => raise ValueError
  | y :: t => if Num.eqb y x then ret 0%nat
              else i <- index t x ;; ret (S i)
  end.

(** [sorted(l, reverse=True)]: a stable sort into descending order. *)
Fixpoint insert_desc (x : Q) (l : list Q) : list Q :=
  match l with
  | [] => [x]
  | y :: t => if Num.ltb y x then x :: l else y :: insert_desc x t
  end.

Definition sorted_desc (l : list Q) : list Q :=
  fold_left (fun acc x => insert_desc x acc) l [].

(** [np.array(a)[idx]] for a list [idx] of positions. *)
Fixpoint take_at (a : list Q) (idx : list nat) : result (list Q) :=
  match idx with
  | [] => ret []
  | i :: t => x <- getitem a i ;; r <- take_at a t ;; ret (x :: r)
  end.

(** [np.argmax]: the first position of the largest element. *)
Fixpoint argmax_from (best : Q) (besti i : nat) (l : list Q) : nat :=
  match l with
  | [] => besti
  | x :: t => if Num.ltb best x then argmax_from x i (S i) t
              else argmax_from best besti (S i) t
  end.

Definition np_argmax (l : list Q) : result nat :=
  match l with
  | [] => raise ValueError
  | x :: t => ret (argmax_from x 0%nat 1%nat t)
  end.

(** The pairs of entries that an elementwise operation on two arrays of one
    dimension combines: the arrays have the same length, or one of them has
    length one and is repeated; any other shapes raise [ValueError]. *)
Definition broadcast {A : Type} (a b : list A) : result (list (A * A)) :=
  if (length a =? length b)%nat then ret (combine a b)
  else
    match a, b with
    | [x], _ => ret (map (fun y => (x, y)) b)
    | _, [y] => ret (map (fun x => (x, y)) a)
    | _, _ => raise ValueError
    end.

(** ** The peak detector: [GetNative.analyze_results] *)

Module Peak.

(** [ratios]: [0.0], then [current and last / current] along the curve. *)
Fixpoint ratio_loop (last : Q) (rest : list Q) : list Q :=
  match rest with
  | [] => []
  | current :: t =>
      (if Num.eqb current 0 then current else Num.div last current)
        :: ratio_loop current t
  end.

Definition compute_ratios (vals : list Q) : list Q :=
  0%Q :: match vals with
         | [] => []
         | v0 :: t => ratio_loop v0 t
         end.

Definition threshold (max_difference : Q) : Q :=
  Num.mul (Num.sub max_difference 1) (33 # 100).

Definition differences (sorted_array : list Q) : list Q :=
  match sorted_array with
  | [] => []
  | max_difference :: _ =>
      firstn 5 (filter (fun s => Num.ltb (threshold max_difference) (Num.sub s 1))
                       sorted_array)
  end.

(** [res - 20 < current < res + 20] *)
Definition within_20 (current res : nat) : bool :=
  (Z.of_nat res - 20 <? Z.of_nat current) && (Z.of_nat current <? Z.of_nat res + 20).

(** The [for res in self.resolutions: ... break ... else: append] loop. *)
Definition add_resolution (resolutions : list nat) (current : nat) : list nat :=
  if existsb (within_20 current) resolutions then resolutions
  else resolutions ++ [current].

(** The loop over [differences]; [self.resolutions] keeps what was appended
    when [ratios.index] raises. *)
Fixpoint add_differences (ratios : list Q) (diffs : list Q) (resolutions : list nat)
  : list nat * result unit :=
  match diffs with
  | [] => (resolutions, ret tt)
  | diff :: t =>
      match index ratios diff with
      | inl e => (resolutions, raise e)
      | inr current => add_differences ratios t (add_resolution resolutions current)
      end
  end.

Record analysis : Type := {
  a_ratios : list Q;
  a_vals : list Q;
  (** the resolutions listed in [best_values] *)
  a_best_values : list Z;
  a_bob_idx : nat;
  a_bob : Q;
  a_bob_resolution : Z
}.

Definition to_resolution (steps offset : Z) (r : nat) : Z := Z.of_nat r * steps + offset.

(** [analyze_results(vals, offset)] with [self.steps] and [self.resolutions]
    passed in; returns the updated [self.resolutions] and the result. *)
Definition analyze_results (steps : Z) (resolutions : list nat) (vals : list Q) (offset : Z)
  : list nat * result analysis :=
  let ratios := compute_ratios vals in
  let sorted_array := sorted_desc ratios in
  let '(resolutions', added) := add_differences ratios (differences sorted_array) resolutions in
  (resolutions',
   _ <- added ;;
   picked <- take_at ratios resolutions' ;;
   bob_idx <- np_argmax picked ;;
   bob <- getitem vals bob_idx ;;
   r <- getitem resolutions' bob_idx ;;
   ret {| a_ratios := ratios;
          a_vals := vals;
          a_best_values := map (to_resolution steps offset) resolutions';
          a_bob_idx := bob_idx;
          a_bob := bob;
          a_bob_resolution := to_resolution steps offset r |}).

End Peak.

(** ** The evaluation scheduler: the issue/drain loop of [GetNative.run]

    A request is identified with the [frame_index] that [futures] maps its
    future to.  What [asyncio.wait] reports is decided by the environment,
    [completed]: given the serial number of the wait and the requests in
    flight (oldest first) it names the requests that are done, in the order
    in which the returned set is iterated.  Names that are not in flight and
    repeated names are dropped. *)

Module Scheduler.

Definition mem (i : nat) (l : list nat) : bool := existsb (Nat.eqb i) l.

(** Tuple order of [(frame_index, value)] pairs. *)
Definition pair_ltb (a b : nat * Q) : bool :=
  (fst a <? fst b)%nat || ((fst a =? fst b)%nat && Num.ltb (snd a) (snd b)).

(** [sorted(vals)]: a stable sort into ascending order. *)
Fixpoint insert_asc (x : nat * Q) (l : list (nat * Q)) : list (nat * Q) :=
  match l with
  | [] => [x]
  | y :: t => if pair_ltb x y then x :: l else y :: insert_asc x t
  end.

Definition sorted (l : list (nat * Q)) : list (nat * Q) :=
  fold_left (fun acc x => insert_asc x acc) l [].

Record state : Type := {
  (** number of [asyncio.wait] calls so far *)
  clock : nat;
  tasks_pending : list nat;
  vals : list (nat * Q);
  (** [len(tasks_pending)] after each assignment to [tasks_pending] *)
  in_flight : list nat
}.

Section Scheduler.

(** [core.num_threads] *)
Variable num_threads : nat.
Variable completed : nat -> list nat -> list nat.
(** [task.result().props.PlaneStatsAverage] of the request for [frame_index] *)
Variable plane_stats_average : nat -> Q.

Definition cap : nat := (num_threads + 2)%nat.

Definition named (clk : nat) (pending : list nat) : list nat :=
  filter (fun i => mem i pending) (nodup Nat.eq_dec (completed clk pending)).

Definition without (done pending : list nat) : list nat :=
  filter (fun i => negb (mem i done)) pending.

(** [asyncio.wait(pending, return_when=FIRST_COMPLETED)] on a set that is not
    empty: returns once a request is done; when the environment names none,
    the oldest request is the one that completes. *)
Definition wait_first_completed (clk : nat) (pending : list nat) : list nat * list nat :=
  let done := match named clk pending, pending with
              | [], oldest :: _ => [oldest]
              | l, _ => l
              end in
  (done, without done pending).

(** [asyncio.wait(pending)]: all requests, in the iteration order of the
    returned set; an empty set raises [ValueError]. *)
Definition wait_all (clk : nat) (pending : list nat) : result (list nat) :=
  match pending with
  | [] => raise ValueError
  | _ => let first := named clk pending in ret (first ++ without first pending)
  end.

Definition collect (done : list nat) : list (nat * Q) :=
  map (fun task => (task, plane_stats_average task)) done.

(** [while len(tasks_pending) >= core.num_threads + 2: ...]; every wait
    removes a request, so [fuel = len(tasks_pending)] iterations suffice. *)
Fixpoint drain (fuel : nat) (st : state) : state :=
  if (cap <=? length (tasks_pending st))%nat then
    match fuel with
    | O => st
    | S fuel' =>
        let '(tasks_done, pending) := wait_first_completed (clock st) (tasks_pending st) in
        drain fuel' {| clock := S (clock st);
                       tasks_pending := pending;
                       vals := vals st ++ collect tasks_done;
                       in_flight := in_flight st ++ [length pending] |}
    end
  else st.

(** One iteration of [for frame_index in range(len(full_clip))]. *)
Definition issue (st : state) (frame_index : nat) : state :=
  let pending := tasks_pending st ++ [frame_index] in
  drain (length pending)
        {| clock := clock st;
           tasks_pending := pending;
           vals := vals st;
           in_flight := in_flight st ++ [length pending] |}.

Definition init (clk : nat) : state :=
  {| clock := clk; tasks_pending := []; vals := []; in_flight := [] |}.

Definition issue_all (clk : nat) (m : nat) : state :=
  fold_left issue (seq 0 m) (init clk).

(** The final wait and the sort, on the state the loop ends in. *)
Definition finish (st : state) : state * result (list Q) :=
  match wait_all (clock st) (tasks_pending st) with
  | inl e => (st, raise e)
  | inr tasks_done =>
      let st' := {| clock := S (clock st);
                    tasks_pending := tasks_pending st;
                    vals := vals st ++ collect tasks_done;
                    in_flight := in_flight st |} in
      (st', ret (map snd (sorted (vals st'))))
  end.

(** The scheduler on a clip of [m] frames, from the wait counter [clk]. *)
Definition schedule (clk : nat) (m : nat) : state * result (list Q) :=
  finish (issue_all clk m).

End Scheduler.

(** Completion behaviours: one request per wait (the oldest, or the
    youngest), and everything in flight at once. *)
Definition oldest_first (_ : nat) (pending : list nat) : list nat := firstn 1 pending.
Definition youngest_first (_ : nat) (pending : list nat) : list nat := firstn 1 (rev pending).
Definition all_at_once (_ : nat) (pending : list nat) : list nat := pending.

End Scheduler.

(** ** The frame selector: [np.linspace(..., dtype=int, endpoint=False)[1:]] *)

Module Frames.



(** [np.linspace(start, stop, num, endpoint=False, dtype=int)] as numpy
    computes it.  [start] and [stop] become float64, [delta] is their
    difference and [step] is [delta / num]; entry [i] is [i * step + start],
    or [i / num * delta + start] when the step is zero, every operation in
    float64; the entries are rounded down (numpy 1.20 on).  A negative
    [num] raises [ValueError]. *)
Definition linspace64_entry (start stop num : Z) (i : nat) : Z :=
  let delta := F64.sub (F64.of_Z stop) (F64.of_Z start) in
  let div := F64.of_Z num in
  let step := F64.div delta div in
  let y := if Num.eqb step 0
           then F64.mul (F64.div (F64.of_Z (Z.of_nat i)) div) delta
           else F64.mul (F64.of_Z (Z.of_nat i)) step in
  Qfloor (F64.add y (F64.of_Z start)).

Definition linspace64 (start stop num : Z) : result (list Z) :=
  if num <? 0 then raise ValueError
  else ret (map (linspace64_entry start stop num) (seq 0 (Z.to_nat num))).

(** The frame selector in float64. *)
Definition select_frames64 (fstart fend fsamples : Z) : result (list Z) :=
  l <- linspace64 fstart fend (fsamples + 1) ;; ret (tl l).

End Frames.

(** ** The width-scan aggregation: division, [np.convolve], [np.argmin] *)

Module Width.

(** A float64 value: a finite number, an infinity or a NaN. *)
Inductive xval : Type :=
| Fin (q : Q)
| PInf
| NInf
| NaN.

Definition xadd (a b : xval) : xval :=
  match a, b with
  | NaN, _ | _, NaN => NaN
  | Fin x, Fin y => Fin (Num.add x y)
  | PInf, NInf | NInf, PInf => NaN
  | PInf, _ | _, PInf => PInf
  | NInf, _ | _, NInf => NInf
  end.

Definition xscale_inf (positive : bool) (q : Q) : xval :=
  if Num.eqb q 0 then NaN
  else if Num.ltb 0 q then (if positive then PInf else NInf)
  else (if positive then NInf else PInf).

Definition xmul (a b : xval) : xval :=
  match a, b with
  | NaN, _ | _, NaN => NaN
  | Fin x, Fin y => Fin (Num.mul x y)
  | Fin x, PInf | PInf, Fin x => xscale_inf true x
  | Fin x, NInf | NInf, Fin x => xscale_inf false x
  | PInf, PInf | NInf, NInf => PInf
  | PInf, NInf | NInf, PInf => NInf
  end.

(** Division; a zero divisor is a positive zero. *)
Definition xdiv (a b : xval) : xval :=
  match a, b with
  | NaN, _ | _, NaN => NaN
  | Fin x, Fin y => if Num.eqb y 0 then xscale_inf true x else Fin (Num.div x y)
  | Fin _, _ => Fin 0
  | PInf, Fin y => if Num.ltb y 0 then NInf else PInf
  | NInf, Fin y => if Num.ltb y 0 then PInf else NInf
  | _, _ => NaN
  end.

(** [a < b] on float64 values; false when one is a NaN. *)
Definition xltb (a b : xval) : bool :=
  match a, b with
  | NaN, _ | _, NaN => false
  | Fin x, Fin y => Num.ltb x y
  | NInf, NInf | PInf, PInf => false
  | NInf, _ | _, PInf => true
  | _, _ => false
  end.

Definition is_nan (a : xval) : bool :=
  match a with NaN => true | _ => false end.

(** [a / b] on arrays. *)
Definition np_divide (a b : list xval) : result (list xval) :=
  pairs <- broadcast a b ;; ret (map (fun p => xdiv (fst p) (snd p)) pairs).

(** Entry [k] of the full convolution: the sum of [a[k - j] * v[j]] over the
    positions [j] of [v] with [k - j] a position of [a]. *)
Definition conv_full_at (a v : list xval) (k : nat) : xval :=
  fold_left xadd
    (map (fun j => match nth_error v j, nth_error a (k - j) with
                   | Some y, Some x => if (j <=? k)%nat then xmul x y else Fin 0
                   | _, _ => Fin 0
                   end)
         (seq 0 (length v)))
    (Fin 0).

(** [np.convolve(a, v, 'same')]: the longer argument comes first and gives
    the length; of the full convolution, the first [n2 - 1 - n2 // 2] entries
    are skipped, [n2] the smaller length. *)
Definition np_convolve_same (a v : list xval) : result (list xval) :=
  match a, v with
  | [], _ | _, [] => raise ValueError
  | _, _ =>
      let '(a, v) := if (length a <? length v)%nat then (v, a) else (a, v) in
      let n2 := length v in
      ret (map (conv_full_at a v) (seq (n2 - 1 - n2 / 2) (length a)))
  end.

(** [np.argmin]: the first NaN when there is one, else the first position of
    the smallest element. *)
Fixpoint argmin_from (best : xval) (besti i : nat) (l : list xval) : nat :=
  match l with
  | [] => besti
  | x :: t =>
      if is_nan best then besti
      else if is_nan x || xltb x best then argmin_from x i (S i) t
      else argmin_from best besti (S i) t
  end.

Definition np_argmin (l : list xval) : result nat :=
  match l with
  | [] => raise ValueError
  | x :: t => ret (argmin_from x 0%nat 1%nat t)
  end.

Definition kernel : list xval := [Fin (1 # 2); Fin 0; Fin (1 # 2)].

(** [vals / c] for the summed curve [vals] and a number [c]. *)
Definition scale (sampled_vals : list Q) (c : Q) : list xval :=
  map (fun x => xdiv (Fin x) (Fin c)) sampled_vals.

(** [vals / np.convolve(vals, [0.5, 0., 0.5], 'same')] *)
Definition smooth_divide (vals : list xval) : result (list xval) :=
  smooth <- np_convolve_same vals kernel ;;
  np_divide vals smooth.

(** [vals = vals / c; vals = vals / np.convolve(vals, [0.5, 0., 0.5], 'same')] *)
Definition normalize (sampled_vals : list Q) (c : Q) : result (list xval) :=
  smooth_divide (scale sampled_vals c).

(** [best_w = np.argmin(vals) * self.steps + w_min] *)
Definition best_width (sampled_vals : list Q) (c : Q) (steps w_min : Z) : result Z :=
  vals <- normalize sampled_vals c ;;
  i <- np_argmin vals ;;
  ret (Z.of_nat i * steps + w_min).

(** [self.ar = float(best_w) / h], a float64 division. *)
Definition refined_ar (best_w h : Z) : result Q :=
  if h =? 0 then raise ZeroDivisionError
  else ret (F64.div (F64.of_Z best_w) (F64.of_Z h)).

End Width.

(** ** The width-scan aggregation in float64

    The same aggregation with every operation rounded to binary64, as numpy
    computes it. *)

Module Width64.

Import Width.

(** The float64 value of an exact result: rounded, and an infinity from
    [2^1024] on. *)
Definition fin (q : Q) : xval :=
  let r := F64.round q in
  if Qle_bool (F64.pow2 1024) (Qabs r) then (if Num.ltb 0 r then PInf else NInf)
  else Fin r.

Definition rnd (x : xval) : xval :=
  match x with
  | Fin q => fin q
  | _ => x
  end.

Definition xadd (a b : xval) : xval := rnd (Width.xadd a b).
Definition xmul (a b : xval) : xval := rnd (Width.xmul a b).
Definition xdiv (a b : xval) : xval := rnd (Width.xdiv a b).

(** [a / b] on arrays. *)
Definition np_divide (a b : list xval) : result (list xval) :=
  pairs <- broadcast a b ;; ret (map (fun p => xdiv (fst p) (snd p)) pairs).

(** Entry [k] of the full convolution, summed in the order of [v]. *)
Definition conv_full_at (a v : list xval) (k : nat) : xval :=
  fold_left xadd
    (map (fun j => match nth_error v j, nth_error a (k - j) with
                   | Some y, Some x => if (j <=? k)%nat then xmul x y else Fin 0
                   | _, _ => Fin 0
                   end)
         (seq 0 (length v)))
    (Fin 0).

(** [np.convolve(a, v, 'same')] *)
Definition np_convolve_same (a v : list xval) : result (list xval) :=
  match a, v with
  | [], _ | _, [] => raise ValueError
  | _, _ =>
      let '(a, v) := if (length a <? length v)%nat then (v, a) else (a, v) in
      let n2 := length v in
      ret (map (conv_full_at a v) (seq (n2 - 1 - n2 / 2) (length a)))
  end.

(** [vals / c] for the summed curve [vals] and an int [c]. *)
Definition scale (sampled_vals : list Q) (c : Z) : list xval :=
  map (fun x => xdiv (Fin x) (Fin (F64.of_Z c))) sampled_vals.

(** [vals / np.convolve(vals, [0.5, 0., 0.5], 'same')] *)
Definition smooth_divide (vals : list xval) : result (list xval) :=
  smooth <- np_convolve_same vals kernel ;;
  np_divide vals smooth.

(** [vals = vals / c; vals = vals / np.convolve(vals, [0.5, 0., 0.5], 'same')] *)
Definition normalize (sampled_vals : list Q) (c : Z) : result (list xval) :=
  smooth_divide (scale sampled_vals c).

(** [best_w = np.argmin(vals) * self.steps + w_min] *)
Definition best_width (sampled_vals : list Q) (c : Z) (steps w_min : Z) : result Z :=
  vals <- normalize sampled_vals c ;;
  i <- np_argmin vals ;;
  ret (Z.of_nat i * steps + w_min).

End Width64.

(** ** The search: [GetNative.run] and [getnative]

    The resampling oracle is a function from the frame, the flag
    [self.ar != src.width / src.height] (the reference is resized when it
    holds), and the width and height of the candidate to the
    [PlaneStatsAverage] of the compared frame.  A failure of the oracle (a
    frame outside the clip, a size that descale refuses), the report, the
    plot and the files written are not modelled. *)

Module Run.

Record source : Type := {
  width : Z;
  height : Z;
  num_frames : Z
}.

(** The fields of a [GetNative] object that the search assigns, and the
    number of [asyncio.wait] calls made so far. *)
Record world : Type := {
  self_ar : Q;
  self_resolutions : list nat;
  waits : nat
}.

Definition M (A : Type) : Type := world -> world * result A.

Definition mret {A : Type} (a : A) : M A := fun w => (w, ret a).
Definition lift {A : Type} (r : result A) : M A := fun w => (w, r).
Definition mbind {A B : Type} (m : M A) (k : A -> M B) : M B :=
  fun w => match m w with
           | (w', inl e) => (w', inl e)
           | (w', inr a) => k a w'
           end.
Definition get_ar : M Q := fun w => (w, ret (self_ar w)).
Definition set_ar (ar : Q) : M unit :=
  fun w => ({| self_ar := ar; self_resolutions := self_resolutions w; waits := waits w |}, ret tt).

Notation "x <~ m ;; k" := (mbind m (fun x => k))
  (at level 61, m at next level, right associativity).

(** [a + b] on arrays of finite values. *)
Definition np_add (a b : list Q) : result (list Q) :=
  pairs <- broadcast a b ;; ret (map (fun p => Num.add (fst p) (snd p)) pairs).

Section Run.

Variable num_threads : nat.
Variable completed : nat -> list nat -> list nat.
Variable plane_stats : Z -> bool -> Z -> Z -> Q.

(** The fields of the object that stay as [__init__] set them. *)
Variable src : source.
Variable min_h max_h : Z.
Variable frames : list Z.
Variable passes : Z.
Variable steps : Z.

(** [src.width / src.height], for a height that is not zero. *)
Definition src_ar : Q := F64.div (inject_Z (width src)) (inject_Z (height src)).

(** [min(int(round(h * ar)) // 2 * 2, src.width)], without [// 2 * 2] when
    [only_even] is off; the product is a float64 product. *)
Definition getw_at (ar : Q) (h : Z) (only_even : bool) : Z :=
  let w := Num.py_round (F64.mul (F64.of_Z h) ar) in
  let w := if only_even then w / 2 * 2 else w in
  Z.min w (width src).

(** [self.getw(h, only_even)] *)
Definition getw (h : Z) (only_even : bool) : M Z :=
  ar <~ get_ar ;; mret (getw_at ar h only_even).

(** The body of [for frame in self.frames] after [clip_list] is built: the
    clips are spliced (an empty list is refused), compared with the source
    and evaluated by the scheduler. *)
Definition scan_frame (candidates : list (Z * Z)) (frame : Z) : M (list Q) :=
  fun w =>
    match candidates with
    | [] => (w, raise VapoursynthError)
    | _ =>
        let resized := negb (Num.eqb (self_ar w) src_ar) in
        let stats i := match nth_error candidates i with
                       | Some (cw, ch) => plane_stats frame resized cw ch
                       | None => 0%Q
                       end in
        let '(st, r) := Scheduler.schedule num_threads completed stats
                                           (waits w) (length candidates) in
        ({| self_ar := self_ar w;
            self_resolutions := self_resolutions w;
            waits := Scheduler.clock st |}, r)
    end.

(** [sampled_vals = np.array(vals) + sampled_vals] over the frames;
    [sampled_vals] is [None] while it is the float [0.]. *)
Fixpoint scan_frames (candidates : list (Z * Z)) (fs : list Z) (sampled_vals : option (list Q))
  : M (option (list Q)) :=
  match fs with
  | [] => mret sampled_vals
  | frame :: t =>
      vals <~ scan_frame candidates frame ;;
      sum <~ lift (match sampled_vals with
                   | None => ret vals
                   | Some acc => np_add vals acc
                   end) ;;
      scan_frames candidates t (Some sum)
  end.

(** The mean curve of a height scan, [sampled_vals / sample_size]; with no
    frame this is [0. / 0]. *)
Definition mean_curve (sampled_vals : option (list Q)) : result (list Q) :=
  match sampled_vals with
  | None => raise ZeroDivisionError
  | Some l => ret (map (fun x => Num.div x (inject_Z (Z.of_nat (length frames)))) l)
  end.

Definition analyze_results (vals : list Q) (offset : Z) : M Peak.analysis :=
  fun w =>
    let '(resolutions, r) := Peak.analyze_results steps (self_resolutions w) vals offset in
    ({| self_ar := self_ar w; self_resolutions := resolutions; waits := waits w |}, r).

(** A height scan over [range(self.min_h, self.max_h + 1, self.steps)] with
    its analysis. *)
Definition height_scan : M Peak.analysis :=
  hs <~ lift (py_range min_h (max_h + 1) steps) ;;
  ar <~ get_ar ;;
  let only_even := Z.even (width src) in
  let candidates := map (fun h => (getw_at ar h only_even, h)) hs in
  sampled_vals <~ scan_frames candidates frames None ;;
  vals <~ lift (mean_curve sampled_vals) ;;
  analyze_results vals min_h.

(** [w_min = int((self.ar - 0.2) * h)] and
    [w_max = min(int(float(self.src.width) * 9 / 10), int((self.ar + 0.2) * h))],
    the products and the quotient in float64. *)
Definition width_window (ar : Q) (h : Z) : Z * Z :=
  let w_min := Num.py_int (F64.mul (F64.sub ar (F64.round (1 # 5))) (F64.of_Z h)) in
  let w_max := Z.min (Num.py_int (F64.div (F64.mul (F64.of_Z (width src)) 9) 10))
                     (Num.py_int (F64.mul (F64.add ar (F64.round (1 # 5))) (F64.of_Z h))) in
  (w_min, w_max).

(** The width scan at the height [h] and the update of [self.ar]. *)
Definition width_refine (h : Z) : M unit :=
  ar <~ get_ar ;;
  let '(w_min, w_max) := width_window ar h in
  w_sample_size <~ lift (if steps =? 0 then raise ZeroDivisionError
                         else ret ((w_max - w_min) / steps)) ;;
  ws <~ lift (py_range w_min (w_max + 1) steps) ;;
  let candidates := map (fun w => (w, h)) ws in
  sampled_vals <~ scan_frames candidates frames None ;;
  sum <~ lift (match sampled_vals with
               | None => raise ZeroDivisionError
               | Some l => ret l
               end) ;;
  best_w <~ lift (Width64.best_width sum w_sample_size steps w_min) ;;
  new_ar <~ lift (Width.refined_ar best_w h) ;;
  set_ar new_ar.

(** [for p in range(self.passes)] *)
Fixpoint passes_loop (n : nat) : M unit :=
  match n with
  | O => mret tt
  | S n' =>
      a <~ height_scan ;;
      _ <~ width_refine (Peak.a_bob_resolution a) ;;
      passes_loop n'
  end.

(** [w > h * (ar + 0.2)]: the sum and the product are float64 operations,
    the int [w] is compared with the float as it is. *)
Definition is_overstretched (ar : Q) (h w : Z) : bool :=
  Num.ltb (F64.mul (F64.of_Z h) (F64.add ar (F64.round (1 # 5)))) (inject_Z w).

(** [GetNative.run] *)
Definition run : M (Z * Z * Q * bool) :=
  _ <~ lift (py_range min_h (max_h + 1) steps) ;;
  ar <~ get_ar ;;
  _ <~ passes_loop (Z.to_nat passes) ;;
  a <~ height_scan ;;
  let h := Peak.a_bob_resolution a in
  w <~ getw h true ;;
  mret (h, w, Peak.a_bob a, is_overstretched ar h w).

End Run.

(** The command-line arguments that the search reads. *)
Record arguments : Type := {
  fstart : Z;
  fend : option Z;
  fsamples : Z;
  arg_passes : Z;
  arg_ar : Q;
  arg_min_h : Z;
  arg_max_h : Z;
  ub_thr : Z;
  arg_steps : Z;
  img : bool;
  mask_out : bool
}.

(** The scaler of a call: [getnative] is given one, or builds one from
    [args] with [_DefineScaler]. *)
Inductive scaler_state : Type :=
| Built
(** [scaler.plugin is None]: descale is not installed *)
| NoPlugin
(** [getattr(core.resize, self.kernel.title())] finds no resizer *)
| NoResizer
(** [check_input]: descale has no descaler for the kernel *)
| NoDescaler.

(** What [getnative] finds around it. *)
Record environment : Type := {
  (** [os.access(output_dir, os.W_OK)] *)
  dir_writable : bool;
  (** [imwri is not None] *)
  imwri_found : bool;
  (** the scaler that is given, or built from [args] *)
  env_scaler : scaler_state;
  env_num_threads : nat;
  env_completed : nat -> list nat -> list nat;
  env_plane_stats : Z -> bool -> Z -> Z -> Q
}.

(** The configuration [getnative] hands to [GetNative]. *)
Record config : Type := {
  cfg_ar : Q;
  cfg_min_h : Z;
  cfg_max_h : Z;
  cfg_frames : list Z
}.

(** [args.ar] after the default, when the default has not raised. *)
Definition effective_ar (args : arguments) (src : source) : Q :=
  if Num.eqb (arg_ar args) 0 then src_ar src else arg_ar args.

(** [if args.ar == 0: args.ar = src.width / src.height] *)
Definition assign_ar (args : arguments) (src : source) : result Q :=
  if Num.eqb (arg_ar args) 0 && (height src =? 0) then raise ZeroDivisionError
  else ret (effective_ar args src).

Definition effective_min_h (args : arguments) (src : source) : Z :=
  if arg_min_h args <? 0 then height src / 2 else arg_min_h args.

Definition effective_max_h (args : arguments) (src : source) : Z :=
  let max_h := if arg_max_h args <? 0 then height src * 9 / 10 else arg_max_h args in
  if height src <? max_h then height src else max_h.

(** [getnative] up to the call of [getn.run()]: the checks, the frame
    selector, the defaults, and [GetNative.__init__] with [get_filename]. *)
Definition setup (env : environment) (args : arguments) (src : source) : result config :=
  if negb (dir_writable env) then raise PermissionError
  else if (img args || mask_out args) && negb (imwri_found env) then raise GetnativeException
  else
    _ <- match env_scaler env with
         | Built => ret tt
         | NoResizer => raise AttributeError
         | NoPlugin | NoDescaler => raise GetnativeException
         end ;;
    let fend := match fend args with None => num_frames src | Some e => e end in
    frames <- Frames.select_frames64 (fstart args) fend (fsamples args) ;;
    ar <- assign_ar args src ;;
    let min_h := effective_min_h args src in
    let max_h := if arg_max_h args <? 0 then height src * 9 / 10 else arg_max_h args in
    if height src <=? min_h then raise GetnativeException
    else if max_h <=? min_h then raise GetnativeException
    else
      _ <- getitem frames 0 ;;
      ret {| cfg_ar := ar;
             cfg_min_h := min_h;
             cfg_max_h := effective_max_h args src;
             cfg_frames := frames |}.

(** [getnative]: [((h, w), mae, overstretched, near_ub)]. *)
Definition getnative (env : environment) (args : arguments) (src : source)
  : result (Z * Z * Q * bool * bool) :=
  cfg <- setup env args src ;;
  let w0 := {| self_ar := cfg_ar cfg; self_resolutions := []; waits := 0 |} in
  match snd (run (env_num_threads env) (env_completed env) (env_plane_stats env)
                 src (cfg_min_h cfg) (cfg_max_h cfg) (cfg_frames cfg)
                 (arg_passes args) (arg_steps args) w0) with
  | inl ValueError => raise GetnativeException
  | inl e => raise e
  | inr (h, w, mae, overstretched) =>
      ret (h, w, mae, overstretched, cfg_max_h cfg - ub_thr args <? h)
  end.

End Run.

(** ** The batch of scalers: [_getnative]

    [_getnative] runs [getnative] for every scaler of the chosen mode on one
    [args] object, which [getnative] assigns to, keeps the results that are
    not overstretched in three dicts under [str(scaler)], and prints the
    scaler of the smallest error.  What it prints is the value here. *)

Module Batch.

Import String.

(** The [args] object as [getnative] leaves it when its checks have passed:
    [fend], [ar], [min_h] and [max_h] hold the values that were used. *)
Definition assigned (args : Run.arguments) (src : Run.source) : Run.arguments :=
  {| Run.fstart := Run.fstart args;
     Run.fend := Some (match Run.fend args with
                       | None => Run.num_frames src
                       | Some e => e
                       end);
     Run.fsamples := Run.fsamples args;
     Run.arg_passes := Run.arg_passes args;
     Run.arg_ar := Run.effective_ar args src;
     Run.arg_min_h := Run.effective_min_h args src;
     Run.arg_max_h := Run.effective_max_h args src;
     Run.ub_thr := Run.ub_thr args;
     Run.arg_steps := Run.arg_steps args;
     Run.img := Run.img args;
     Run.mask_out := Run.mask_out args |}.

(** A scaler of [common_scaler]: [str(scaler)], whether [scaler.plugin] is
    there, and the oracle that its descaler and upscaler make. *)
Record scaler : Type := {
  name : String.string;
  plugin_found : bool;
  scaler_stats : Z -> bool -> Z -> Z -> Q
}.

(** [str(scaler)]; the default mode holds [None]. *)
Definition key (s : option scaler) : String.string :=
  match s with
  | None => "None"%string
  | Some sc => name sc
  end.

(** [scaler is not None and scaler.plugin is None] *)
Definition skipped (s : option scaler) : bool :=
  match s with
  | None => false
  | Some sc => negb (plugin_found sc)
  end.

(** What [getnative] finds around it when it is given the scaler [s]; with
    [None] it builds the scaler from [args] as before. *)
Definition env_for (env : Run.environment) (s : option scaler) : Run.environment :=
  match s with
  | None => env
  | Some sc =>
      {| Run.dir_writable := Run.dir_writable env;
         Run.imwri_found := Run.imwri_found env;
         Run.env_scaler := if plugin_found sc then Run.Built else Run.NoPlugin;
         Run.env_num_threads := Run.env_num_threads env;
         Run.env_completed := Run.env_completed env;
         Run.env_plane_stats := scaler_stats sc |}
  end.

(** [d[k] = v] on a dict: a key that is there keeps its place. *)
Fixpoint dict_set {V : Type} (d : list (String.string * V)) (k : String.string) (v : V)
  : list (String.string * V) :=
  match d with
  | [] => [(k, v)]
  | (k', v') :: t => if String.eqb k' k then (k', v) :: t else (k', v') :: dict_set t k v
  end.

(** [d.get(k)] *)
Fixpoint dict_get {V : Type} (d : list (String.string * V)) (k : String.string) : option V :=
  match d with
  | [] => None
  | (k', v') :: t => if String.eqb k' k then Some v' else dict_get t k
  end.

Record dicts : Type := {
  res_dict : list (String.string * (Z * Z));
  mae_dict : list (String.string * Q);
  ub_dict : list (String.string * bool)
}.

Definition no_dicts : dicts := {| res_dict := []; mae_dict := []; ub_dict := [] |}.

(** What leaves [_getnative]: an exception of [getnative], or a
    [KeyError] of a dict. *)
Inductive raised : Type :=
| Raised (e : exn)
| KeyError.

(** [for i, scaler in enumerate(mode)] *)
Fixpoint scalers_loop (env : Run.environment) (src : Run.source)
         (mode : list (option scaler)) (args : Run.arguments) (d : dicts)
  : raised + dicts :=
  match mode with
  | [] => inr d
  | s :: t =>
      if skipped s then scalers_loop env src t args d
      else
        match Run.getnative (env_for env s) args src with
        | inl e => inl (Raised e)
        | inr (h, w, mae, overstretched, near_ub) =>
            scalers_loop env src t (assigned args src)
              (if overstretched then d
               else {| res_dict := dict_set (res_dict d) (key s) (h, w);
                       mae_dict := dict_set (mae_dict d) (key s) mae;
                       ub_dict := dict_set (ub_dict d) (key s) near_ub |})
        end
  end.

(** [min(mae_dict, key=mae_dict.get)] on a dict that is not empty: the first
    key of the smallest value. *)
Fixpoint min_from (best : String.string * Q) (d : list (String.string * Q)) : String.string :=
  match d with
  | [] => fst best
  | kv :: t => if Num.ltb (snd kv) (snd best) then min_from kv t else min_from best t
  end.

(** The end of [_getnative]: the best scaler with its width, its height and
    the warning of the upper bound, or [None] for "The estimation does not
    converge". *)
Definition report (d : dicts) : raised + option (String.string * Z * Z * bool) :=
  match mae_dict d, res_dict d with
  | _, [] => inr None
  | [], _ :: _ => inl (Raised ValueError)
  | kv :: t, _ :: _ =>
      let best_scaler := min_from kv t in
      match dict_get (res_dict d) best_scaler, dict_get (ub_dict d) best_scaler with
      | Some (h, w), Some near_ub => inr (Some (best_scaler, w, h, near_ub))
      | _, _ => inl KeyError
      end
  end.

(** [_getnative] for the scalers of [mode]. *)
Definition getnative_batch (env : Run.environment) (args : Run.arguments) (src : Run.source)
           (mode : list (option scaler)) : raised + option (String.string * Z * Z * bool) :=
  match scalers_loop env src mode args no_dicts with
  | inl e => inl e
  | inr d => report d
  end.

End Batch.

(** ** The marks of the plot: [save_plot]

    [save_plot] draws the curve over the candidate heights and marks some of
    them on the axis.  The marks are the value here; the drawing is left
    out. *)

Module Plot.

(** [a // b] on integers *)
Definition floordiv (a b : Z) : result Z :=
  if b =? 0 then raise ZeroDivisionError else ret (a / b).

(** [a % b] on integers *)
Definition modulo (a b : Z) : result Z :=
  if b =? 0 then raise ZeroDivisionError else ret (a mod b).

(** [dh for i, dh in enumerate(dh_sequence) if i % (...) == 0], from the
    position [i] on. *)
Fixpoint select (min_h max_h steps : Z) (i : Z) (dh_sequence : list Z) : result (list Z) :=
  match dh_sequence with
  | [] => ret []
  | dh :: t =>
      m <- floordiv (max_h - min_h + 10 * steps - 1) (10 * steps) ;;
      r <- modulo i m ;;
      rest <- select min_h max_h steps (i + 1) t ;;
      ret (if r =? 0 then dh :: rest else rest)
  end.

(** The [ticks] of [save_plot]. *)
Definition ticks (min_h max_h steps : Z) : result (list Z) :=
  dh_sequence <- py_range min_h (max_h + 1) steps ;;
  select min_h max_h steps 0 dh_sequence.

End Plot.

(** * The vocabulary of the properties *)

(** ** The peak detector *)

(** The curve of the scenario of the specification. *)
Definition scenario_vals : list Q := [1; 1; 1; 1 # 10; 1; 1]%Q.

(** Two entries of the accumulated set at different positions are 20 index
    positions apart or more. *)
Definition separated (resolutions : list nat) : Prop :=
  forall i j a b, i <> j ->
    nth_error resolutions i = Some a -> nth_error resolutions j = Some b ->
    20 <= Z.abs (Z.of_nat a - Z.of_nat b).

(** The accumulated set after a series of [analyze_results] calls, each with
    its step, curve and offset. *)
Definition after_calls (resolutions : list nat) (calls : list (Z * list Q * Z)) : list nat :=
  fold_left (fun res c => fst (Peak.analyze_results (fst (fst c)) res (snd (fst c)) (snd c)))
            calls resolutions.

(** A list in descending order. *)
Definition descending (l : list Q) : Prop := StronglySorted (fun a b => (b <= a)%Q) l.

(** No ratio of the curve is above one. *)
Definition no_ratio_above_one (vals : list Q) : bool :=
  forallb (fun r => Qle_bool r 1) (Peak.compute_ratios vals).

(** ** The evaluation scheduler *)

Section SchedulerVocabulary.

Variable num_threads : nat.
Variable completed : nat -> list nat -> list nat.
Variable f : nat -> Q.

(** Every collected pair holds the value of its request. *)
Definition faithful (l : list (nat * Q)) : Prop :=
  Forall (fun p => snd p = f (fst p)) l.

(** After the first [k] requests were issued: every one of them is either
    in flight or collected, once, and the collected values are theirs. *)
Definition consistent (k : nat) (st : Scheduler.state) : Prop :=
  Permutation (Scheduler.tasks_pending st ++ map fst (Scheduler.vals st)) (seq 0 k) /\
  faithful (Scheduler.vals st).

(** The state after one wait of the drain loop. *)
Definition after_wait (st : Scheduler.state) : Scheduler.state :=
  let w := Scheduler.wait_first_completed completed (Scheduler.clock st) (Scheduler.tasks_pending st) in
  {| Scheduler.clock := S (Scheduler.clock st);
     Scheduler.tasks_pending := snd w;
     Scheduler.vals := Scheduler.vals st ++ Scheduler.collect f (fst w);
     Scheduler.in_flight := Scheduler.in_flight st ++ [length (snd w)] |}.

(** The state after [tasks_pending.add(fut)], before the drain loop. *)
Definition added (st : Scheduler.state) (k : nat) : Scheduler.state :=
  {| Scheduler.clock := Scheduler.clock st;
     Scheduler.tasks_pending := Scheduler.tasks_pending st ++ [k];
     Scheduler.vals := Scheduler.vals st;
     Scheduler.in_flight :=
       Scheduler.in_flight st ++ [length (Scheduler.tasks_pending st ++ [k])] |}.

(** At the head of the issue loop fewer than [cap] requests are in flight,
    and no count recorded so far exceeds [cap]. *)
Definition bounded (st : Scheduler.state) : Prop :=
  Forall (fun n => (n <= Scheduler.cap num_threads)%nat) (Scheduler.in_flight st) /\
  (length (Scheduler.tasks_pending st) < Scheduler.cap num_threads)%nat.

(** The environment reports one request per wait. *)
Definition one_at_a_time : Prop :=
  forall clk p, (length (Scheduler.named completed clk p) <= 1)%nat.

End SchedulerVocabulary.

(** ** The frame selector *)

(** Position [i] holds less than position [j] whenever [i < j]. *)
Definition increasing (l : list Z) : Prop :=
  forall i j x y, (i < j)%nat -> nth_error l i = Some x -> nth_error l j = Some y -> x < y.

(** Position [i] holds at most what position [j] holds whenever [i < j]. *)
Definition nondecreasing (l : list Z) : Prop :=
  forall i j x y, (i < j)%nat -> nth_error l i = Some x -> nth_error l j = Some y -> x <= y.

(** Written after the specification: [[start, stop)] cut into [n] equal
    intervals, the right edge of each, as an integer. *)
Definition spec_right_edges (start stop n : Z) : list Z :=
  map (fun i => Qfloor (inject_Z start
                        + inject_Z (Z.of_nat i) * ((inject_Z stop - inject_Z start) / inject_Z n)))
      (seq 1 (Z.to_nat n)).

(** The entry of the frame selector at position [i], in integer arithmetic. *)
Definition frame_at (start stop n : Z) (i : nat) : Z :=
  start + (Z.of_nat (S i) * (stop - start)) / (n + 1).

(** ** The width-scan aggregation *)

(** [a] and [b] are finite, and [a] is [k] times [b]. *)
Definition scaled (k : Q) (a b : Width.xval) : Prop :=
  match a, b with
  | Width.Fin x, Width.Fin y => (x == k * y)%Q
  | _, _ => False
  end.

(** Two results that fail alike or hold related lists. *)
Definition related {A : Type} (R : A -> A -> Prop) (r r' : result (list A)) : Prop :=
  match r, r' with
  | inl e, inl e' => e = e'
  | inr l, inr l' => Forall2 R l l'
  | _, _ => False
  end.

(** ** The search *)

(** A step of the search under which a property of [self.resolutions]
    persists. *)
Definition preserves {A : Type} (P : list nat -> Prop) (m : Run.M A) : Prop :=
  forall w, P (Run.self_resolutions w) -> P (Run.self_resolutions (fst (m w))).

(** A step that leaves [self.resolutions] alone. *)
Definition keeps {A : Type} (m : Run.M A) : Prop :=
  forall w, Run.self_resolutions (fst (m w)) = Run.self_resolutions w.

(** ** States of the detector, the search and the batch *)

(** A position whose ratio is above one. *)
Definition peak_at (ratios : list Q) (r : nat) : Prop :=
  exists x, nth_error ratios r = Some x /\ (1 < x)%Q.

(** The entry at position [k] is the first NaN of the list, or the list has
    no NaN and the entry is its first smallest value. *)
Definition first_least (l : list Width.xval) (k : nat) : Prop :=
  exists x, nth_error l k = Some x /\
            (forall j y, (j < k)%nat -> nth_error l j = Some y ->
                         Width.is_nan y = false /\ (Width.is_nan x = false -> Width.xltb x y = true)) /\
            (Width.is_nan x = false ->
             forall y, In y l -> Width.is_nan y = false /\ Width.xltb y x = false).

(** A state of the search whose accumulated set holds positions below [n]. *)
Definition in_range (n : nat) (w : Run.world) : Prop :=
  Forall (fun r => (r < n)%nat) (Run.self_resolutions w).

(** From a state with [P], the step fails or ends with a value and a state
    with [Q]. *)
Definition hoare {A : Type} (P : Run.world -> Prop) (m : Run.M A)
           (Q : A -> Run.world -> Prop) : Prop :=
  forall w, P w -> match m w with
                   | (w', inr a) => Q a w'
                   | (_, inl _) => True
                   end.

(** The sum of the curves so far: the float [0.], or a curve with an entry
    for each of the candidates, of which there is one at least. *)
Definition shaped (n : nat) (sampled_vals : option (list Q)) : Prop :=
  match sampled_vals with
  | None => True
  | Some l => length l = n /\ (0 < n)%nat
  end.

(** The scalers of a mode that [_getnative] runs. *)
Definition tried (mode : list (option Batch.scaler)) : list (option Batch.scaler) :=
  filter (fun s => negb (Batch.skipped s)) mode.

(** A kept result: the key with the height, the width, the error and the
    flag of the upper bound. *)
Definition entry : Type := (String.string * (Z * Z * Q * bool))%type.

(** The three dicts that hold the entries [E], in their order. *)
Definition dicts_of (E : list entry) : Batch.dicts :=
  {| Batch.res_dict := map (fun e => (fst e, (fst (fst (fst (snd e))), snd (fst (fst (snd e)))))) E;
     Batch.mae_dict := map (fun e => (fst e, snd (fst (snd e)))) E;
     Batch.ub_dict := map (fun e => (fst e, snd (snd e))) E |}.

(** The results that are not overstretched, in the order of the mode. *)
Fixpoint kept (env : Run.environment) (args : Run.arguments) (src : Run.source)
         (mode : list (option Batch.scaler)) : list entry :=
  match mode with
  | [] => []
  | s :: t =>
      if Batch.skipped s then kept env args src t
      else match Run.getnative (Batch.env_for env s) args src with
           | inr (h, w, mae, false, near_ub) => (Batch.key s, (h, w, mae, near_ub)) :: kept env args src t
           | _ => kept env args src t
           end
  end.

(** The three dicts hold the same keys in the same order. *)
Definition aligned (d : Batch.dicts) : Prop :=
  map fst (Batch.res_dict d) = map fst (Batch.mae_dict d) /\
  map fst (Batch.res_dict d) = map fst (Batch.ub_dict d).

(** ** Binary64 values

    [x] rounded to a multiple of [2^q], ties to the even multiple. *)
Definition to_grid (q : Z) (x : Q) : Q :=
  (inject_Z (Num.py_round (x / F64.pow2 q)) * F64.pow2 q)%Q.

(** A value of the summed curve that is zero or lies between [2^-500] and
    [2^500]. *)
Definition moderate (x : Q) : Prop :=
  (x == 0)%Q \/ (F64.pow2 (-500) <= x)%Q /\ (x <= F64.pow2 500)%Q.

(** [a] is [2^k] times [b], and [b] is zero or lies between [2^lo] and
    [2^hi]. *)
Definition good (k lo hi : Z) (a b : Width.xval) : Prop :=
  match a, b with
  | Width.Fin x, Width.Fin y =>
      (x == F64.pow2 k * y)%Q /\
      ((y == 0)%Q \/ (F64.pow2 lo <= y)%Q /\ (y <= F64.pow2 hi)%Q)
  | _, _ => False
  end.

(** The end frame of the frame selector: [src.num_frames] when [args.fend]
    is [None]. *)
Definition end_frame (args : Run.arguments) (src : Run.source) : Z :=
  match Run.fend args with None => Run.num_frames src | Some e => e end.

(** The arguments with another start and end frame. *)
Definition with_range (args : Run.arguments) (fstart : Z) (fend : option Z)
  : Run.arguments :=
  {| Run.fstart := fstart;
     Run.fend := fend;
     Run.fsamples := Run.fsamples args;
     Run.arg_passes := Run.arg_passes args;
     Run.arg_ar := Run.arg_ar args;
     Run.arg_min_h := Run.arg_min_h args;
     Run.arg_max_h := Run.arg_max_h args;
     Run.ub_thr := Run.ub_thr args;
     Run.arg_steps := Run.arg_steps args;
     Run.img := Run.img args;
     Run.mask_out := Run.mask_out args |}.

(** ** Example configurations *)

(** A source of 100 x 50 with 30 frames whose error drops at the height 30
    and, at that height, at the width 60. *)
Definition example_stats (frame : Z) (resized : bool) (w h : Z) : Q :=
  if h =? 30 then (if w =? 60 then 1 # 20 else 1 # 10)
  else if w =? 60 then 1 # 2 else 1.

Definition example_env : Run.environment :=
  {| Run.dir_writable := true;
     Run.imwri_found := false;
     Run.env_scaler := Run.Built;
     Run.env_num_threads := 2;
     Run.env_completed := Scheduler.oldest_first;
     Run.env_plane_stats := example_stats |}.

Definition example_src : Run.source :=
  {| Run.width := 100; Run.height := 50; Run.num_frames := 30 |}.

Definition example_args (fstart : Z) (fend : option Z) (fsamples : Z) : Run.arguments :=
  {| Run.fstart := fstart;
     Run.fend := fend;
     Run.fsamples := fsamples;
     Run.arg_passes := 1;
     Run.arg_ar := 0;
     Run.arg_min_h := -1;
     Run.arg_max_h := -1;
     Run.ub_thr := 10;
     Run.arg_steps := 1;
     Run.img := false;
     Run.mask_out := false |}.

(** The same surroundings with an oracle that answers 1 everywhere. *)
Definition flat_env : Run.environment :=
  {| Run.dir_writable := true;
     Run.imwri_found := false;
     Run.env_scaler := Run.Built;
     Run.env_num_threads := 2;
     Run.env_completed := Scheduler.oldest_first;
     Run.env_plane_stats := fun _ _ _ _ => 1%Q |}.

(** A wider source, of 200 x 50. *)
Definition wide_src : Run.source :=
  {| Run.width := 200; Run.height := 50; Run.num_frames := 30 |}.

(** The example arguments with two passes. *)
Definition two_pass_args : Run.arguments :=
  {| Run.fstart := 0;
     Run.fend := None;
     Run.fsamples := 2;
     Run.arg_passes := 2;
     Run.arg_ar := 0;
     Run.arg_min_h := -1;
     Run.arg_max_h := -1;
     Run.ub_thr := 10;
     Run.arg_steps := 1;
     Run.img := false;
     Run.mask_out := false |}.

(** An oracle of half the error, which drops at the height 40 and the
    width 80. *)
Definition half_stats (frame : Z) (resized : bool) (w h : Z) : Q :=
  if h =? 40 then (if w =? 80 then 1 # 40 else 1 # 20)
  else if w =? 80 then 1 # 4 else 1 # 2.

(** An oracle that drops at the height 30 and pulls the width further out
    in each pass. *)
Definition stretched_stats (frame : Z) (resized : bool) (w h : Z) : Q :=
  if h =? 30
  then (if w =? 130 then 1 # 80 else if w =? 125 then 1 # 40 else 1 # 20)
  else 1 # 2.

Section BatchExamples.

Import String.

(** A mode of three scalers, the second of which has no plugin. *)
Definition example_mode : list (option Batch.scaler) :=
  [Some {| Batch.name := "Bilinear"; Batch.plugin_found := true;
           Batch.scaler_stats := example_stats |};
   Some {| Batch.name := "Spline16"; Batch.plugin_found := false;
           Batch.scaler_stats := example_stats |};
   Some {| Batch.name := "Lanczos taps 3"; Batch.plugin_found := true;
           Batch.scaler_stats := half_stats |}].

(** A mode of one scaler, whose result on the wide source is overstretched. *)
Definition stretched_mode : list (option Batch.scaler) :=
  [Some {| Batch.name := "Spline36"; Batch.plugin_found := true;
           Batch.scaler_stats := stretched_stats |}].

End BatchExamples.

(** A source of 150 x 300 whose error drops at the height 180, where the
    width 120 is better than its neighbours and the width 126 better still. *)
Definition tall_stats (frame : Z) (resized : bool) (w h : Z) : Q :=
  if h =? 180 then (if w =? 126 then 1 # 16 else if w =? 120 then 1 # 8 else 1 # 4)
  else 1 # 2.

Definition tall_env : Run.environment :=
  {| Run.dir_writable := true;
     Run.imwri_found := false;
     Run.env_scaler := Run.Built;
     Run.env_num_threads := 2;
     Run.env_completed := Scheduler.oldest_first;
     Run.env_plane_stats := tall_stats |}.

Definition tall_src : Run.source :=
  {| Run.width := 150; Run.height := 300; Run.num_frames := 30 |}.

(** Two samples, two passes, the heights 170 to 190. *)
Definition tall_args : Run.arguments :=
  {| Run.fstart := 0;
     Run.fend := None;
     Run.fsamples := 2;
     Run.arg_passes := 2;
     Run.arg_ar := 0;
     Run.arg_min_h := 170;
     Run.arg_max_h := 190;
     Run.ub_thr := 10;
     Run.arg_steps := 1;
     Run.img := false;
     Run.mask_out := false |}.

(** * Properties *)

(** ** Comparisons *)

Lemma ltb_lt (a b : Q) : Num.ltb a b = true <-> (a < b)%Q.
Proof.
  unfold Num.ltb. rewrite negb_true_iff.
  split; intro H.
  - apply Qnot_le_lt. intro Hle. apply Qle_bool_iff in Hle. congruence.
  - destruct (Qle_bool b a) eqn:E; [|reflexivity].
    apply Qle_bool_iff in E. exfalso. exact (Qlt_not_le _ _ H E).
Qed.

Lemma ltb_ge (a b : Q) : Num.ltb a b = false <-> (b <= a)%Q.
Proof.
  unfold Num.ltb. rewrite negb_false_iff. apply Qle_bool_iff.
Qed.

Lemma eqb_eq (a b : Q) : Num.eqb a b = true <-> (a == b)%Q.
Proof. apply Qeq_bool_iff. Qed.

Lemma eqb_refl (a : Q) : Num.eqb a a = true.
Proof. apply eqb_eq. reflexivity. Qed.

(** ** Binary64 rounding *)

Section RoundingProperties.

Lemma pow2_pos (k : Z) : (0 < F64.pow2 k)%Q.
Proof. apply Qpower_0_lt. reflexivity. Qed.

Lemma pow2_nonzero (k : Z) : ~ (F64.pow2 k == 0)%Q.
Proof.
  intro H. pose proof (pow2_pos k) as Hp. rewrite H in Hp. exact (Qlt_irrefl _ Hp).
Qed.

Lemma pow2_add (a b : Z) : (F64.pow2 (a + b) == F64.pow2 a * F64.pow2 b)%Q.
Proof. apply Qpower_plus. discriminate. Qed.

Lemma pow2_le (a b : Z) : a <= b -> (F64.pow2 a <= F64.pow2 b)%Q.
Proof. intro H. apply Qpower_le_compat_l; [exact H|discriminate]. Qed.

Lemma pow2_lt (a b : Z) : a < b -> (F64.pow2 a < F64.pow2 b)%Q.
Proof. intro H. apply Qpower_lt_compat_l; [exact H|reflexivity]. Qed.

Lemma pow2_lt_inv (a b : Z) : (F64.pow2 a < F64.pow2 b)%Q -> a < b.
Proof. intro H. apply Qpower_lt_compat_l_inv with 2%Q; [exact H|reflexivity]. Qed.

Lemma pow2_Z (k : Z) : 0 <= k -> (F64.pow2 k == inject_Z (2 ^ k))%Q.
Proof. intro H. symmetry. apply (Zpower_Qpower 2 k H). Qed.

(** Rounding to an integer. *)

Lemma py_round_low (x : Q) :
  (x - inject_Z (Qfloor x) < 1 # 2)%Q -> Num.py_round x = Qfloor x.
Proof.
  intro H. unfold Num.py_round.
  replace (Num.ltb (Qred (x - inject_Z (Qfloor x))) (1 # 2)) with true; [reflexivity|].
  symmetry. apply ltb_lt. rewrite Qred_correct. exact H.
Qed.

Lemma py_round_high (x : Q) :
  (1 # 2 < x - inject_Z (Qfloor x))%Q -> Num.py_round x = Qfloor x + 1.
Proof.
  intro H. unfold Num.py_round.
  replace (Num.ltb (Qred (x - inject_Z (Qfloor x))) (1 # 2)) with false.
  - replace (Num.ltb (1 # 2) (Qred (x - inject_Z (Qfloor x)))) with true; [reflexivity|].
    symmetry. apply ltb_lt. rewrite Qred_correct. exact H.
  - symmetry. apply ltb_ge. rewrite Qred_correct. apply Qlt_le_weak, H.
Qed.

Lemma py_round_tie (x : Q) :
  (x - inject_Z (Qfloor x) == 1 # 2)%Q ->
  Num.py_round x = if Z.even (Qfloor x) then Qfloor x else Qfloor x + 1.
Proof.
  intro H. unfold Num.py_round.
  replace (Num.ltb (Qred (x - inject_Z (Qfloor x))) (1 # 2)) with false.
  - replace (Num.ltb (1 # 2) (Qred (x - inject_Z (Qfloor x)))) with false; [reflexivity|].
    symmetry. apply ltb_ge. rewrite Qred_correct, H. apply Qle_refl.
  - symmetry. apply ltb_ge. rewrite Qred_correct, H. apply Qle_refl.
Qed.

Lemma py_round_range (x : Q) : Qfloor x <= Num.py_round x <= Qfloor x + 1.
Proof.
  unfold Num.py_round.
  destruct (Num.ltb _ _); [lia|]. destruct (Num.ltb _ _); [lia|].
  destruct (Z.even _); lia.
Qed.

Lemma py_round_Z (z : Z) : Num.py_round (inject_Z z) = z.
Proof.
  rewrite py_round_low; [apply Qfloor_Z|].
  rewrite Qfloor_Z. setoid_replace (inject_Z z - inject_Z z)%Q with 0%Q by ring.
  reflexivity.
Qed.

Lemma py_round_mono (a b : Q) : (a <= b)%Q -> Num.py_round a <= Num.py_round b.
Proof.
  intro H. pose proof (Qfloor_resp_le _ _ H) as Hf.
  pose proof (py_round_range a) as Ha. pose proof (py_round_range b) as Hb.
  destruct (Z.eq_dec (Qfloor a) (Qfloor b)) as [E|E]; [|lia].
  assert (Hd : (a - inject_Z (Qfloor a) <= b - inject_Z (Qfloor b))%Q).
  { rewrite E. apply Qplus_le_l with (inject_Z (Qfloor b)). ring_simplify. exact H. }
  destruct (Q_dec (a - inject_Z (Qfloor a)) (1 # 2)) as [[Hlt|Hgt]|Heq].
  - rewrite (py_round_low a Hlt). lia.
  - rewrite (py_round_high a Hgt), (py_round_high b); [lia|].
    apply Qlt_le_trans with (a - inject_Z (Qfloor a))%Q; assumption.
  - rewrite (py_round_tie a Heq).
    destruct (Q_dec (b - inject_Z (Qfloor b)) (1 # 2)) as [[Hlt|Hgt]|Heq'].
    + exfalso. rewrite Heq in Hd. exact (Qlt_not_le _ _ Hlt Hd).
    + rewrite (py_round_high b Hgt). destruct (Z.even _); lia.
    + rewrite (py_round_tie b Heq'), E. lia.
Qed.

Lemma py_round_compat (a b : Q) : (a == b)%Q -> Num.py_round a = Num.py_round b.
Proof.
  intro H. apply Z.le_antisymm; apply py_round_mono; rewrite H; apply Qle_refl.
Qed.


(** The exponent. *)

Lemma ilog2_spec (x : Q) :
  (0 < x)%Q -> (F64.pow2 (F64.ilog2 x) <= x)%Q /\ (x < F64.pow2 (F64.ilog2 x + 1))%Q.
Proof.
  intro Hx. unfold F64.ilog2.
  set (a := Z.log2 (Qnum x)). set (b := Z.log2 (Z.pos (Qden x))).
  assert (Hn : 0 < Qnum x).
  { destruct x as [n d]. unfold Qlt in Hx. simpl in *. lia. }
  destruct (Z.log2_spec (Qnum x) Hn) as [Ha1 Ha2]. fold a in Ha1, Ha2.
  destruct (Z.log2_spec (Z.pos (Qden x)) ltac:(lia)) as [Hb1 Hb2]. fold b in Hb1, Hb2.
  assert (Ha0 : 0 <= a) by apply Z.log2_nonneg.
  assert (Hb0 : 0 <= b) by apply Z.log2_nonneg.
  assert (Hup : (x < F64.pow2 (a - b + 1))%Q).
  { replace (a - b + 1) with (Z.succ a - b) by lia. unfold F64.pow2.
    rewrite Qpower_minus by discriminate.
    fold (F64.pow2 (Z.succ a)). fold (F64.pow2 b).
    rewrite (pow2_Z (Z.succ a)), (pow2_Z b) by lia.
    apply Qlt_shift_div_l.
    - change 0%Q with (inject_Z 0). rewrite <- Zlt_Qlt. lia.
    - destruct x as [n d]. unfold Qlt. simpl in *. nia. }
  assert (Hlow : (F64.pow2 (a - b - 1) <= x)%Q).
  { replace (a - b - 1) with (a - Z.succ b) by lia. unfold F64.pow2.
    rewrite Qpower_minus by discriminate.
    fold (F64.pow2 a). fold (F64.pow2 (Z.succ b)).
    rewrite (pow2_Z a), (pow2_Z (Z.succ b)) by lia.
    apply Qle_shift_div_r.
    - change 0%Q with (inject_Z 0). rewrite <- Zlt_Qlt. lia.
    - destruct x as [n d]. unfold Qle. simpl in *. nia. }
  destruct (Qle_bool (F64.pow2 (a - b)) x) eqn:E.
  - apply Qle_bool_iff in E. split; assumption.
  - split; [exact Hlow|].
    replace (a - b - 1 + 1) with (a - b) by lia.
    apply Qnot_le_lt. intro H. apply Qle_bool_iff in H. congruence.
Qed.

Lemma ilog2_unique (x : Q) (e : Z) :
  (F64.pow2 e <= x)%Q -> (x < F64.pow2 (e + 1))%Q -> F64.ilog2 x = e.
Proof.
  intros H1 H2.
  assert (Hx : (0 < x)%Q) by (apply Qlt_le_trans with (F64.pow2 e); [apply pow2_pos|exact H1]).
  destruct (ilog2_spec x Hx) as [H3 H4].
  assert (F64.ilog2 x < e + 1)
    by (apply pow2_lt_inv; apply Qle_lt_trans with x; assumption).
  assert (e < F64.ilog2 x + 1)
    by (apply pow2_lt_inv; apply Qle_lt_trans with x; assumption).
  lia.
Qed.

Lemma ilog2_mono (x y : Q) : (0 < x)%Q -> (x <= y)%Q -> F64.ilog2 x <= F64.ilog2 y.
Proof.
  intros Hx H.
  assert (Hy : (0 < y)%Q) by (apply Qlt_le_trans with x; assumption).
  destruct (ilog2_spec x Hx) as [H1 _]. destruct (ilog2_spec y Hy) as [_ H2].
  assert (F64.ilog2 x < F64.ilog2 y + 1); [|lia].
  apply pow2_lt_inv. apply Qle_lt_trans with x; [exact H1|].
  apply Qle_lt_trans with y; assumption.
Qed.

Lemma ilog2_compat (x y : Q) : (0 < x)%Q -> (x == y)%Q -> F64.ilog2 x = F64.ilog2 y.
Proof.
  intros Hx E. symmetry. destruct (ilog2_spec x Hx) as [H1 H2].
  apply ilog2_unique; rewrite <- E; assumption.
Qed.

(** Rounding to a multiple of [2^q]. *)

Lemma to_grid_mono (q : Z) (x y : Q) : (x <= y)%Q -> (to_grid q x <= to_grid q y)%Q.
Proof.
  intro H. unfold to_grid. apply Qmult_le_compat_r; [|apply Qlt_le_weak, pow2_pos].
  rewrite <- Zle_Qle. apply py_round_mono.
  unfold Qdiv. apply Qmult_le_compat_r; [exact H|].
  apply Qlt_le_weak, Qinv_lt_0_compat, pow2_pos.
Qed.

Lemma to_grid_fix (q m : Z) (x : Q) :
  (x == inject_Z m * F64.pow2 q)%Q -> (to_grid q x == x)%Q.
Proof.
  intro H. unfold to_grid.
  rewrite (py_round_compat (x / F64.pow2 q) (inject_Z m)).
  - rewrite py_round_Z. symmetry. exact H.
  - rewrite H. field. apply pow2_nonzero.
Qed.

Lemma round_pos_grid (x : Q) : (F64.round_pos x == to_grid (F64.quantum x) x)%Q.
Proof. unfold F64.round_pos, to_grid. apply Qred_correct. Qed.

Lemma quantum_mono (x y : Q) : (0 < x)%Q -> (x <= y)%Q -> F64.quantum x <= F64.quantum y.
Proof. intros Hx H. unfold F64.quantum. pose proof (ilog2_mono x y Hx H). lia. Qed.

(** A power of two at or above the last place is a multiple of it. *)
Lemma pow2_on_grid (e q : Z) :
  q <= e -> (F64.pow2 e == inject_Z (2 ^ (e - q)) * F64.pow2 q)%Q.
Proof.
  intro H. rewrite <- (pow2_Z (e - q)) by lia. rewrite <- pow2_add.
  replace (e - q + q) with e by lia. reflexivity.
Qed.

Lemma round_pos_mono (x y : Q) :
  (0 < x)%Q -> (x <= y)%Q -> (F64.round_pos x <= F64.round_pos y)%Q.
Proof.
  intros Hx H.
  assert (Hy : (0 < y)%Q) by (apply Qlt_le_trans with x; assumption).
  rewrite !round_pos_grid.
  pose proof (quantum_mono x y Hx H) as Hq.
  destruct (Z.eq_dec (F64.quantum x) (F64.quantum y)) as [E|E].
  - rewrite E. apply to_grid_mono, H.
  - assert (Hlt : F64.quantum x < F64.quantum y) by lia.
    unfold F64.quantum in Hlt.
    assert (Hqy : F64.quantum y = F64.ilog2 y - 52) by (unfold F64.quantum; lia).
    assert (Hex : F64.ilog2 x < F64.ilog2 y) by lia.
    destruct (ilog2_spec x Hx) as [_ Hx2]. destruct (ilog2_spec y Hy) as [Hy1 _].
    set (p := F64.pow2 (F64.ilog2 y)).
    assert (Hxp : (x <= p)%Q).
    { apply Qlt_le_weak. apply Qlt_le_trans with (F64.pow2 (F64.ilog2 x + 1)); [exact Hx2|].
      apply pow2_le. lia. }
    apply Qle_trans with p.
    + apply Qle_trans with (to_grid (F64.quantum x) p); [apply to_grid_mono, Hxp|].
      apply Qle_lteq. right.
      apply to_grid_fix with (2 ^ (F64.ilog2 y - F64.quantum x)).
      apply pow2_on_grid. unfold F64.quantum. lia.
    + apply Qle_trans with (to_grid (F64.quantum y) p); [|apply to_grid_mono, Hy1].
      apply Qle_lteq. right. symmetry.
      apply to_grid_fix with (2 ^ (F64.ilog2 y - F64.quantum y)).
      apply pow2_on_grid. lia.
Qed.

Lemma round_pos_nonneg (x : Q) : (0 <= x)%Q -> (0 <= F64.round_pos x)%Q.
Proof.
  intro H. rewrite round_pos_grid. unfold to_grid.
  apply Qmult_le_0_compat; [|apply Qlt_le_weak, pow2_pos].
  change 0%Q with (inject_Z 0). rewrite <- Zle_Qle.
  rewrite <- (py_round_Z 0). apply py_round_mono.
  unfold Qdiv. apply Qmult_le_0_compat; [exact H|].
  apply Qlt_le_weak, Qinv_lt_0_compat, pow2_pos.
Qed.

Lemma round_zero (x : Q) : (x == 0)%Q -> F64.round x = 0%Q.
Proof.
  intro H. unfold F64.round.
  replace (Qeq_bool x 0) with true; [reflexivity|]. symmetry. apply Qeq_bool_iff, H.
Qed.

Lemma round_positive (x : Q) : (0 < x)%Q -> F64.round x = F64.round_pos x.
Proof.
  intro H. unfold F64.round.
  replace (Qeq_bool x 0) with false.
  - replace (Qle_bool 0 x) with true; [reflexivity|].
    symmetry. apply Qle_bool_iff, Qlt_le_weak, H.
  - symmetry. apply not_true_is_false. intro E. apply Qeq_bool_iff in E.
    rewrite E in H. exact (Qlt_irrefl _ H).
Qed.

Lemma round_negative (x : Q) : (x < 0)%Q -> (F64.round x == - F64.round_pos (- x))%Q.
Proof.
  intro H. unfold F64.round.
  replace (Qeq_bool x 0) with false.
  - replace (Qle_bool 0 x) with false; [apply Qred_correct|].
    symmetry. apply not_true_is_false. intro E. apply Qle_bool_iff in E.
    exact (Qlt_not_le _ _ H E).
  - symmetry. apply not_true_is_false. intro E. apply Qeq_bool_iff in E.
    rewrite E in H. exact (Qlt_irrefl _ H).
Qed.

Lemma round_nonneg (x : Q) : (0 <= x)%Q -> (0 <= F64.round x)%Q.
Proof.
  intro H. apply Qle_lteq in H. destruct H as [H|H].
  - rewrite (round_positive x H). apply round_pos_nonneg, Qlt_le_weak, H.
  - rewrite (round_zero x); [apply Qle_refl|symmetry; exact H].
Qed.

Lemma round_nonpos (x : Q) : (x <= 0)%Q -> (F64.round x <= 0)%Q.
Proof.
  intro H. apply Qle_lteq in H. destruct H as [H|H].
  - rewrite (round_negative x H).
    assert (0 <= F64.round_pos (- x))%Q.
    { apply round_pos_nonneg. apply Qlt_le_weak.
      apply (Qopp_lt_compat x 0) in H. exact H. }
    apply (Qopp_le_compat 0) in H0. exact H0.
  - rewrite (round_zero x H). apply Qle_refl.
Qed.

(** Rounding keeps the order. *)
Lemma round_mono (x y : Q) : (x <= y)%Q -> (F64.round x <= F64.round y)%Q.
Proof.
  intro H.
  destruct (Qlt_le_dec 0 x) as [Hx|Hx].
  - assert (Hy : (0 < y)%Q) by (apply Qlt_le_trans with x; assumption).
    rewrite (round_positive x Hx), (round_positive y Hy).
    apply round_pos_mono; assumption.
  - destruct (Qlt_le_dec y 0) as [Hy|Hy].
    + assert (Hx' : (x < 0)%Q) by (apply Qle_lt_trans with y; assumption).
      rewrite (round_negative x Hx'), (round_negative y Hy).
      apply Qopp_le_compat. apply round_pos_mono.
      * apply (Qopp_lt_compat y 0) in Hy. exact Hy.
      * apply Qopp_le_compat, H.
    + apply Qle_trans with 0%Q; [apply round_nonpos, Hx|apply round_nonneg, Hy].
Qed.


Lemma Qred_inject_Z (z : Z) : Qred (inject_Z z) = inject_Z z.
Proof.
  unfold Qred, inject_Z.
  pose proof (Z.ggcd_gcd z 1) as Hg. pose proof (Z.ggcd_correct_divisors z 1) as Hd.
  destruct (Z.ggcd z 1) as [g [aa bb]]. simpl in *. rewrite Z.gcd_1_r in Hg. subst g.
  destruct Hd as [Ha Hb]. replace aa with z by lia. replace bb with 1 by lia. reflexivity.
Qed.

(** An integer of 53 bits is a float64 value. *)
Lemma round_pos_Z (z : Z) :
  0 < z <= 2 ^ 53 -> F64.round_pos (inject_Z z) = inject_Z z.
Proof.
  intros [H0 H1].
  rewrite <- (Qred_inject_Z z) at 2. unfold F64.round_pos. apply Qred_complete.
  change (to_grid (F64.quantum (inject_Z z)) (inject_Z z) == inject_Z z)%Q.
  assert (Hz : (0 < inject_Z z)%Q) by (change 0%Q with (inject_Z 0); rewrite <- Zlt_Qlt; lia).
  destruct (ilog2_spec _ Hz) as [He1 He2].
  assert (He : F64.ilog2 (inject_Z z) <= 53).
  { assert (F64.ilog2 (inject_Z z) < 54); [|lia].
    apply pow2_lt_inv. apply Qle_lt_trans with (inject_Z z); [exact He1|].
    rewrite (pow2_Z 54) by lia. rewrite <- Zlt_Qlt. change (2 ^ 54) with (2 * 2 ^ 53). lia. }
  set (q := F64.quantum (inject_Z z)).
  assert (Hq : q <= 1) by (unfold q, F64.quantum; lia).
  destruct (Z_le_gt_dec q 0) as [Hq0|Hq1].
  - apply to_grid_fix with (z * 2 ^ (- q)).
    rewrite inject_Z_mult, <- (pow2_Z (- q)) by lia.
    rewrite <- Qmult_assoc, <- pow2_add. replace (- q + q) with 0 by lia.
    unfold F64.pow2. simpl. ring.
  - assert (Hq' : q = 1) by lia.
    assert (Hz53 : z = 2 ^ 53).
    { assert (2 ^ 53 <= z); [|lia].
      rewrite Zle_Qle, <- (pow2_Z 53) by lia.
      apply Qle_trans with (F64.pow2 (F64.ilog2 (inject_Z z))); [|exact He1].
      apply pow2_le. unfold q, F64.quantum in Hq'. lia. }
    apply to_grid_fix with (2 ^ 52). rewrite Hq', Hz53. reflexivity.
Qed.

Lemma round_Z (z : Z) : Z.abs z <= 2 ^ 53 -> F64.round (inject_Z z) = inject_Z z.
Proof.
  intro H. destruct (Z.lt_trichotomy z 0) as [Hn|[->|Hp]].
  - unfold F64.round.
    replace (Qeq_bool (inject_Z z) 0) with false
      by (symmetry; apply not_true_is_false; intro E; apply Qeq_bool_iff in E;
          unfold Qeq in E; simpl in E; lia).
    replace (Qle_bool 0 (inject_Z z)) with false
      by (symmetry; apply not_true_is_false; intro E; apply Qle_bool_iff in E;
          unfold Qle in E; simpl in E; lia).
    rewrite <- (Qred_inject_Z z) at 2. apply Qred_complete.
    change (- inject_Z z)%Q with (inject_Z (- z)).
    rewrite round_pos_Z by lia.
    rewrite inject_Z_opp. ring.
  - reflexivity.
  - rewrite round_positive by (change 0%Q with (inject_Z 0); rewrite <- Zlt_Qlt; lia).
    apply round_pos_Z. lia.
Qed.

Lemma quantum_compat (x y : Q) : (0 < x)%Q -> (x == y)%Q -> F64.quantum x = F64.quantum y.
Proof. intros Hx E. unfold F64.quantum. rewrite (ilog2_compat x y Hx E). reflexivity. Qed.

Lemma round_pos_compat (x y : Q) :
  (0 < x)%Q -> (x == y)%Q -> F64.round_pos x = F64.round_pos y.
Proof.
  intros Hx E. unfold F64.round_pos. apply Qred_complete.
  rewrite (quantum_compat x y Hx E).
  rewrite (py_round_compat (x / F64.pow2 (F64.quantum y)) (y / F64.pow2 (F64.quantum y)));
    [reflexivity|]. rewrite E. reflexivity.
Qed.

(** Equal numbers round to the same value. *)
Lemma round_compat (x y : Q) : (x == y)%Q -> F64.round x = F64.round y.
Proof.
  intro E. destruct (Q_dec x 0) as [[Hn|Hp]|H0].
  - unfold F64.round.
    assert (Hy : (y < 0)%Q) by (rewrite <- E; exact Hn).
    replace (Qeq_bool x 0) with false
      by (symmetry; apply not_true_is_false; intro F; apply Qeq_bool_iff in F;
          rewrite F in Hn; exact (Qlt_irrefl _ Hn)).
    replace (Qeq_bool y 0) with false
      by (symmetry; apply not_true_is_false; intro F; apply Qeq_bool_iff in F;
          rewrite F in Hy; exact (Qlt_irrefl _ Hy)).
    replace (Qle_bool 0 x) with false
      by (symmetry; apply not_true_is_false; intro F; apply Qle_bool_iff in F;
          exact (Qlt_not_le _ _ Hn F)).
    replace (Qle_bool 0 y) with false
      by (symmetry; apply not_true_is_false; intro F; apply Qle_bool_iff in F;
          exact (Qlt_not_le _ _ Hy F)).
    rewrite (round_pos_compat (- x) (- y)); [reflexivity| |rewrite E; reflexivity].
    apply (Qopp_lt_compat x 0) in Hn. exact Hn.
  - assert (Hy : (0 < y)%Q) by (rewrite <- E; exact Hp).
    rewrite (round_positive x Hp), (round_positive y Hy).
    apply round_pos_compat; assumption.
  - rewrite (round_zero x H0), (round_zero y); [reflexivity|].
    rewrite <- E. exact H0.
Qed.

(** Away from the subnormal range a multiplication by a power of two
    commutes with rounding. *)
Lemma round_pos_scale (x : Q) (k : Z) :
  (0 < x)%Q -> -1022 <= F64.ilog2 x -> -1022 <= F64.ilog2 x + k ->
  (F64.round_pos (x * F64.pow2 k) == F64.round_pos x * F64.pow2 k)%Q.
Proof.
  intros Hx H1 H2.
  destruct (ilog2_spec x Hx) as [He1 He2].
  assert (He : F64.ilog2 (x * F64.pow2 k) = F64.ilog2 x + k).
  { apply ilog2_unique.
    - rewrite pow2_add. apply Qmult_le_compat_r; [exact He1|apply Qlt_le_weak, pow2_pos].
    - replace (F64.ilog2 x + k + 1) with (F64.ilog2 x + 1 + k) by lia.
      rewrite pow2_add. apply Qmult_lt_r; [apply pow2_pos|exact He2]. }
  rewrite !round_pos_grid. unfold F64.quantum. rewrite He.
  replace (Z.max (F64.ilog2 x + k - 52) (-1074)) with (F64.ilog2 x - 52 + k) by lia.
  replace (Z.max (F64.ilog2 x - 52) (-1074)) with (F64.ilog2 x - 52) by lia.
  unfold to_grid.
  rewrite (py_round_compat (x * F64.pow2 k / F64.pow2 (F64.ilog2 x - 52 + k))
                           (x / F64.pow2 (F64.ilog2 x - 52))).
  - rewrite pow2_add. ring.
  - rewrite pow2_add. field. repeat split; apply pow2_nonzero.
Qed.

End RoundingProperties.

(** ** The peak detector *)

Section PeakProperties.

Lemma compute_ratios_length (vals : list Q) :
  length (Peak.compute_ratios vals) = Nat.max 1 (length vals).
Proof.
  destruct vals as [|v0 t]; [reflexivity|].
  simpl. f_equal. revert v0. induction t as [|c t IH]; intro v0; simpl; auto.
Qed.

Lemma ratio_loop_nth (t : list Q) : forall v0 i last current,
  nth_error (v0 :: t) i = Some last -> nth_error (v0 :: t) (S i) = Some current ->
  nth_error (Peak.ratio_loop v0 t) i
  = Some (if Num.eqb current 0 then current else Num.div last current).
Proof.
  induction t as [|c t IH]; intros v0 i last current Hl Hc.
  - destruct i; simpl in Hc; [discriminate|destruct i; discriminate].
  - destruct i as [|i].
    + cbn [nth_error] in Hl, Hc. injection Hl as <-. injection Hc as <-. reflexivity.
    + simpl in Hl. simpl. apply IH; assumption.
Qed.

(** [ratio[0] = 0], and [ratio[i]] is [vals[i-1] / vals[i]], or [vals[i]]
    itself when that is zero. *)
Lemma compute_ratios_spec (vals : list Q) :
  nth_error (Peak.compute_ratios vals) 0 = Some 0%Q /\
  forall i last current,
    nth_error vals i = Some last -> nth_error vals (S i) = Some current ->
    nth_error (Peak.compute_ratios vals) (S i)
    = Some (if Num.eqb current 0 then current else Num.div last current).
Proof.
  split; [reflexivity|].
  intros i last current Hl Hc.
  destruct vals as [|v0 t]; [destruct i; discriminate|].
  simpl. apply ratio_loop_nth; assumption.
Qed.

(** *** Separation of the accumulated set *)

Lemma within_20_false (c r : nat) :
  Peak.within_20 c r = false -> 20 <= Z.abs (Z.of_nat c - Z.of_nat r).
Proof.
  unfold Peak.within_20. rewrite andb_false_iff, !Z.ltb_ge. lia.
Qed.

Lemma separated_nil : separated [].
Proof. intros i j a b _ Hi. destruct i; discriminate. Qed.

Lemma separated_snoc (l : list nat) (c : nat) :
  separated l -> existsb (Peak.within_20 c) l = false -> separated (l ++ [c]).
Proof.
  intros Hsep Hex i j a b Hij Hi Hj.
  assert (Hfar : forall r, In r l -> 20 <= Z.abs (Z.of_nat c - Z.of_nat r)).
  { intros r Hr. apply within_20_false.
    destruct (Peak.within_20 c r) eqn:E; [|reflexivity].
    assert (existsb (Peak.within_20 c) l = true) by (apply existsb_exists; eauto).
    congruence. }
  assert (Hlast : forall k x, nth_error (l ++ [c]) k = Some x ->
                              (k < length l)%nat \/ (k = length l /\ x = c)).
  { intros k x Hk.
    assert (k < length (l ++ [c]))%nat by (apply nth_error_Some; congruence).
    rewrite length_app in H; simpl in H.
    destruct (Nat.lt_ge_cases k (length l)) as [Hlt|Hge]; [left; exact Hlt|right].
    assert (k = length l) by lia. subst k. split; [reflexivity|].
    rewrite nth_error_app2, Nat.sub_diag in Hk by lia. simpl in Hk. congruence. }
  destruct (Hlast _ _ Hi) as [Hi'|[Hi' Ha]], (Hlast _ _ Hj) as [Hj'|[Hj' Hb]].
  - rewrite nth_error_app1 in Hi, Hj by assumption. eapply Hsep; eauto.
  - subst b. rewrite nth_error_app1 in Hi by assumption.
    apply nth_error_In in Hi. specialize (Hfar _ Hi). lia.
  - subst a. rewrite nth_error_app1 in Hj by assumption.
    apply nth_error_In in Hj. exact (Hfar _ Hj).
  - lia.
Qed.

Lemma add_resolution_separated (l : list nat) (c : nat) :
  separated l -> separated (Peak.add_resolution l c).
Proof.
  intro H. unfold Peak.add_resolution.
  destruct (existsb (Peak.within_20 c) l) eqn:E; [exact H|].
  apply separated_snoc; assumption.
Qed.

Lemma add_differences_separated (ratios diffs : list Q) : forall l,
  separated l -> separated (fst (Peak.add_differences ratios diffs l)).
Proof.
  induction diffs as [|d t IH]; intros l H; simpl; [exact H|].
  destruct (index ratios d); simpl; [exact H|].
  apply IH, add_resolution_separated, H.
Qed.

Lemma analyze_results_fst (steps : Z) (res : list nat) (vals : list Q) (offset : Z) :
  fst (Peak.analyze_results steps res vals offset)
  = fst (Peak.add_differences (Peak.compute_ratios vals)
           (Peak.differences (sorted_desc (Peak.compute_ratios vals))) res).
Proof.
  unfold Peak.analyze_results.
  destruct (Peak.add_differences _ _ res); reflexivity.
Qed.

Lemma analyze_results_separated (steps : Z) (res : list nat) (vals : list Q) (offset : Z) :
  separated res -> separated (fst (Peak.analyze_results steps res vals offset)).
Proof.
  intro H. rewrite analyze_results_fst. apply add_differences_separated, H.
Qed.

Lemma after_calls_separated (calls : list (Z * list Q * Z)) : forall res,
  separated res -> separated (after_calls res calls).
Proof.
  induction calls as [|c t IH]; intros res H; simpl; [exact H|].
  apply IH, analyze_results_separated, H.
Qed.

(** *** [np.argmax] and indexing by a list *)

Lemma argmax_from_spec (l : list Q) : forall pre best besti,
  nth_error pre besti = Some best ->
  (forall x, In x pre -> (x <= best)%Q) ->
  exists top,
    nth_error (pre ++ l) (argmax_from best besti (length pre) l) = Some top /\
    forall x, In x (pre ++ l) -> (x <= top)%Q.
Proof.
  induction l as [|x t IH]; intros pre best besti Hb Hmax.
  - exists best. rewrite app_nil_r. split; assumption.
  - assert (Hlen : length (pre ++ [x]) = S (length pre))
      by (rewrite length_app; simpl; lia).
    replace (pre ++ x :: t) with ((pre ++ [x]) ++ t)
      by (rewrite <- app_assoc; reflexivity).
    simpl. destruct (Num.ltb best x) eqn:E.
    + rewrite <- Hlen. apply IH.
      * rewrite nth_error_app2, Nat.sub_diag by lia. reflexivity.
      * intros y Hy. apply in_app_or in Hy. destruct Hy as [Hy|[<-|[]]].
        -- apply ltb_lt in E. apply Qle_trans with best; [auto|apply Qlt_le_weak, E].
        -- apply Qle_refl.
    + rewrite <- Hlen. apply IH.
      * rewrite nth_error_app1; [assumption|].
        apply nth_error_Some. congruence.
      * intros y Hy. apply in_app_or in Hy. destruct Hy as [Hy|[<-|[]]].
        -- auto.
        -- apply ltb_ge, E.
Qed.

Lemma np_argmax_spec (l : list Q) (k : nat) :
  np_argmax l = inr k ->
  exists top, nth_error l k = Some top /\ forall x, In x l -> (x <= top)%Q.
Proof.
  destruct l as [|x t]; [discriminate|].
  intro H. injection H as <-.
  apply (argmax_from_spec t [x] x 0%nat); [reflexivity|].
  intros y [<-|[]]. apply Qle_refl.
Qed.

Lemma np_argmax_ok (l : list Q) : l <> [] -> exists k, np_argmax l = inr k.
Proof. destruct l; [congruence|]. intros _. eexists. reflexivity. Qed.

Lemma take_at_spec (a : list Q) : forall idx picked,
  take_at a idx = inr picked ->
  length picked = length idx /\
  forall j r, nth_error idx j = Some r -> nth_error picked j = nth_error a r.
Proof.
  induction idx as [|i t IH]; intros picked H.
  - injection H as <-. split; [reflexivity|]. intros [|j] r Hj; discriminate.
  - simpl in H. unfold getitem in H.
    destruct (nth_error a i) as [x|] eqn:Ei; [|discriminate]. simpl in H.
    destruct (take_at a t) as [e|rest] eqn:Et; [discriminate|]. simpl in H.
    injection H as <-. destruct (IH rest eq_refl) as [Hlen Hnth].
    split; [simpl; congruence|].
    intros [|j] r Hj; simpl in Hj.
    + injection Hj as <-. simpl. symmetry. exact Ei.
    + simpl. apply Hnth, Hj.
Qed.

Lemma take_at_ok (a : list Q) : forall idx,
  Forall (fun r => (r < length a)%nat) idx -> exists picked, take_at a idx = inr picked.
Proof.
  induction idx as [|i t IH]; intro H.
  - eexists. reflexivity.
  - inversion H as [|? ? Hi Ht]; subst.
    destruct (IH Ht) as [rest Hrest].
    destruct (nth_error a i) as [x|] eqn:Ei.
    + exists (x :: rest). simpl. unfold getitem. rewrite Ei. simpl. rewrite Hrest. reflexivity.
    + apply nth_error_None in Ei. lia.
Qed.

(** What a successful analysis reports: the entry of the accumulated set at
    [bob_idx] has the largest ratio of the set and gives the resolution; the
    error value is the entry of [vals] at [bob_idx]. *)
Lemma analyze_results_best (steps : Z) (res : list nat) (vals : list Q) (offset : Z)
      (res' : list nat) (a : Peak.analysis) :
  Peak.analyze_results steps res vals offset = (res', inr a) ->
  exists r top,
    nth_error res' (Peak.a_bob_idx a) = Some r /\
    Peak.a_bob_resolution a = Z.of_nat r * steps + offset /\
    nth_error (Peak.compute_ratios vals) r = Some top /\
    (forall r' x, In r' res' -> nth_error (Peak.compute_ratios vals) r' = Some x -> (x <= top)%Q) /\
    nth_error vals (Peak.a_bob_idx a) = Some (Peak.a_bob a).
Proof.
  unfold Peak.analyze_results.
  destruct (Peak.add_differences _ _ res) as [l added].
  intro H. injection H as -> H.
  destruct added as [e|[]]; [discriminate|]. simpl in H.
  destruct (take_at _ res') as [e|picked] eqn:Et; [discriminate|]. simpl in H.
  destruct (np_argmax picked) as [e|k] eqn:Ek; [discriminate|]. simpl in H.
  unfold getitem in H.
  destruct (nth_error vals k) as [bob|] eqn:Ev; [|discriminate]. simpl in H.
  destruct (nth_error res' k) as [r|] eqn:Er; [|discriminate]. simpl in H.
  injection H as <-. simpl.
  destruct (take_at_spec _ _ _ Et) as [Hlen Hnth].
  destruct (np_argmax_spec _ _ Ek) as [top [Htop Hmax]].
  exists r, top. repeat split; try assumption.
  - rewrite <- (Hnth _ _ Er). exact Htop.
  - intros r' x Hin Hx. apply In_nth_error in Hin. destruct Hin as [j Hj].
    apply Hmax. apply nth_error_In with j. rewrite (Hnth _ _ Hj). exact Hx.
Qed.

(** *** Curves without a ratio above one *)

Lemma insert_desc_In (x : Q) (l : list Q) (y : Q) :
  In y (insert_desc x l) <-> y = x \/ In y l.
Proof.
  induction l as [|z t IH]; simpl; [intuition|].
  destruct (Num.ltb z x); simpl; [intuition|]. rewrite IH. intuition.
Qed.

Lemma insert_desc_descending (x : Q) (l : list Q) :
  descending l -> descending (insert_desc x l).
Proof.
  induction 1 as [|z t Ht IH Hz]; simpl.
  - constructor; constructor.
  - destruct (Num.ltb z x) eqn:E.
    + constructor; [constructor; assumption|].
      apply ltb_lt in E. constructor; [apply Qlt_le_weak, E|].
      rewrite Forall_forall in *. intros y Hy.
      apply Qle_trans with z; [auto|apply Qlt_le_weak, E].
    + constructor; [assumption|].
      rewrite Forall_forall in *. intros y Hy.
      apply insert_desc_In in Hy. destruct Hy as [->|Hy]; [apply ltb_ge, E|auto].
Qed.

Lemma sorted_desc_spec (l : list Q) :
  descending (sorted_desc l) /\ forall y, In y (sorted_desc l) <-> In y l.
Proof.
  unfold sorted_desc.
  assert (G : forall acc, descending acc ->
            descending (fold_left (fun acc x => insert_desc x acc) l acc) /\
            forall y, In y (fold_left (fun acc x => insert_desc x acc) l acc)
                      <-> In y acc \/ In y l).
  { induction l as [|x t IH]; intros acc Hacc; simpl.
    - split; [assumption|]. intuition.
    - destruct (IH (insert_desc x acc) (insert_desc_descending _ _ Hacc)) as [Hd Hin].
      split; [assumption|]. intro y. rewrite Hin, insert_desc_In. intuition. }
  destruct (G [] (SSorted_nil _)) as [Hd Hin].
  split; [assumption|]. intro y. rewrite Hin. simpl. intuition.
Qed.

Lemma filter_none {A : Type} (f : A -> bool) (l : list A) :
  (forall y, In y l -> f y = false) -> filter f l = [].
Proof.
  induction l as [|x t IH]; intro H; simpl; [reflexivity|].
  rewrite (H x (or_introl eq_refl)). apply IH. intros y Hy. apply H. right. exact Hy.
Qed.

Lemma differences_flat (vals : list Q) :
  no_ratio_above_one vals = true ->
  Peak.differences (sorted_desc (Peak.compute_ratios vals)) = [].
Proof.
  intro Hflat. unfold no_ratio_above_one in Hflat. rewrite forallb_forall in Hflat.
  destruct (sorted_desc_spec (Peak.compute_ratios vals)) as [Hd Hin].
  unfold Peak.differences.
  destruct (sorted_desc (Peak.compute_ratios vals)) as [|top t] eqn:Es; [reflexivity|].
  rewrite filter_none; [reflexivity|].
  intros y Hy. apply ltb_ge.
  assert (Htop : (top <= 1)%Q).
  { apply Qle_bool_iff, Hflat, Hin. left. reflexivity. }
  assert (Hy' : (y <= top)%Q).
  { destruct Hy as [<-|Hy]; [apply Qle_refl|].
    inversion Hd as [|? ? _ Hall]; subst. rewrite Forall_forall in Hall. auto. }
  unfold Peak.threshold, Num.mul, Num.sub. rewrite !Qred_correct.
  clear - Htop Hy'. unfold Qle in *. destruct y as [yn yd], top as [tn td].
  unfold Qle, Qmult, Qminus, Qplus, Qopp in *. simpl in *. nia.
Qed.

End PeakProperties.

(** ** The evaluation scheduler *)

Section SortedPairs.

Variable f : nat -> Q.

Lemma insert_asc_perm (x : nat * Q) (l : list (nat * Q)) :
  Permutation (Scheduler.insert_asc x l) (x :: l).
Proof.
  induction l as [|y t IH]; simpl; [reflexivity|].
  destruct (Scheduler.pair_ltb x y); [reflexivity|].
  rewrite IH. apply perm_swap.
Qed.

Lemma sorted_perm (l : list (nat * Q)) : Permutation (Scheduler.sorted l) l.
Proof.
  unfold Scheduler.sorted.
  assert (G : forall acc,
            Permutation (fold_left (fun acc x => Scheduler.insert_asc x acc) l acc) (acc ++ l)).
  { induction l as [|x t IH]; intro acc; simpl.
    - rewrite app_nil_r. reflexivity.
    - rewrite IH, insert_asc_perm. apply Permutation_middle. }
  apply (G []).
Qed.

Lemma insert_asc_keys (x : nat * Q) (l : list (nat * Q)) :
  StronglySorted lt (map fst l) -> ~ In (fst x) (map fst l) ->
  StronglySorted lt (map fst (Scheduler.insert_asc x l)).
Proof.
  induction l as [|y t IH]; intros Hs Hx; simpl.
  - constructor; constructor.
  - simpl in Hs, Hx. inversion Hs as [|? ? Ht Hall]; subst.
    assert (Hne : fst x <> fst y) by intuition.
    unfold Scheduler.pair_ltb.
    replace (fst x =? fst y)%nat with false by (symmetry; apply Nat.eqb_neq, Hne).
    simpl. rewrite orb_false_r.
    destruct (fst x <? fst y)%nat eqn:E; simpl.
    + apply Nat.ltb_lt in E. constructor; [assumption|].
      constructor; [exact E|].
      rewrite Forall_forall in *. intros k Hk. specialize (Hall k Hk). lia.
    + apply Nat.ltb_ge in E. constructor.
      * apply IH; [assumption|intuition].
      * rewrite (Permutation_map fst (insert_asc_perm x t)). simpl.
        constructor; [lia|assumption].
Qed.

Lemma sorted_keys (l : list (nat * Q)) :
  NoDup (map fst l) -> StronglySorted lt (map fst (Scheduler.sorted l)).
Proof.
  unfold Scheduler.sorted.
  assert (G : forall acc, StronglySorted lt (map fst acc) -> NoDup (map fst (acc ++ l)) ->
            StronglySorted lt
              (map fst (fold_left (fun acc x => Scheduler.insert_asc x acc) l acc))).
  { induction l as [|x t IH]; intros acc Hs Hn; simpl; [assumption|].
    assert (Hp : Permutation (map fst (Scheduler.insert_asc x acc ++ t))
                             (map fst (acc ++ x :: t))).
    { apply Permutation_map. rewrite insert_asc_perm. apply Permutation_middle. }
    apply IH.
    - apply insert_asc_keys; [assumption|].
      rewrite map_app in Hn. simpl in Hn. apply NoDup_remove_2 in Hn.
      intro Hin. apply Hn, in_or_app. left. exact Hin.
    - apply Permutation_NoDup with (map fst (acc ++ x :: t)); [symmetry; exact Hp|assumption]. }
  intro Hn. apply G; [constructor|exact Hn].
Qed.

Lemma sorted_lt_unique : forall l1 l2 : list nat,
  StronglySorted lt l1 -> StronglySorted lt l2 -> Permutation l1 l2 -> l1 = l2.
Proof.
  induction l1 as [|a t1 IH]; intros l2 H1 H2 Hp.
  - apply Permutation_nil in Hp. congruence.
  - destruct l2 as [|b t2]; [symmetry in Hp; apply Permutation_nil in Hp; discriminate|].
    inversion H1 as [|? ? Ht1 Ha]; subst. inversion H2 as [|? ? Ht2 Hb]; subst.
    rewrite Forall_forall in Ha, Hb.
    assert (a = b).
    { assert (Hab : In a (b :: t2)) by (apply (Permutation_in _ Hp); left; reflexivity).
      assert (Hba : In b (a :: t1))
        by (apply (Permutation_in _ (Permutation_sym Hp)); left; reflexivity).
      destruct Hab as [->|Hab]; [reflexivity|].
      destruct Hba as [->|Hba]; [reflexivity|].
      specialize (Ha _ Hba). specialize (Hb _ Hab). lia. }
    subst b. f_equal. apply IH; try assumption.
    apply Permutation_cons_inv with a. exact Hp.
Qed.

Lemma seq_sorted (n : nat) : forall a, StronglySorted lt (seq a n).
Proof.
  induction n as [|n IH]; intro a; simpl; constructor; [apply IH|].
  apply Forall_forall. intros k Hk. apply in_seq in Hk. lia.
Qed.

Lemma faithful_map (l : list (nat * Q)) : faithful f l -> map snd l = map f (map fst l).
Proof.
  induction 1 as [|p t Hp _ IH]; simpl; [reflexivity|]. rewrite Hp, IH. reflexivity.
Qed.

(** Sorting the collected pairs gives the curve in candidate order. *)
Lemma sorted_curve (l : list (nat * Q)) (m : nat) :
  Permutation (map fst l) (seq 0 m) -> faithful f l ->
  map snd (Scheduler.sorted l) = map f (seq 0 m).
Proof.
  intros Hp Hf.
  assert (Hkeys : map fst (Scheduler.sorted l) = seq 0 m).
  { apply sorted_lt_unique.
    - apply sorted_keys. apply Permutation_NoDup with (seq 0 m);
        [symmetry; exact Hp|apply seq_NoDup].
    - apply seq_sorted.
    - rewrite (Permutation_map fst (sorted_perm l)). exact Hp. }
  rewrite faithful_map, Hkeys; [reflexivity|].
  unfold faithful. rewrite (sorted_perm l). exact Hf.
Qed.

End SortedPairs.

Section SchedulerProperties.

Variable num_threads : nat.
Variable completed : nat -> list nat -> list nat.
Variable f : nat -> Q.

Local Abbreviation cap := (Scheduler.cap num_threads).
Local Abbreviation named := (Scheduler.named completed).
Local Abbreviation wait_first_completed := (Scheduler.wait_first_completed completed).
Local Abbreviation wait_all := (Scheduler.wait_all completed).
Local Abbreviation collect := (Scheduler.collect f).
Local Abbreviation drain := (Scheduler.drain num_threads completed f).
Local Abbreviation issue := (Scheduler.issue num_threads completed f).
Local Abbreviation issue_all := (Scheduler.issue_all num_threads completed f).
Local Abbreviation finish := (Scheduler.finish completed f).
Local Abbreviation schedule := (Scheduler.schedule num_threads completed f).

Lemma mem_In (i : nat) (l : list nat) : Scheduler.mem i l = true <-> In i l.
Proof.
  unfold Scheduler.mem. rewrite existsb_exists. split.
  - intros [x [Hx E]]. apply Nat.eqb_eq in E. subst. exact Hx.
  - intro H. exists i. split; [exact H|apply Nat.eqb_refl].
Qed.

Lemma named_NoDup (clk : nat) (p : list nat) : NoDup (named clk p).
Proof. apply NoDup_filter, NoDup_nodup. Qed.

Lemma named_incl (clk : nat) (p : list nat) : incl (named clk p) p.
Proof. intros x Hx. apply filter_In in Hx. apply mem_In, Hx. Qed.

Lemma without_In (done p : list nat) (x : nat) :
  In x (Scheduler.without done p) <-> In x p /\ ~ In x done.
Proof.
  unfold Scheduler.without. rewrite filter_In, negb_true_iff.
  pose proof (mem_In x done) as Hm.
  destruct (Scheduler.mem x done); intuition congruence.
Qed.

Lemma without_length (done p : list nat) :
  (length (Scheduler.without done p) <= length p)%nat.
Proof. apply filter_length_le. Qed.

Lemma without_shorter (done p : list nat) (x : nat) :
  In x done -> In x p -> (length (Scheduler.without done p) < length p)%nat.
Proof.
  intros Hd. induction p as [|y t IH]; intros Hp; [destruct Hp|].
  unfold Scheduler.without in *. simpl.
  destruct Hp as [->|Hp].
  - apply mem_In in Hd. rewrite Hd. simpl.
    pose proof (filter_length_le (fun i => negb (Scheduler.mem i done)) t). lia.
  - specialize (IH Hp). destruct (negb (Scheduler.mem y done)); simpl; lia.
Qed.

Lemma split_Permutation (done p : list nat) :
  NoDup p -> NoDup done -> incl done p ->
  Permutation p (done ++ Scheduler.without done p).
Proof.
  intros Hp Hd Hi. apply NoDup_Permutation; [assumption| |].
  - apply NoDup_app; [assumption|apply NoDup_filter, Hp|].
    intros a Ha Hw. apply without_In in Hw. tauto.
  - intro x. rewrite in_app_iff, without_In.
    destruct (in_dec Nat.eq_dec x done) as [Hx|Hx]; intuition.
Qed.

(** What a wait for the first completion reports. *)
Lemma wait_first_completed_spec (clk : nat) (p : list nat) :
  p <> [] ->
  let done := fst (wait_first_completed clk p) in
  snd (wait_first_completed clk p) = Scheduler.without done p /\
  done <> [] /\ NoDup done /\ incl done p.
Proof.
  intro Hp. unfold Scheduler.wait_first_completed. simpl.
  split; [reflexivity|].
  pose proof (named_NoDup clk p) as Hn. pose proof (named_incl clk p) as Hi.
  destruct (named clk p) as [|x l].
  - destruct p as [|oldest t]; [congruence|].
    split; [discriminate|]. split; [repeat constructor; intros []|].
    intros y [<-|[]]. left. reflexivity.
  - split; [discriminate|]. split; assumption.
Qed.

Lemma collect_fst (done : list nat) : map fst (collect done) = done.
Proof.
  unfold Scheduler.collect. rewrite map_map. simpl. apply map_id.
Qed.

Lemma collect_faithful (done : list nat) : faithful f (collect done).
Proof.
  unfold faithful, Scheduler.collect. apply Forall_forall.
  intros p Hp. apply in_map_iff in Hp. destruct Hp as [i [<- _]]. reflexivity.
Qed.

Lemma consistent_pending_NoDup (k : nat) (st : Scheduler.state) :
  consistent f k st -> NoDup (Scheduler.tasks_pending st).
Proof.
  intros [Hp _]. apply NoDup_app_remove_r with (map fst (Scheduler.vals st)).
  apply Permutation_NoDup with (seq 0 k); [symmetry; exact Hp|apply seq_NoDup].
Qed.

Lemma cap_pending_nonempty (p : list nat) : (cap <=? length p)%nat = true -> p <> [].
Proof.
  intros H ->. apply Nat.leb_le in H. unfold Scheduler.cap in H. simpl in H. lia.
Qed.

Lemma drain_S (fuel : nat) (st : Scheduler.state) :
  drain (S fuel) st
  = if (cap <=? length (Scheduler.tasks_pending st))%nat then drain fuel (after_wait completed f st)
    else st.
Proof. reflexivity. Qed.

Lemma drain_exit (fuel : nat) (st : Scheduler.state) :
  (cap <=? length (Scheduler.tasks_pending st))%nat = false -> drain fuel st = st.
Proof. intro E. destruct fuel; simpl; rewrite E; reflexivity. Qed.

Lemma after_wait_consistent (k : nat) (st : Scheduler.state) :
  Scheduler.tasks_pending st <> [] -> consistent f k st -> consistent f k (after_wait completed f st).
Proof.
  intros Hne Hc.
  pose proof (wait_first_completed_spec (Scheduler.clock st) _ Hne) as [Hrest [_ [Hnd Hincl]]].
  unfold after_wait.
  destruct (wait_first_completed (Scheduler.clock st) (Scheduler.tasks_pending st))
    as [done rest]. simpl in Hrest, Hnd, Hincl. subst rest.
  pose proof (consistent_pending_NoDup _ _ Hc) as Hp'.
  destruct Hc as [Hp Hf]. split; simpl.
  - rewrite map_app, collect_fst.
    rewrite (Permutation_app_comm (map fst (Scheduler.vals st)) done), app_assoc.
    rewrite (Permutation_app_comm (Scheduler.without done _) done).
    rewrite <- split_Permutation; assumption.
  - apply Forall_app. split; [assumption|apply collect_faithful].
Qed.

Lemma drain_consistent (k : nat) : forall fuel st,
  consistent f k st -> consistent f k (drain fuel st).
Proof.
  induction fuel as [|fuel IH]; intros st Hc.
  - simpl. destruct (cap <=? _)%nat; assumption.
  - rewrite drain_S.
    destruct (cap <=? length (Scheduler.tasks_pending st))%nat eqn:E; [|assumption].
    apply IH, after_wait_consistent; [apply cap_pending_nonempty, E|assumption].
Qed.

Lemma issue_eq (st : Scheduler.state) (k : nat) :
  issue st k = drain (length (Scheduler.tasks_pending st ++ [k])) (added st k).
Proof. reflexivity. Qed.

Lemma added_consistent (k : nat) (st : Scheduler.state) :
  consistent f k st -> consistent f (S k) (added st k).
Proof.
  intros [Hp Hf].
  split; cbn [added Scheduler.tasks_pending Scheduler.vals]; [|assumption].
  rewrite seq_S. cbn [Nat.add]. rewrite <- Hp.
  rewrite <- app_assoc. rewrite <- app_assoc.
  apply Permutation_app_head. apply Permutation_app_comm.
Qed.

Lemma issue_consistent (k : nat) (st : Scheduler.state) :
  consistent f k st -> consistent f (S k) (issue st k).
Proof.
  intro Hc. rewrite issue_eq. apply drain_consistent, added_consistent, Hc.
Qed.

Lemma fold_issue_consistent (m : nat) : forall st,
  consistent f 0 st -> consistent f m (fold_left issue (seq 0 m) st).
Proof.
  induction m as [|m IH]; intros st Hc; [exact Hc|].
  rewrite seq_S, fold_left_app. simpl. apply issue_consistent, IH, Hc.
Qed.

Lemma issue_all_consistent (clk m : nat) : consistent f m (issue_all clk m).
Proof.
  apply fold_issue_consistent. split; simpl; constructor.
Qed.

Lemma wait_all_spec (clk : nat) (p done : list nat) :
  NoDup p -> wait_all clk p = inr done -> Permutation p done.
Proof.
  intros Hp H.
  assert (E : done = named clk p ++ Scheduler.without (named clk p) p).
  { unfold Scheduler.wait_all in H. destruct p; [discriminate|]. injection H as <-. reflexivity. }
  rewrite E. apply split_Permutation; [assumption|apply named_NoDup|apply named_incl].
Qed.

(** A finished scan: the curve holds the value of candidate [i] at [i], and
    the collected pairs name every candidate once. *)
Lemma finish_spec (m : nat) (st st' : Scheduler.state) (curve : list Q) :
  consistent f m st -> finish st = (st', inr curve) ->
  curve = map f (seq 0 m) /\ Permutation (map fst (Scheduler.vals st')) (seq 0 m).
Proof.
  intros Hc H. unfold Scheduler.finish in H.
  destruct (wait_all (Scheduler.clock st) (Scheduler.tasks_pending st)) as [e|done] eqn:Ew;
    [discriminate|].
  injection H as <- <-. simpl.
  apply wait_all_spec in Ew; [|apply consistent_pending_NoDup with m, Hc].
  destruct Hc as [Hp Hf].
  assert (Hkeys : Permutation (map fst (Scheduler.vals st ++ collect done)) (seq 0 m)).
  { rewrite map_app, collect_fst, <- Ew, Permutation_app_comm. exact Hp. }
  split; [|exact Hkeys].
  apply sorted_curve; [exact Hkeys|].
  apply Forall_app. split; [assumption|apply collect_faithful].
Qed.

(** Whenever the scheduler returns, it returns the curve in candidate order,
    whatever the completion behaviour. *)
Lemma schedule_curve (clk m : nat) (st : Scheduler.state) (curve : list Q) :
  schedule clk m = (st, inr curve) ->
  curve = map f (seq 0 m) /\ Permutation (map fst (Scheduler.vals st)) (seq 0 m).
Proof.
  apply finish_spec, issue_all_consistent.
Qed.

(** The scheduler returns when the loop ends with a request in flight. *)
Lemma finish_returns (st : Scheduler.state) :
  Scheduler.tasks_pending st <> [] -> exists st' curve, finish st = (st', inr curve).
Proof.
  intro H. unfold Scheduler.finish, Scheduler.wait_all.
  destruct (Scheduler.tasks_pending st); [congruence|]. eexists. eexists. reflexivity.
Qed.

(** *** The number of requests in flight *)

Lemma after_wait_length (st : Scheduler.state) :
  (length (Scheduler.tasks_pending (after_wait completed f st)) <= length (Scheduler.tasks_pending st))%nat.
Proof. apply without_length. Qed.

Lemma after_wait_shorter (st : Scheduler.state) :
  Scheduler.tasks_pending st <> [] ->
  (length (Scheduler.tasks_pending (after_wait completed f st)) < length (Scheduler.tasks_pending st))%nat.
Proof.
  intro Hne.
  pose proof (wait_first_completed_spec (Scheduler.clock st) _ Hne) as [Hrest [Hd [_ Hincl]]].
  unfold after_wait.
  destruct (wait_first_completed (Scheduler.clock st) (Scheduler.tasks_pending st))
    as [done rest]. simpl in *. subst rest.
  destruct done as [|x l]; [congruence|].
  apply without_shorter with x; [left; reflexivity|apply Hincl; left; reflexivity].
Qed.

Lemma drain_in_flight : forall fuel st,
  Forall (fun n => (n <= cap)%nat) (Scheduler.in_flight st) ->
  (length (Scheduler.tasks_pending st) <= cap)%nat ->
  Forall (fun n => (n <= cap)%nat) (Scheduler.in_flight (drain fuel st)).
Proof.
  induction fuel as [|fuel IH]; intros st Hlog Hlen.
  - simpl. destruct (cap <=? _)%nat; assumption.
  - rewrite drain_S.
    destruct (cap <=? length (Scheduler.tasks_pending st))%nat eqn:E; [|assumption].
    pose proof (after_wait_length st) as Hw.
    apply IH; [|lia].
    unfold after_wait in *. simpl in *.
    apply Forall_app. split; [assumption|]. constructor; [lia|constructor].
Qed.

Lemma drain_below_cap : forall fuel st,
  (length (Scheduler.tasks_pending st) <= fuel)%nat ->
  (length (Scheduler.tasks_pending (drain fuel st)) < cap)%nat.
Proof.
  induction fuel as [|fuel IH]; intros st Hlen.
  - simpl. destruct (cap <=? length (Scheduler.tasks_pending st))%nat eqn:E.
    + apply Nat.leb_le in E. unfold Scheduler.cap in *. lia.
    + apply Nat.leb_gt in E. exact E.
  - rewrite drain_S.
    destruct (cap <=? length (Scheduler.tasks_pending st))%nat eqn:E.
    + apply IH.
      pose proof (after_wait_shorter st (cap_pending_nonempty _ E)). lia.
    + apply Nat.leb_gt in E. exact E.
Qed.

Lemma issue_bounded (st : Scheduler.state) (k : nat) : bounded num_threads st -> bounded num_threads (issue st k).
Proof.
  intros [Hlog Hlen]. unfold Scheduler.issue. split.
  - apply drain_in_flight; simpl.
    + apply Forall_app. split; [assumption|].
      constructor; [|constructor]. rewrite length_app. simpl. lia.
    + rewrite length_app. simpl. lia.
  - apply drain_below_cap. simpl. lia.
Qed.

Lemma fold_issue_bounded (l : list nat) : forall st,
  bounded num_threads st -> bounded num_threads (fold_left issue l st).
Proof.
  induction l as [|k t IH]; intros st H; simpl; [exact H|].
  apply IH, issue_bounded, H.
Qed.

Lemma finish_in_flight (st : Scheduler.state) :
  Scheduler.in_flight (fst (finish st)) = Scheduler.in_flight st.
Proof.
  unfold Scheduler.finish.
  destruct (wait_all (Scheduler.clock st) (Scheduler.tasks_pending st)); reflexivity.
Qed.

Lemma schedule_bounded (clk m : nat) :
  Forall (fun n => (n <= cap)%nat) (Scheduler.in_flight (fst (schedule clk m))).
Proof.
  unfold Scheduler.schedule. rewrite finish_in_flight.
  apply fold_issue_bounded. split; simpl; [constructor|].
  unfold Scheduler.cap. lia.
Qed.

(** *** Completion one request at a time *)

Lemma after_wait_one (k : nat) (st : Scheduler.state) :
  one_at_a_time completed -> consistent f k st -> Scheduler.tasks_pending st <> [] ->
  length (Scheduler.tasks_pending st) = S (length (Scheduler.tasks_pending (after_wait completed f st))).
Proof.
  intros Hone Hc Hne.
  pose proof (wait_first_completed_spec (Scheduler.clock st) _ Hne) as [Hrest [Hd [Hnd Hincl]]].
  assert (Hlen : length (fst (wait_first_completed (Scheduler.clock st)
                                (Scheduler.tasks_pending st))) = 1%nat).
  { unfold Scheduler.wait_first_completed. simpl.
    specialize (Hone (Scheduler.clock st) (Scheduler.tasks_pending st)).
    destruct (named (Scheduler.clock st) (Scheduler.tasks_pending st)) as [|x [|y l]].
    - destruct (Scheduler.tasks_pending st); [congruence|reflexivity].
    - reflexivity.
    - simpl in Hone. lia. }
  unfold after_wait.
  destruct (wait_first_completed (Scheduler.clock st) (Scheduler.tasks_pending st))
    as [done rest]. simpl in *. subst rest.
  rewrite (Permutation_length
             (split_Permutation done _ (consistent_pending_NoDup _ _ Hc) Hnd Hincl)) at 1.
  rewrite length_app, Hlen. reflexivity.
Qed.

Lemma drain_nonempty (k : nat) : one_at_a_time completed -> forall fuel st,
  consistent f k st -> Scheduler.tasks_pending st <> [] ->
  Scheduler.tasks_pending (drain fuel st) <> [].
Proof.
  intro Hone. induction fuel as [|fuel IH]; intros st Hc Hne.
  - simpl. destruct (cap <=? _)%nat; assumption.
  - rewrite drain_S.
    destruct (cap <=? length (Scheduler.tasks_pending st))%nat eqn:E; [|assumption].
    apply IH; [apply after_wait_consistent; assumption|].
    pose proof (after_wait_one k st Hone Hc Hne) as Hlen.
    apply Nat.leb_le in E. unfold Scheduler.cap in E.
    intro Hnil. rewrite Hnil in Hlen. simpl in Hlen. lia.
Qed.

(** One request at a time, the scheduler returns the curve of every clip
    that has a frame. *)
Lemma schedule_returns (clk m : nat) :
  one_at_a_time completed -> (0 < m)%nat ->
  exists st, schedule clk m = (st, inr (map f (seq 0 m))).
Proof.
  intros Hone Hm.
  assert (Hne : Scheduler.tasks_pending (issue_all clk m) <> []).
  { destruct m as [|m]; [lia|].
    unfold Scheduler.issue_all. rewrite seq_S, fold_left_app. simpl.
    rewrite issue_eq.
    apply drain_nonempty with (S m); [assumption| |].
    - apply added_consistent. apply (issue_all_consistent clk m).
    - simpl. intro H. apply app_eq_nil in H. destruct H; discriminate. }
  destruct (finish_returns _ Hne) as [st [curve H]].
  exists st. unfold Scheduler.schedule. rewrite H.
  destruct (finish_spec m _ _ _ (issue_all_consistent clk m) H) as [-> _]. reflexivity.
Qed.

End SchedulerProperties.

Lemma oldest_first_one_at_a_time : one_at_a_time Scheduler.oldest_first.
Proof.
  intros clk p. unfold Scheduler.named, Scheduler.oldest_first.
  destruct p as [|x t]; [simpl; lia|].
  etransitivity; [apply filter_length_le|]. simpl. lia.
Qed.

Lemma youngest_first_one_at_a_time : one_at_a_time Scheduler.youngest_first.
Proof.
  intros clk p. unfold Scheduler.named, Scheduler.youngest_first.
  destruct (rev p) as [|x t]; [simpl; lia|].
  etransitivity; [apply filter_length_le|]. simpl. lia.
Qed.

(** Oldest first or youngest first, the curve of a clip with a frame is the
    same. *)
Lemma schedule_either_order (num_threads : nat) (f : nat -> Q) (clk m : nat) :
  (0 < m)%nat ->
  snd (Scheduler.schedule num_threads Scheduler.oldest_first f clk m) = inr (map f (seq 0 m)) /\
  snd (Scheduler.schedule num_threads Scheduler.youngest_first f clk m) = inr (map f (seq 0 m)).
Proof.
  intro Hm. split.
  - destruct (schedule_returns num_threads _ f clk m oldest_first_one_at_a_time Hm) as [st ->].
    reflexivity.
  - destruct (schedule_returns num_threads _ f clk m youngest_first_one_at_a_time Hm) as [st ->].
    reflexivity.
Qed.

(** ** The frame selector *)

Section FrameProperties.



Lemma frame_at_strict (fstart fend n : Z) (i j : nat) :
  0 <= n -> n + 1 <= fend - fstart -> (i < j)%nat ->
  frame_at fstart fend n i < frame_at fstart fend n j.
Proof.
  intros Hn Hd Hij. unfold frame_at.
  assert (H : (Z.of_nat (S i) * (fend - fstart)) / (n + 1) + 1
              <= (Z.of_nat (S j) * (fend - fstart)) / (n + 1)).
  { rewrite <- (Z.div_add _ 1 (n + 1)) by lia.
    apply Z.div_le_mono; [lia|nia]. }
  lia.
Qed.

Lemma nth_error_map_seq {A : Type} (g : nat -> A) (n i : nat) (x : A) :
  nth_error (map g (seq 0 n)) i = Some x -> (i < n)%nat /\ x = g i.
Proof.
  intro H.
  assert (Hi : (i < n)%nat).
  { assert (i < length (map g (seq 0 n)))%nat by (apply nth_error_Some; congruence).
    rewrite length_map, length_seq in H0. exact H0. }
  split; [exact Hi|].
  rewrite nth_error_map, nth_error_seq in H.
  replace (i <? n)%nat with true in H by (symmetry; apply Nat.ltb_lt, Hi).
  simpl in H. congruence.
Qed.

End FrameProperties.

Section FrameSelectorProperties.

Lemma of_Z_mono (a b : Z) : a <= b -> (F64.of_Z a <= F64.of_Z b)%Q.
Proof. intro H. apply round_mono. rewrite <- Zle_Qle. exact H. Qed.

Lemma of_Z_nonneg (a : Z) : 0 <= a -> (0 <= F64.of_Z a)%Q.
Proof. intro H. apply round_nonneg. change 0%Q with (inject_Z 0). rewrite <- Zle_Qle. exact H. Qed.

Lemma of_Z_exact (a : Z) : Z.abs a <= 2 ^ 53 -> F64.of_Z a = inject_Z a.
Proof. apply round_Z. Qed.

Lemma Qdiv_nonneg (a b : Q) : (0 <= a)%Q -> (0 <= b)%Q -> (0 <= a / b)%Q.
Proof.
  intros Ha Hb. unfold Qdiv. apply Qmult_le_0_compat; [exact Ha|].
  apply Qinv_le_0_compat, Hb.
Qed.

Lemma Qdiv_le_r (a b c : Q) : (0 <= c)%Q -> (a <= b)%Q -> (a / c <= b / c)%Q.
Proof.
  intros Hc H. unfold Qdiv. apply Qmult_le_compat_r; [exact H|].
  apply Qinv_le_0_compat, Hc.
Qed.

(** The entries of [np.linspace] never decrease when [start <= stop]. *)
Lemma linspace64_entry_mono (start stop num : Z) (i j : nat) :
  start <= stop -> 0 <= num -> (i <= j)%nat ->
  Frames.linspace64_entry start stop num i <= Frames.linspace64_entry start stop num j.
Proof.
  intros Hs Hn Hij. unfold Frames.linspace64_entry.
  set (delta := F64.sub (F64.of_Z stop) (F64.of_Z start)).
  set (div := F64.of_Z num).
  set (step := F64.div delta div).
  assert (Hdelta : (0 <= delta)%Q).
  { unfold delta, F64.sub. apply round_nonneg.
    apply (Qplus_le_l _ _ (F64.of_Z start)). ring_simplify. apply of_Z_mono, Hs. }
  assert (Hdiv : (0 <= div)%Q) by (apply of_Z_nonneg, Hn).
  assert (Hstep : (0 <= step)%Q) by (apply round_nonneg, Qdiv_nonneg; assumption).
  assert (Hi : (F64.of_Z (Z.of_nat i) <= F64.of_Z (Z.of_nat j))%Q) by (apply of_Z_mono; lia).
  apply Qfloor_resp_le. unfold F64.add. apply round_mono. apply Qplus_le_l.
  destruct (Num.eqb step 0).
  - unfold F64.mul, F64.div. apply round_mono.
    apply Qmult_le_compat_r; [|exact Hdelta].
    apply round_mono, Qdiv_le_r; assumption.
  - unfold F64.mul. apply round_mono. apply Qmult_le_compat_r; assumption.
Qed.

(** No entry lies before a start frame of 53 bits. *)
Lemma linspace64_entry_low (start stop num : Z) (i : nat) :
  start <= stop -> 0 <= num -> Z.abs start <= 2 ^ 53 ->
  start <= Frames.linspace64_entry start stop num i.
Proof.
  intros Hs Hn Hb. unfold Frames.linspace64_entry.
  set (delta := F64.sub (F64.of_Z stop) (F64.of_Z start)).
  set (div := F64.of_Z num).
  set (step := F64.div delta div).
  assert (Hdelta : (0 <= delta)%Q).
  { unfold delta, F64.sub. apply round_nonneg.
    apply (Qplus_le_l _ _ (F64.of_Z start)). ring_simplify. apply of_Z_mono, Hs. }
  assert (Hdiv : (0 <= div)%Q) by (apply of_Z_nonneg, Hn).
  assert (Hstep : (0 <= step)%Q) by (apply round_nonneg, Qdiv_nonneg; assumption).
  assert (Hi : (0 <= F64.of_Z (Z.of_nat i))%Q) by (apply of_Z_nonneg; lia).
  rewrite <- (Qfloor_Z start) at 1. apply Qfloor_resp_le.
  rewrite <- (round_Z start Hb) at 1. unfold F64.add. apply round_mono.
  rewrite (of_Z_exact start Hb).
  rewrite <- (Qplus_0_l (inject_Z start)) at 1. apply Qplus_le_l.
  destruct (Num.eqb step 0); unfold F64.mul, F64.div; apply round_nonneg.
  - apply Qmult_le_0_compat; [|exact Hdelta]. apply round_nonneg, Qdiv_nonneg; assumption.
  - apply Qmult_le_0_compat; assumption.
Qed.

(** When [num] divides [stop - start], every operation is exact. *)
Lemma linspace64_entry_exact (start stop num : Z) (i : nat) :
  Z.abs start <= 2 ^ 52 -> Z.abs stop <= 2 ^ 52 -> start < stop -> 0 < num ->
  (num | stop - start) -> Z.of_nat i <= num ->
  Frames.linspace64_entry start stop num i
  = start + Z.of_nat i * ((stop - start) / num).
Proof.
  intros Hbs Hbe Hlt Hn [k Hk] Hi.
  assert (H53 : 2 ^ 53 = 2 * 2 ^ 52) by reflexivity.
  assert (Hk0 : 0 < k) by nia.
  assert (Hq : (stop - start) / num = k) by (rewrite Hk; apply Z.div_mul; lia).
  rewrite Hq.
  assert (Hnum : num <= stop - start) by nia.
  assert (Hik : 0 <= Z.of_nat i * k <= stop - start) by nia.
  unfold Frames.linspace64_entry.
  rewrite (of_Z_exact start), (of_Z_exact stop), (of_Z_exact num),
    (of_Z_exact (Z.of_nat i)) by lia.
  assert (Hdelta : F64.sub (inject_Z stop) (inject_Z start) = inject_Z (stop - start)).
  { unfold F64.sub. rewrite (round_compat _ (inject_Z (stop - start))).
    - apply round_Z. lia.
    - unfold Zminus. rewrite inject_Z_plus, inject_Z_opp. reflexivity. }
  rewrite Hdelta.
  assert (Hstep : F64.div (inject_Z (stop - start)) (inject_Z num) = inject_Z k).
  { unfold F64.div. rewrite (round_compat _ (inject_Z k)).
    - apply round_Z. lia.
    - rewrite Hk, inject_Z_mult. field.
      intro H0. unfold Qeq in H0. simpl in H0. lia. }
  rewrite Hstep.
  replace (Num.eqb (inject_Z k) 0) with false.
  - assert (Hy : F64.mul (inject_Z (Z.of_nat i)) (inject_Z k) = inject_Z (Z.of_nat i * k)).
    { unfold F64.mul. rewrite (round_compat _ (inject_Z (Z.of_nat i * k))).
      - apply round_Z. lia.
      - rewrite inject_Z_mult. reflexivity. }
    rewrite Hy. unfold F64.add.
    rewrite (round_compat _ (inject_Z (start + Z.of_nat i * k))).
    + rewrite round_Z by lia. apply Qfloor_Z.
    + rewrite inject_Z_plus. ring.
  - symmetry. apply not_true_is_false. intro E. apply eqb_eq in E.
    unfold Qeq in E. simpl in E. lia.
Qed.

End FrameSelectorProperties.

(** ** The width-scan aggregation *)

Section WidthProperties.

Import Width.

Lemma sign_scaled (k x y : Q) :
  (0 < k)%Q -> (x == k * y)%Q ->
  Num.eqb x 0 = Num.eqb y 0 /\ Num.ltb 0 x = Num.ltb 0 y.
Proof.
  intros Hk E.
  assert (Hz : (x == 0)%Q <-> (y == 0)%Q).
  { rewrite E. split; intro H.
    - apply Qmult_integral in H. destruct H as [H|H]; [|exact H].
      rewrite H in Hk. exfalso. exact (Qlt_irrefl _ Hk).
    - rewrite H. ring. }
  assert (Hp : (0 < x)%Q <-> (0 < y)%Q).
  { rewrite E. split; intro H.
    - destruct (Qlt_le_dec 0 y) as [Hy|Hy]; [exact Hy|exfalso].
      assert (k * y <= 0)%Q.
      { rewrite <- (Qmult_0_r k). apply Qmult_le_l; assumption. }
      exact (Qlt_not_le _ _ H H0).
    - apply Qmult_lt_0_compat; assumption. }
  split.
  - destruct (Num.eqb x 0) eqn:Ex, (Num.eqb y 0) eqn:Ey; try reflexivity.
    + apply eqb_eq, Hz, eqb_eq in Ex. congruence.
    + apply eqb_eq, Hz, eqb_eq in Ey. congruence.
  - destruct (Num.ltb 0 x) eqn:Ex, (Num.ltb 0 y) eqn:Ey; try reflexivity.
    + apply ltb_lt, Hp, ltb_lt in Ex. congruence.
    + apply ltb_lt, Hp, ltb_lt in Ey. congruence.
Qed.

(** A quotient does not change when both sides are scaled by the same
    positive number. *)
Lemma scaled_xdiv (k : Q) (a b s t : xval) :
  (0 < k)%Q -> scaled k a b -> scaled k s t -> xdiv a s = xdiv b t.
Proof.
  intro Hk. destruct a as [x| | |], b as [x'| | |]; simpl; try tauto.
  destruct s as [y| | |], t as [y'| | |]; simpl; try tauto.
  intros Hx Hy.
  destruct (sign_scaled k x x' Hk Hx) as [Ex0 Ex1].
  destruct (sign_scaled k y y' Hk Hy) as [Ey0 _].
  rewrite Ey0. destruct (Num.eqb y' 0) eqn:E.
  - unfold xscale_inf. rewrite Ex0, Ex1. reflexivity.
  - f_equal. unfold Num.div. apply Qred_complete. rewrite Hx, Hy.
    assert (~ (y' == 0)%Q) by (intro H; apply eqb_eq in H; congruence).
    assert (~ (k == 0)%Q) by (intro H0; rewrite H0 in Hk; exact (Qlt_irrefl _ Hk)).
    field. split; assumption.
Qed.

Lemma Forall2_nth_error {A B : Type} (R : A -> B -> Prop) (l : list A) (l' : list B) :
  Forall2 R l l' ->
  forall j, match nth_error l j, nth_error l' j with
            | Some x, Some y => R x y
            | None, None => True
            | _, _ => False
            end.
Proof.
  induction 1 as [|x y t t' Hxy _ IH]; intros [|j]; simpl; auto. apply IH.
Qed.

Lemma Forall2_map_same {A B C : Type} (R : B -> C -> Prop) (g : A -> B) (g' : A -> C)
      (l : list A) :
  (forall x, R (g x) (g' x)) -> Forall2 R (map g l) (map g' l).
Proof.
  intro H. induction l; simpl; constructor; auto.
Qed.

(** Related arrays are combined in the same way. *)
Lemma broadcast_related {A : Type} (R : A -> A -> Prop) (a a' b b' : list A) :
  Forall2 R a a' -> Forall2 R b b' ->
  related (fun p p' => R (fst p) (fst p') /\ R (snd p) (snd p'))
          (broadcast a b) (broadcast a' b').
Proof.
  intros Ha Hb. unfold broadcast.
  rewrite <- (Forall2_length Ha), <- (Forall2_length Hb).
  destruct (length a =? length b)%nat.
  - simpl. clear - Ha Hb. revert b b' Hb.
    induction Ha as [|x x' t t' Hx _ IH]; intros b b' Hb; simpl; [constructor|].
    destruct Hb as [|y y' u u' Hy Hu]; simpl; constructor; auto.
  - assert (Hleft : forall x x', R x x' ->
              Forall2 (fun p p' => R (fst p) (fst p') /\ R (snd p) (snd p'))
                      (map (fun y => (x, y)) b) (map (fun y => (x', y)) b')).
    { intros x x' Hx. clear - Hx Hb. induction Hb; simpl; constructor; auto. }
    assert (Hright : forall y y', R y y' ->
              Forall2 (fun p p' => R (fst p) (fst p') /\ R (snd p) (snd p'))
                      (map (fun x => (x, y)) a) (map (fun x => (x, y')) a')).
    { intros y y' Hy. clear - Hy Ha. induction Ha; simpl; constructor; auto. }
    destruct Ha as [|x x' t t' Hx Ht].
    + destruct Hb as [|y y' u u' Hy Hu]; [reflexivity|].
      destruct Hu; simpl; [constructor|reflexivity].
    + destruct Ht as [|x2 x2' t2 t2' Hx2 Ht2].
      * simpl. apply Hleft, Hx.
      * destruct Hb as [|y y' u u' Hy Hu]; [reflexivity|].
        destruct Hu; [|reflexivity].
        apply (Hright y y' Hy).
Qed.

Lemma argmin_from_lt (l : list xval) : forall best besti i,
  (besti < i)%nat -> (argmin_from best besti i l < i + length l)%nat.
Proof.
  induction l as [|x t IH]; intros best besti i H; simpl; [lia|].
  destruct (is_nan best); [lia|].
  destruct (is_nan x || xltb x best).
  - specialize (IH x i (S i)). lia.
  - specialize (IH best besti (S i)). lia.
Qed.

Lemma np_argmin_lt (l : list xval) :
  l <> [] -> exists k, np_argmin l = inr k /\ (k < length l)%nat.
Proof.
  destruct l as [|x t]; [congruence|]. intros _. eexists. split; [reflexivity|].
  pose proof (argmin_from_lt t x 0%nat 1%nat). simpl. lia.
Qed.

End WidthProperties.

Section Width64Properties.

Import Width.

Lemma Qmult_le_nonneg_l (a b c : Q) : (0 <= a)%Q -> (b <= c)%Q -> (a * b <= a * c)%Q.
Proof.
  intros Ha H. rewrite (Qmult_comm a b), (Qmult_comm a c).
  apply Qmult_le_compat_r; assumption.
Qed.

Lemma ilog2_pow2 (j : Z) : F64.ilog2 (F64.pow2 j) = j.
Proof. apply ilog2_unique; [apply Qle_refl|apply pow2_lt; lia]. Qed.

Lemma round_pow2 (j : Z) : -1074 <= j -> (F64.round (F64.pow2 j) == F64.pow2 j)%Q.
Proof.
  intro H. rewrite (round_positive _ (pow2_pos j)), round_pos_grid.
  apply to_grid_fix with (2 ^ (j - F64.quantum (F64.pow2 j))).
  apply pow2_on_grid. unfold F64.quantum. rewrite ilog2_pow2. lia.
Qed.

Lemma round_in_range (lo hi : Z) (y : Q) :
  -1074 <= lo -> -1074 <= hi -> (F64.pow2 lo <= y)%Q -> (y <= F64.pow2 hi)%Q ->
  (F64.pow2 lo <= F64.round y)%Q /\ (F64.round y <= F64.pow2 hi)%Q.
Proof.
  intros Hlo Hhi H1 H2. split.
  - rewrite <- (round_pow2 lo Hlo). apply round_mono, H1.
  - rewrite <- (round_pow2 hi Hhi). apply round_mono, H2.
Qed.

Lemma round_scale (k lo : Z) (y : Q) :
  -1022 <= lo -> -1022 <= lo + k -> (F64.pow2 lo <= y)%Q ->
  (F64.round (F64.pow2 k * y) == F64.pow2 k * F64.round y)%Q.
Proof.
  intros H1 H2 Hy.
  assert (Hp : (0 < y)%Q) by (apply Qlt_le_trans with (F64.pow2 lo); [apply pow2_pos|exact Hy]).
  assert (He : lo <= F64.ilog2 y).
  { rewrite <- (ilog2_pow2 lo). apply ilog2_mono; [apply pow2_pos|exact Hy]. }
  rewrite (round_compat (F64.pow2 k * y) (y * F64.pow2 k)) by ring.
  rewrite (round_positive (y * F64.pow2 k)), (round_positive y Hp).
  - rewrite round_pos_scale by (try assumption; lia). ring.
  - apply Qmult_lt_0_compat; [exact Hp|apply pow2_pos].
Qed.

Lemma fin_small (q : Q) (hi : Z) :
  hi <= 1023 -> (0 <= F64.round q)%Q -> (F64.round q <= F64.pow2 hi)%Q ->
  Width64.fin q = Fin (F64.round q).
Proof.
  intros Hhi H0 H1. unfold Width64.fin. cbv zeta.
  replace (Qle_bool (F64.pow2 1024) (Qabs (F64.round q))) with false; [reflexivity|].
  symmetry. apply not_true_is_false. intro E. apply Qle_bool_iff in E.
  rewrite Qabs_pos in E by exact H0.
  assert (F64.pow2 1024 <= F64.pow2 hi)%Q by (apply Qle_trans with (F64.round q); assumption).
  assert (F64.pow2 hi < F64.pow2 1024)%Q by (apply pow2_lt; lia).
  exact (Qlt_not_le _ _ H2 H).
Qed.

Lemma fin_compat (p q : Q) : (p == q)%Q -> Width64.fin p = Width64.fin q.
Proof. intro E. unfold Width64.fin. rewrite (round_compat p q E). reflexivity. Qed.

(** The exact results [x] and [y] of an operation, rounded. *)
Lemma fin_good (k lo hi : Z) (x y : Q) :
  -1022 <= lo -> -1022 <= lo + k -> hi <= 1023 -> hi + k <= 1023 -> lo <= hi ->
  (x == F64.pow2 k * y)%Q ->
  ((y == 0)%Q \/ (F64.pow2 lo <= y)%Q /\ (y <= F64.pow2 hi)%Q) ->
  good k lo hi (Width64.fin x) (Width64.fin y).
Proof.
  intros H1 H2 H3 H4 H5 Hx [Hy|[Hy1 Hy2]].
  - rewrite (fin_compat x 0), (fin_compat y 0) by (try exact Hy; rewrite Hx, Hy; ring).
    assert (Hz : Width64.fin 0 = Fin 0) by reflexivity.
    rewrite Hz. simpl. split; [ring|left; reflexivity].
  - destruct (round_in_range lo hi y ltac:(lia) ltac:(lia) Hy1 Hy2) as [Hr1 Hr2].
    assert (Hr0 : (0 <= F64.round y)%Q)
      by (apply Qle_trans with (F64.pow2 lo); [apply Qlt_le_weak, pow2_pos|exact Hr1]).
    assert (Hs : (F64.round x == F64.pow2 k * F64.round y)%Q).
    { rewrite (round_compat x _ Hx). apply round_scale with lo; assumption. }
    rewrite (fin_small y hi H3 Hr0 Hr2).
    rewrite (fin_small x (hi + k) H4).
    + simpl. split; [exact Hs|right; split; assumption].
    + rewrite Hs. apply Qmult_le_0_compat; [apply Qlt_le_weak, pow2_pos|exact Hr0].
    + rewrite Hs. replace (hi + k) with (k + hi) by lia. rewrite pow2_add.
      apply Qmult_le_l; [apply pow2_pos|exact Hr2].
Qed.

Lemma good_weaken (k lo hi lo' hi' : Z) (a b : xval) :
  lo' <= lo -> hi <= hi' -> good k lo hi a b -> good k lo' hi' a b.
Proof.
  intros H1 H2. destruct a as [x| | |], b as [y| | |]; simpl; try tauto.
  intros [Hx [Hy|[Hy1 Hy2]]]; (split; [exact Hx|]); [left; exact Hy|right].
  split.
  - apply Qle_trans with (F64.pow2 lo); [apply pow2_le, H1|exact Hy1].
  - apply Qle_trans with (F64.pow2 hi); [exact Hy2|apply pow2_le, H2].
Qed.

Lemma good_scaled (k lo hi : Z) (a b : xval) : good k lo hi a b -> scaled (F64.pow2 k) a b.
Proof. destruct a, b; simpl; tauto. Qed.

Lemma good_zero (k lo hi : Z) : good k lo hi (Fin 0) (Fin 0).
Proof. simpl. split; [ring|left; reflexivity]. Qed.

Lemma good_xmul (k1 k2 lo1 lo2 hi1 hi2 : Z) (a b a' b' : xval) :
  -1022 <= lo1 + lo2 -> -1022 <= lo1 + lo2 + (k1 + k2) ->
  hi1 + hi2 <= 1023 -> hi1 + hi2 + (k1 + k2) <= 1023 -> lo1 <= hi1 -> lo2 <= hi2 ->
  good k1 lo1 hi1 a b -> good k2 lo2 hi2 a' b' ->
  good (k1 + k2) (lo1 + lo2) (hi1 + hi2) (Width64.xmul a a') (Width64.xmul b b').
Proof.
  intros B1 B2 B3 B4 B5 B6.
  destruct a as [x| | |], b as [y| | |]; simpl; try tauto.
  destruct a' as [x'| | |], b' as [y'| | |]; simpl; try tauto.
  intros [Hx Hy] [Hx' Hy'].
  unfold Width64.xmul. cbn [Width.xmul Width64.rnd]. unfold Num.mul.
  rewrite (fin_compat (Qred (x * x')) (x * x')), (fin_compat (Qred (y * y')) (y * y'))
    by apply Qred_correct.
  apply fin_good; try lia.
  - rewrite Hx, Hx', pow2_add. ring.
  - destruct Hy as [Hy|[Hy1 Hy2]]; [left; rewrite Hy; ring|].
    destruct Hy' as [Hy'|[Hy1' Hy2']]; [left; rewrite Hy'; ring|].
    right.
    assert (0 <= y)%Q
      by (apply Qle_trans with (F64.pow2 lo1); [apply Qlt_le_weak, pow2_pos|exact Hy1]).
    assert (0 <= y')%Q
      by (apply Qle_trans with (F64.pow2 lo2); [apply Qlt_le_weak, pow2_pos|exact Hy1']).
    split; rewrite pow2_add.
    + apply Qle_trans with (y * F64.pow2 lo2)%Q.
      * apply Qmult_le_compat_r; [exact Hy1|apply Qlt_le_weak, pow2_pos].
      * apply Qmult_le_nonneg_l; assumption.
    + apply Qle_trans with (y * F64.pow2 hi2)%Q.
      * apply Qmult_le_nonneg_l; assumption.
      * apply Qmult_le_compat_r; [exact Hy2|apply Qlt_le_weak, pow2_pos].
Qed.


Lemma good_nonneg (k lo hi : Z) (x y : Q) :
  ((y == 0)%Q \/ (F64.pow2 lo <= y)%Q /\ (y <= F64.pow2 hi)%Q) -> (0 <= y)%Q.
Proof.
  intros [H|[H _]]; [rewrite H; apply Qle_refl|].
  apply Qle_trans with (F64.pow2 lo); [apply Qlt_le_weak, pow2_pos|exact H].
Qed.

Lemma good_xadd (k lo hi : Z) (a b a' b' : xval) :
  -1022 <= lo -> -1022 <= lo + k -> hi + 1 <= 1023 -> hi + 1 + k <= 1023 -> lo <= hi ->
  good k lo hi a b -> good k lo hi a' b' ->
  good k lo (hi + 1) (Width64.xadd a a') (Width64.xadd b b').
Proof.
  intros B1 B2 B3 B4 B5.
  destruct a as [x| | |], b as [y| | |]; simpl; try tauto.
  destruct a' as [x'| | |], b' as [y'| | |]; simpl; try tauto.
  intros [Hx Hy] [Hx' Hy'].
  unfold Width64.xadd. cbn [Width.xadd Width64.rnd]. unfold Num.add.
  rewrite (fin_compat (Qred (x + x')) (x + x')), (fin_compat (Qred (y + y')) (y + y'))
    by apply Qred_correct.
  apply fin_good; try lia.
  - rewrite Hx, Hx'. ring.
  - pose proof (good_nonneg k lo hi x y Hy) as Hy0.
    pose proof (good_nonneg k lo hi x' y' Hy') as Hy0'.
    assert (Hup : forall u, ((u == 0)%Q \/ (F64.pow2 lo <= u)%Q /\ (u <= F64.pow2 hi)%Q) ->
                            (u <= F64.pow2 hi)%Q).
    { intros u [H|[_ H]]; [rewrite H; apply Qlt_le_weak, pow2_pos|exact H]. }
    assert (Hsum : (y + y' <= F64.pow2 (hi + 1))%Q).
    { rewrite pow2_add. setoid_replace (F64.pow2 hi * F64.pow2 1)%Q
        with (F64.pow2 hi + F64.pow2 hi)%Q by (unfold F64.pow2 at 2; simpl; ring).
      apply Qplus_le_compat; apply Hup; assumption. }
    destruct Hy as [Hy|[Hy1 Hy2]].
    + destruct Hy' as [Hy'|[Hy1' Hy2']]; [left; rewrite Hy, Hy'; ring|].
      right. split; [|exact Hsum]. rewrite Hy, Qplus_0_l. exact Hy1'.
    + right. split; [|exact Hsum].
      apply Qle_trans with y; [exact Hy1|].
      rewrite <- (Qplus_0_r y) at 1. apply Qplus_le_r. exact Hy0'.
Qed.

Lemma fold_xadd_good (k lo hi : Z) (g g' : nat -> xval) (l : list nat) :
  (forall j, good k lo hi (g j) (g' j)) ->
  forall n acc acc',
    0 <= n -> -1022 <= lo -> -1022 <= lo + k -> lo <= hi ->
    hi + n + Z.of_nat (length l) <= 1023 -> hi + n + Z.of_nat (length l) + k <= 1023 ->
    good k lo (hi + n) acc acc' ->
    good k lo (hi + n + Z.of_nat (length l))
         (fold_left Width64.xadd (map g l) acc) (fold_left Width64.xadd (map g' l) acc').
Proof.
  intro Hg. induction l as [|j t IH]; intros n acc acc' Hn B1 B2 B3 B4 B5 Hacc.
  - simpl. replace (hi + n + 0) with (hi + n) by lia. exact Hacc.
  - cbn [map fold_left]. cbn [length] in *.
    replace (hi + n + Z.of_nat (S (length t))) with (hi + (n + 1) + Z.of_nat (length t)) by lia.
    apply IH; try lia.
    replace (hi + (n + 1)) with (hi + n + 1) by lia.
    apply good_xadd; try lia; [exact Hacc|].
    apply good_weaken with lo hi; [lia|lia|apply Hg].
Qed.

Lemma conv_full_at_good (ka kv loa lov hia hiv : Z) (a a' v v' : list xval) (n : nat) :
  -1022 <= loa + lov -> -1022 <= loa + lov + (ka + kv) -> loa <= hia -> lov <= hiv ->
  hia + hiv + Z.of_nat (length v) <= 1023 ->
  hia + hiv + Z.of_nat (length v) + (ka + kv) <= 1023 ->
  Forall2 (good ka loa hia) a a' -> Forall2 (good kv lov hiv) v v' ->
  scaled (F64.pow2 (ka + kv)) (Width64.conv_full_at a v n) (Width64.conv_full_at a' v' n).
Proof.
  intros B1 B2 B3 B4 B5 B6 Ha Hv. unfold Width64.conv_full_at.
  rewrite <- (Forall2_length Hv).
  apply good_scaled with (loa + lov) (hia + hiv + 0 + Z.of_nat (length (seq 0 (length v)))).
  apply fold_xadd_good; try (rewrite ?length_seq; lia).
  - intro j.
    pose proof (Forall2_nth_error _ _ _ Hv j) as Hj.
    pose proof (Forall2_nth_error _ _ _ Ha (n - j)%nat) as Hnj.
    destruct (nth_error v j), (nth_error v' j); try tauto; try apply good_zero.
    destruct (nth_error a (n - j)), (nth_error a' (n - j)); try tauto; try apply good_zero.
    destruct (j <=? n)%nat; [|apply good_zero].
    apply good_xmul; try assumption; lia.
  - replace (hia + hiv + 0) with (hia + hiv) by lia. apply good_zero.
Qed.

Lemma kernel_good : Forall2 (good 0 (-1) (-1)) kernel kernel.
Proof.
  assert (Hhalf : good 0 (-1) (-1) (Fin (1 # 2)) (Fin (1 # 2))).
  { unfold good. split; [reflexivity|right; split; apply Qle_refl]. }
  unfold kernel. apply Forall2_cons; [exact Hhalf|].
  apply Forall2_cons; [apply good_zero|].
  apply Forall2_cons; [exact Hhalf|apply Forall2_nil].
Qed.

Lemma np_convolve_same_good (k lo hi : Z) (vals vals' : list xval) :
  -1021 <= lo -> -1021 <= lo + k -> lo <= hi -> hi <= 1020 -> hi + k <= 1020 ->
  Forall2 (good k lo hi) vals vals' ->
  related (scaled (F64.pow2 k))
          (Width64.np_convolve_same vals kernel) (Width64.np_convolve_same vals' kernel).
Proof.
  intros B1 B2 B3 B4 B5 H. pose proof (Forall2_length H) as Hlen.
  unfold Width64.np_convolve_same.
  destruct H as [|x x' t t' Hx Ht]; [reflexivity|].
  assert (Hall : Forall2 (good k lo hi) (x :: t) (x' :: t')) by (constructor; assumption).
  change (match kernel with [] => _ | _ :: _ => ?r end) with r.
  change (match kernel with [] => _ | _ :: _ => ?r end) with r.
  rewrite <- Hlen.
  destruct (length (x :: t) <? length kernel)%nat eqn:E; unfold related, ret;
    cbv beta iota zeta.
  - apply Nat.ltb_lt in E. change (length kernel) with 3%nat in E.
    rewrite <- Hlen. apply Forall2_map_same. intro n.
    replace k with (0 + k) at 1 by lia.
    apply conv_full_at_good with (-1) lo (-1) hi; try lia; [apply kernel_good|exact Hall].
  - rewrite <- Hlen. apply Forall2_map_same. intro n.
    replace k with (k + 0) at 1 by lia.
    apply conv_full_at_good with lo (-1) hi (-1); try (change (length kernel) with 3%nat; lia);
      [exact Hall|apply kernel_good].
Qed.

Lemma np_divide_scaled64 (c : Q) (a a' s s' : list xval) :
  (0 < c)%Q -> Forall2 (scaled c) a a' -> Forall2 (scaled c) s s' ->
  Width64.np_divide a s = Width64.np_divide a' s'.
Proof.
  intros Hc Ha Hs. unfold Width64.np_divide.
  pose proof (broadcast_related _ _ _ _ _ Ha Hs) as H.
  destruct (broadcast a s) as [e|p], (broadcast a' s') as [e'|p']; simpl in *; try tauto.
  - congruence.
  - unfold ret. f_equal.
    induction H as [|u u' t t' [Hu1 Hu2] _ IH]; simpl; [reflexivity|].
    rewrite IH. f_equal. unfold Width64.xdiv. f_equal.
    apply scaled_xdiv with c; assumption.
Qed.

(** A curve scaled by a power of two has the same smoothed quotient. *)
Lemma smooth_divide_good (k lo hi : Z) (vals vals' : list xval) :
  -1021 <= lo -> -1021 <= lo + k -> lo <= hi -> hi <= 1020 -> hi + k <= 1020 ->
  Forall2 (good k lo hi) vals vals' ->
  Width64.smooth_divide vals = Width64.smooth_divide vals'.
Proof.
  intros B1 B2 B3 B4 B5 H. unfold Width64.smooth_divide.
  pose proof (np_convolve_same_good k lo hi _ _ B1 B2 B3 B4 B5 H) as Hc.
  destruct (Width64.np_convolve_same vals kernel) as [e|s],
           (Width64.np_convolve_same vals' kernel) as [e'|s']; simpl in *; try tauto.
  - congruence.
  - apply np_divide_scaled64 with (F64.pow2 k); [apply pow2_pos| |exact Hc].
    clear - H. induction H; constructor; [eapply good_scaled; eassumption|assumption].
Qed.


Lemma xdiv_finite (x c : Q) :
  ~ (c == 0)%Q -> Width64.xdiv (Fin x) (Fin c) = Width64.fin (x / c).
Proof.
  intro Hc. unfold Width64.xdiv. cbn [Width.xdiv].
  replace (Num.eqb c 0) with false.
  - cbn [Width64.rnd]. unfold Num.div. apply fin_compat, Qred_correct.
  - symmetry. apply not_true_is_false. intro E. apply eqb_eq in E. contradiction.
Qed.

(** Dividing the curve by [c * 2^j] gives [2^-j] times the curve divided by
    [c], entry by entry. *)
Lemma scale_good (v : list Q) (c j : Z) :
  Forall moderate v -> 0 < c -> 0 <= j -> c * 2 ^ j <= 2 ^ 53 ->
  Forall2 (good (- j) (-553) 500) (Width64.scale v (c * 2 ^ j)) (Width64.scale v c).
Proof.
  intros Hv Hc Hj Hb.
  assert (Hpj : 0 < 2 ^ j) by (apply Z.pow_pos_nonneg; lia).
  assert (Hj53 : j <= 53).
  { destruct (Z_le_gt_dec j 53) as [H|H]; [exact H|exfalso].
    assert (2 ^ 53 < 2 ^ j) by (apply Z.pow_lt_mono_r; lia). nia. }
  assert (Hc53 : c <= 2 ^ 53) by nia.
  unfold Width64.scale.
  rewrite (of_Z_exact (c * 2 ^ j)), (of_Z_exact c) by lia.
  induction Hv as [|x t Hx _ IH]; simpl; constructor; [|exact IH].
  assert (Hcq : (0 < inject_Z c)%Q)
    by (change 0%Q with (inject_Z 0); rewrite <- Zlt_Qlt; exact Hc).
  assert (Hne : ~ (inject_Z c == 0)%Q)
    by (intro E; rewrite E in Hcq; exact (Qlt_irrefl _ Hcq)).
  assert (Hne' : ~ (inject_Z (c * 2 ^ j) == 0)%Q)
    by (intro E; unfold Qeq in E; simpl in E; nia).
  rewrite !xdiv_finite by assumption.
  apply fin_good; try lia.
  - rewrite inject_Z_mult, <- (pow2_Z j Hj).
    assert (Hm : (F64.pow2 (- j) * F64.pow2 j == 1)%Q)
      by (rewrite <- pow2_add; replace (- j + j) with 0 by lia; reflexivity).
    rewrite <- (Qmult_1_r (x / (inject_Z c * F64.pow2 j))), <- Hm.
    field. repeat split; first [apply pow2_nonzero|exact Hne].
  - destruct Hx as [Hx|[Hx1 Hx2]]; [left; rewrite Hx; field; exact Hne|right].
    assert (Hc1 : (1 <= inject_Z c)%Q)
      by (change 1%Q with (inject_Z 1); rewrite <- Zle_Qle; lia).
    assert (Hcu : (inject_Z c <= F64.pow2 53)%Q)
      by (rewrite (pow2_Z 53) by lia; rewrite <- Zle_Qle; exact Hc53).
    assert (Hx0 : (0 <= x)%Q)
      by (apply Qle_trans with (F64.pow2 (-500)); [apply Qlt_le_weak, pow2_pos|exact Hx1]).
    split.
    + apply Qle_shift_div_l; [exact Hcq|].
      apply Qle_trans with (F64.pow2 (-553) * F64.pow2 53)%Q.
      * apply Qmult_le_nonneg_l; [apply Qlt_le_weak, pow2_pos|exact Hcu].
      * rewrite <- pow2_add. replace (-553 + 53) with (-500) by lia. exact Hx1.
    + apply Qle_shift_div_r; [exact Hcq|].
      apply Qle_trans with (F64.pow2 500 * 1)%Q.
      * rewrite Qmult_1_r. exact Hx2.
      * apply Qmult_le_nonneg_l; [apply Qlt_le_weak, pow2_pos|exact Hc1].
Qed.

Lemma normalize_power_of_two (v : list Q) (c j : Z) :
  Forall moderate v -> 0 < c -> 0 <= j -> c * 2 ^ j <= 2 ^ 53 ->
  Width64.normalize v (c * 2 ^ j) = Width64.normalize v c.
Proof.
  intros Hv Hc Hj Hb.
  assert (Hj53 : j <= 53).
  { destruct (Z_le_gt_dec j 53) as [H|H]; [exact H|exfalso].
    assert (2 ^ 53 < 2 ^ j) by (apply Z.pow_lt_mono_r; lia). nia. }
  unfold Width64.normalize.
  apply smooth_divide_good with (- j) (-553) 500; try lia.
  apply scale_good; assumption.
Qed.

(** On a curve of three values or more the smoothing keeps the length. *)
Lemma smooth_divide64_long (vals : list xval) :
  (3 <= length vals)%nat ->
  Width64.smooth_divide vals
  = inr (map (fun p => Width64.xdiv (fst p) (snd p))
             (combine vals (map (Width64.conv_full_at vals kernel) (seq 1 (length vals))))).
Proof.
  intro H. unfold Width64.smooth_divide, Width64.np_convolve_same.
  destruct vals as [|x t]; [simpl in H; lia|].
  change (match kernel with [] => _ | _ :: _ => ?r end) with r.
  replace (length (x :: t) <? length kernel)%nat with false
    by (symmetry; apply Nat.ltb_ge; exact H).
  cbv beta iota zeta. cbn [bind ret]. unfold Width64.np_divide, broadcast.
  rewrite length_map, length_seq, Nat.eqb_refl. reflexivity.
Qed.

Lemma best_width64_scanned (v : list Q) (c steps w_min : Z) :
  (3 <= length v)%nat ->
  exists i, (i < length v)%nat /\
            Width64.best_width v c steps w_min = inr (Z.of_nat i * steps + w_min).
Proof.
  intro H. unfold Width64.best_width, Width64.normalize.
  assert (Hs : length (Width64.scale v c) = length v) by apply length_map.
  rewrite smooth_divide64_long by (rewrite Hs; exact H).
  cbn [bind].
  match goal with |- context [Width.np_argmin ?l] =>
    assert (Hl : length l = length v)
      by (rewrite length_map, length_combine, length_map, length_seq, Hs;
          apply Nat.min_id);
    destruct (np_argmin_lt l) as [k [Hk Hlt]];
      [intro E; rewrite E in Hl; simpl in Hl; lia|]
  end.
  rewrite Hk. exists k. split; [lia|reflexivity].
Qed.

End Width64Properties.

(** ** The search *)

Section RunProperties.

Import Run.

Variable num_threads : nat.
Variable completed : nat -> list nat -> list nat.
Variable plane_stats : Z -> bool -> Z -> Z -> Q.
Variable src : source.
Variable min_h max_h : Z.
Variable frames : list Z.
Variable passes : Z.
Variable steps : Z.

Local Abbreviation scan_frame := (Run.scan_frame num_threads completed plane_stats src).
Local Abbreviation scan_frames := (Run.scan_frames num_threads completed plane_stats src).
Local Abbreviation height_scan :=
  (Run.height_scan num_threads completed plane_stats src min_h max_h frames steps).
Local Abbreviation width_refine :=
  (Run.width_refine num_threads completed plane_stats src frames steps).
Local Abbreviation passes_loop :=
  (Run.passes_loop num_threads completed plane_stats src min_h max_h frames steps).
Local Abbreviation run :=
  (Run.run num_threads completed plane_stats src min_h max_h frames passes steps).

Lemma keeps_preserves {A : Type} (P : list nat -> Prop) (m : M A) :
  keeps m -> preserves P m.
Proof. intros H w Hw. rewrite H. exact Hw. Qed.

Lemma preserves_mbind {A B : Type} (P : list nat -> Prop) (m : M A) (k : A -> M B) :
  preserves P m -> (forall a, preserves P (k a)) -> preserves P (mbind m k).
Proof.
  intros Hm Hk w Hw. unfold mbind. specialize (Hm w Hw).
  destruct (m w) as [w' [e|a]]; simpl in *; [exact Hm|]. apply Hk, Hm.
Qed.

Lemma keeps_mret {A : Type} (a : A) : keeps (mret a).
Proof. intro w. reflexivity. Qed.

Lemma keeps_lift {A : Type} (r : result A) : keeps (lift r).
Proof. intro w. reflexivity. Qed.

Lemma keeps_get_ar : keeps get_ar.
Proof. intro w. reflexivity. Qed.

Lemma keeps_set_ar (ar : Q) : keeps (set_ar ar).
Proof. intro w. reflexivity. Qed.

Lemma keeps_scan_frame (candidates : list (Z * Z)) (frame : Z) :
  keeps (scan_frame candidates frame).
Proof.
  intro w. unfold Run.scan_frame. destruct candidates; [reflexivity|].
  destruct (Scheduler.schedule _ _ _ _ _). reflexivity.
Qed.

Lemma preserves_scan_frames (P : list nat -> Prop) (candidates : list (Z * Z)) :
  forall fs sampled, preserves P (scan_frames candidates fs sampled).
Proof.
  induction fs as [|frame t IH]; intro sampled; simpl.
  - apply keeps_preserves, keeps_mret.
  - apply preserves_mbind; [apply keeps_preserves, keeps_scan_frame|]. intro vals.
    apply preserves_mbind; [apply keeps_preserves, keeps_lift|]. intro sum. apply IH.
Qed.

Lemma preserves_analyze_results (vals : list Q) (offset : Z) :
  preserves separated (Run.analyze_results steps vals offset).
Proof.
  intros w Hw. unfold Run.analyze_results.
  pose proof (analyze_results_separated steps _ vals offset Hw) as H.
  destruct (Peak.analyze_results steps (self_resolutions w) vals offset). exact H.
Qed.

Lemma preserves_height_scan : preserves separated height_scan.
Proof.
  unfold Run.height_scan.
  apply preserves_mbind; [apply keeps_preserves, keeps_lift|]. intro hs.
  apply preserves_mbind; [apply keeps_preserves, keeps_get_ar|]. intro ar.
  apply preserves_mbind; [apply preserves_scan_frames|]. intro sampled.
  apply preserves_mbind; [apply keeps_preserves, keeps_lift|]. intro vals.
  apply preserves_analyze_results.
Qed.

Lemma preserves_width_refine (P : list nat -> Prop) (h : Z) : preserves P (width_refine h).
Proof.
  unfold Run.width_refine.
  apply preserves_mbind; [apply keeps_preserves, keeps_get_ar|]. intro ar.
  destruct (width_window src ar h) as [w_min w_max].
  apply preserves_mbind; [apply keeps_preserves, keeps_lift|]. intro w_sample_size.
  apply preserves_mbind; [apply keeps_preserves, keeps_lift|]. intro ws.
  apply preserves_mbind; [apply preserves_scan_frames|]. intro sampled.
  apply preserves_mbind; [apply keeps_preserves, keeps_lift|]. intro sum.
  apply preserves_mbind; [apply keeps_preserves, keeps_lift|]. intro best_w.
  apply preserves_mbind; [apply keeps_preserves, keeps_lift|]. intro new_ar.
  apply keeps_preserves, keeps_set_ar.
Qed.

Lemma preserves_passes_loop : forall n, preserves separated (passes_loop n).
Proof.
  induction n as [|n IH]; simpl.
  - apply keeps_preserves, keeps_mret.
  - apply preserves_mbind; [apply preserves_height_scan|]. intro a.
    apply preserves_mbind; [apply preserves_width_refine|]. intros _. apply IH.
Qed.

Lemma preserves_run : preserves separated run.
Proof.
  unfold Run.run.
  apply preserves_mbind; [apply keeps_preserves, keeps_lift|]. intros _.
  apply preserves_mbind; [apply keeps_preserves, keeps_get_ar|]. intro ar.
  apply preserves_mbind; [apply preserves_passes_loop|]. intros _.
  apply preserves_mbind; [apply preserves_height_scan|]. intro a.
  unfold getw.
  apply preserves_mbind; [apply keeps_preserves, keeps_get_ar|]. intro ar'.
  apply keeps_preserves, keeps_mret.
Qed.

(** What [run] returns: the flag compares the width with the aspect ratio
    that [self.ar] held when [run] began, and the width is [getw] of the
    height at the aspect ratio of the end. *)
Lemma run_result (w0 : world) (h w : Z) (mae : Q) (overstretched : bool) :
  snd (run w0) = inr (h, w, mae, overstretched) ->
  overstretched = is_overstretched (self_ar w0) h w /\
  exists ar, w = getw_at src ar h true.
Proof.
  unfold Run.run, mbind, lift, get_ar, getw, mret.
  destruct (py_range min_h (max_h + 1) steps) as [e|hs]; simpl; [discriminate|].
  destruct (passes_loop (Z.to_nat passes) w0) as [w1 [e|[]]]; simpl; [discriminate|].
  destruct (height_scan w1) as [w2 [e|a]]; simpl; [discriminate|].
  intro H. injection H as <- <- <- <-.
  split; [reflexivity|]. exists (self_ar w2). reflexivity.
Qed.

End RunProperties.

Section GetnativeProperties.

Import Run.

Lemma is_overstretched_spec (ar : Q) (h w : Z) :
  is_overstretched ar h w = true
  <-> (F64.mul (F64.of_Z h) (F64.add ar (F64.round (1 # 5))) < inject_Z w)%Q.
Proof. unfold is_overstretched. apply ltb_lt. Qed.

Lemma assign_ar_value (args : arguments) (src : source) (ar : Q) :
  assign_ar args src = inr ar -> ar = effective_ar args src.
Proof.
  unfold assign_ar. destruct (_ && _); [discriminate|]. intro H. injection H as <-.
  reflexivity.
Qed.

Lemma setup_config (env : environment) (args : arguments) (src : source) (cfg : config) :
  setup env args src = inr cfg ->
  cfg_ar cfg = effective_ar args src /\
  cfg_min_h cfg = effective_min_h args src /\
  cfg_max_h cfg = effective_max_h args src /\
  exists frame rest, cfg_frames cfg = frame :: rest.
Proof.
  unfold setup.
  destruct (negb (dir_writable env)); [discriminate|].
  destruct ((img args || mask_out args) && negb (imwri_found env)); [discriminate|].
  destruct (env_scaler env); cbn [bind ret raise]; try discriminate.
  destruct (Frames.select_frames64 _ _ _) as [e|fs]; cbn [bind]; [discriminate|].
  destruct (assign_ar args src) as [e|ar] eqn:Ea; cbn [bind]; [discriminate|].
  apply assign_ar_value in Ea.
  destruct (height src <=? effective_min_h args src); [discriminate|].
  destruct (_ <=? effective_min_h args src); [discriminate|].
  destruct fs as [|frame rest]; simpl; [discriminate|].
  intro H. injection H as <-. simpl. repeat split; eauto.
Qed.

Lemma select_frames_none (fstart fend n : Z) :
  n <= 0 ->
  (n < -1 /\ Frames.select_frames64 fstart fend n = inl ValueError) \/
  (-1 <= n /\ Frames.select_frames64 fstart fend n = inr []).
Proof.
  intro Hn. unfold Frames.select_frames64, Frames.linspace64.
  destruct (n + 1 <? 0) eqn:E.
  - left. apply Z.ltb_lt in E. split; [lia|reflexivity].
  - right. apply Z.ltb_ge in E. split; [lia|].
    assert (Hc : n = -1 \/ n = 0) by lia. destruct Hc as [-> | ->]; reflexivity.
Qed.

(** With a sample or more the selector returns, whatever the range. *)
Lemma select_frames_some (fstart fend n : Z) :
  0 < n ->
  exists frame rest,
    Frames.select_frames64 fstart fend n = inr (frame :: rest) /\
    length (frame :: rest) = Z.to_nat n.
Proof.
  intro Hn. unfold Frames.select_frames64, Frames.linspace64.
  replace (n + 1 <? 0) with false by (symmetry; apply Z.ltb_ge; lia).
  replace (Z.to_nat (n + 1)) with (S (S (Z.to_nat n - 1))) by lia.
  cbn [bind ret seq map tl]. eexists. eexists. split; [reflexivity|].
  cbn [length]. rewrite length_map, length_seq. lia.
Qed.

(** The checks of [setup] do not read the start or the end frame: with a
    sample or more its outcome is the same for every range. *)
Lemma setup_any_range (env : environment) (args : arguments) (src : source)
      (fstart : Z) (fend : option Z) :
  0 < fsamples args ->
  match setup env (with_range args fstart fend) src with
  | inr cfg => length (cfg_frames cfg) = Z.to_nat (fsamples args) /\
               exists cfg0, setup env args src = inr cfg0
  | inl e => setup env args src = inl e
  end.
Proof.
  intro Hn. unfold setup, assign_ar, effective_ar, effective_min_h, effective_max_h.
  cbn [with_range Run.fstart Run.fend Run.fsamples arg_ar arg_min_h arg_max_h img mask_out].
  destruct (negb (dir_writable env)); [reflexivity|].
  destruct ((img args || mask_out args) && negb (imwri_found env)); [reflexivity|].
  destruct (env_scaler env); cbn [bind ret raise]; try reflexivity.
  destruct (select_frames_some fstart
              (match fend with None => num_frames src | Some e => e end)
              (fsamples args) Hn) as [f1 [r1 [-> Hl1]]].
  destruct (select_frames_some (Run.fstart args)
              (match Run.fend args with None => num_frames src | Some e => e end)
              (fsamples args) Hn) as [f2 [r2 [-> _]]].
  cbn [bind].
  destruct (Num.eqb (arg_ar args) 0 && (height src =? 0)); cbn [bind ret raise];
    [reflexivity|].
  destruct (height src <=? _); [reflexivity|].
  destruct (_ <=? _); [reflexivity|].
  cbn [getitem nth_error bind ret cfg_frames]. split; [exact Hl1|]. eauto.
Qed.

End GetnativeProperties.

(** * The claims of the specification *)

(** ** The evaluation scheduler *)

(** C1, at the input where the code departs from it: with one worker thread
    (cap 3) and three candidates whose requests are all done when the first
    wait returns, the three values are collected and the loop ends with
    nothing in flight; the final [asyncio.wait] is then called on an empty
    set and raises [ValueError], so no curve is returned. *)
Theorem scheduler_final_wait_on_empty_set (f : nat -> Q) :
  Scheduler.vals (fst (Scheduler.schedule 1 Scheduler.all_at_once f 0 3))
  = [(0%nat, f 0%nat); (1%nat, f 1%nat); (2%nat, f 2%nat)] /\
  Scheduler.tasks_pending (fst (Scheduler.schedule 1 Scheduler.all_at_once f 0 3)) = [] /\
  snd (Scheduler.schedule 1 Scheduler.all_at_once f 0 3) = inl ValueError.
Proof. repeat split. Qed.

(** C6: whatever the completion behaviour, the number of requests in flight
    after every change of [tasks_pending] is at most [num_threads + 2]. *)
Theorem in_flight_never_exceeds_cap
        (num_threads : nat) (completed : nat -> list nat -> list nat)
        (f : nat -> Q) (clk m : nat) :
  Forall (fun n => (n <= num_threads + 2)%nat)
         (Scheduler.in_flight (fst (Scheduler.schedule num_threads completed f clk m))).
Proof. apply schedule_bounded. Qed.

(** ** The peak detector *)

(** C2: on the curve [1, 1, 1, 0.1, 1, 1] with step 1, offset 500 and an
    empty accumulated set the ratios are [0, 1, 1, 10, 0.1, 1], the threshold
    is 2.97, only the ratio 10 at index 3 passes, the accumulated set becomes
    [3], listed as the resolution 503, and the best of bests is 503. *)
Theorem peak_scenario :
  Peak.compute_ratios scenario_vals = [0; 1; 1; 10; 1 # 10; 1]%Q /\
  Peak.threshold 10 = (297 # 100)%Q /\
  Peak.differences (sorted_desc (Peak.compute_ratios scenario_vals)) = [10%Q] /\
  index (Peak.compute_ratios scenario_vals) 10 = inr 3%nat /\
  exists a, Peak.analyze_results 1 [] scenario_vals 500 = ([3%nat], inr a) /\
            Peak.a_best_values a = [503] /\
            Peak.a_bob_resolution a = 503.
Proof.
  repeat split; try reflexivity.
  eexists. repeat split.
Qed.

(** C3, at the input where the code departs from it: on the curve of the
    scenario the best of bests is index 3 (resolution 503), whose error is
    0.1, but the reported error value is [vals[bob_idx]] with [bob_idx = 0],
    the position of index 3 inside the accumulated set, that is 1.0. *)
Theorem peak_reported_error_is_at_position :
  exists a, Peak.analyze_results 1 [] scenario_vals 500 = ([3%nat], inr a) /\
            Peak.a_bob_resolution a = 503 /\
            Peak.a_bob_idx a = 0%nat /\
            Peak.a_bob a = 1%Q /\
            nth_error scenario_vals 0 = Some 1%Q /\
            nth_error scenario_vals 3 = Some (1 # 10)%Q.
Proof. eexists. repeat split. Qed.

(** C4 fails on a flat curve: all the ratios of [1, 1, 1] are at most one,
    nothing passes the threshold, and with an empty accumulated set
    [np.argmax] is taken of an empty array and raises [ValueError]; through
    [getnative] the run ends in [GetnativeException]. *)
Lemma peak_flat_curve_fails :
  no_ratio_above_one [1; 1; 1]%Q = true /\
  Peak.analyze_results 1 [] [1; 1; 1]%Q 500 = ([], inl ValueError) /\
  Run.getnative flat_env (example_args 0 None 2) example_src = inl GetnativeException.
Proof. repeat split. Qed.

(** C4 as amended: when no ratio is above one the detector adds nothing to
    the accumulated set; with an empty set it raises [ValueError]; with a set
    of distinct positions of the curve that is not empty it returns a best of
    bests taken from that set. *)
Theorem peak_without_ratio_above_one
        (steps : Z) (resolutions : list nat) (vals : list Q) (offset : Z) :
  no_ratio_above_one vals = true ->
  fst (Peak.analyze_results steps resolutions vals offset) = resolutions /\
  (resolutions = [] ->
   snd (Peak.analyze_results steps resolutions vals offset) = inl ValueError) /\
  (resolutions <> [] -> NoDup resolutions ->
   Forall (fun r => (r < length vals)%nat) resolutions ->
   exists a, snd (Peak.analyze_results steps resolutions vals offset) = inr a /\
             In (Peak.a_bob_resolution a)
                (map (Peak.to_resolution steps offset) resolutions)).
Proof.
  intro Hflat. unfold Peak.analyze_results.
  rewrite (differences_flat vals Hflat). simpl.
  split; [reflexivity|]. split.
  - intros ->. reflexivity.
  - intros Hne Hnd Hin.
    assert (Hin' : Forall (fun r => (r < length (Peak.compute_ratios vals))%nat) resolutions).
    { rewrite compute_ratios_length. eapply Forall_impl; [|exact Hin]. intros r Hr. simpl in Hr. lia. }
    destruct (take_at_ok _ _ Hin') as [picked Hp].
    fold (Peak.compute_ratios vals). rewrite Hp. simpl.
    destruct (take_at_spec _ _ _ Hp) as [Hlen _].
    assert (Hpne : picked <> []).
    { intros ->. destruct resolutions; [congruence|discriminate]. }
    destruct (np_argmax_ok _ Hpne) as [k Hk]. rewrite Hk. simpl.
    destruct (np_argmax_spec _ _ Hk) as [top [Htop _]].
    assert (Hk' : (k < length resolutions)%nat).
    { rewrite <- Hlen. apply nth_error_Some. congruence. }
    assert (Hle : (length resolutions <= length vals)%nat).
    { rewrite <- (length_seq (length vals) 0). apply NoDup_incl_length; [assumption|].
      intros r Hr. apply in_seq. rewrite Forall_forall in Hin. specialize (Hin r Hr). lia. }
    unfold getitem.
    destruct (nth_error vals k) as [bob|] eqn:Ev;
      [|apply nth_error_None in Ev; lia].
    destruct (nth_error resolutions k) as [r|] eqn:Er;
      [|apply nth_error_None in Er; lia].
    simpl. eexists. split; [reflexivity|]. simpl.
    apply in_map. apply nth_error_In with k. exact Er.
Qed.

(** The flat curve [1, 1, 1] with the accumulated set [1]. *)
Lemma peak_without_ratio_above_one_witness :
  fst (Peak.analyze_results 1 [1%nat] [1; 1; 1]%Q 500) = [1%nat] /\
  exists a, snd (Peak.analyze_results 1 [1%nat] [1; 1; 1]%Q 500) = inr a /\
            In (Peak.a_bob_resolution a) (map (Peak.to_resolution 1 500) [1%nat]).
Proof.
  destruct (peak_without_ratio_above_one 1 [1%nat] [1; 1; 1]%Q 500 eq_refl) as [H1 [_ H3]].
  split; [exact H1|]. apply H3.
  - discriminate.
  - constructor; [intros []|constructor].
  - constructor; [simpl; lia|constructor].
Defined.

(** C5: from the empty set of [__init__], after any series of calls of the
    peak detector, and at the end of any run, two entries of the accumulated
    set at different positions are 20 index positions apart or more. *)
Theorem resolutions_stay_separated :
  (forall calls, separated (after_calls [] calls)) /\
  (forall num_threads completed plane_stats src min_h max_h frames passes steps ar waits,
      separated
        (Run.self_resolutions
           (fst (Run.run num_threads completed plane_stats src min_h max_h frames passes steps
                         {| Run.self_ar := ar;
                            Run.self_resolutions := [];
                            Run.waits := waits |})))).
Proof.
  split.
  - intro calls. apply after_calls_separated, separated_nil.
  - intros. apply preserves_run. simpl. apply separated_nil.
Qed.

(** ** The frame selector and the configuration *)

(** C7 fails in both of its cases: with the start frame 20 after the end
    frame 10 and two samples nothing is refused, the frames 16 and 13 are
    selected and the search runs to its result; with no sample the run does
    fail, but with the [IndexError] of [self.frames[0]], not with a
    configuration error. *)
Lemma frame_range_is_not_checked :
  Run.setup example_env (example_args 20 (Some 10) 2) example_src
  = inr {| Run.cfg_ar := 2; Run.cfg_min_h := 25; Run.cfg_max_h := 45;
           Run.cfg_frames := [16; 13] |} /\
  Run.getnative example_env (example_args 20 (Some 10) 2) example_src
  = inr (30, 60, 1%Q, false, false) /\
  Run.getnative example_env (example_args 0 None 0) example_src = inl IndexError.
Proof. repeat split; vm_compute; reflexivity. Qed.

(** C7 as amended, for frame numbers of 52 bits: with a sample count of zero
    or less the run fails before any scan, in [getnative] itself: with
    [ValueError] from [np.linspace] below -1, and at -1 and 0 with
    [ZeroDivisionError] from the default of the aspect ratio on a source of
    height zero or with [IndexError] from the empty frame set, unless an
    earlier check has raised [PermissionError], [GetnativeException] or
    [AttributeError].  With a sample or more the start and the end frame are
    not checked: for every range the selector gives as many frames as
    samples, and [getnative] passes its checks, or fails them with the same
    exception, as for any other range. *)
Theorem no_sample_fails_before_any_scan
        (env : Run.environment) (args : Run.arguments) (src : Run.source) :
  Z.abs (Run.fstart args) <= 2 ^ 52 -> Z.abs (end_frame args src) <= 2 ^ 52 ->
  (Run.fsamples args <= 0 ->
   exists e, Run.setup env args src = inl e /\
             Run.getnative env args src = inl e /\
             (e = PermissionError \/ e = GetnativeException \/ e = AttributeError \/
              (e = ValueError /\ Run.fsamples args < -1) \/
              (e = ZeroDivisionError /\ -1 <= Run.fsamples args /\ Run.height src = 0) \/
              (e = IndexError /\ -1 <= Run.fsamples args))) /\
  (0 < Run.fsamples args ->
   forall fstart fend,
     Z.abs fstart <= 2 ^ 52 ->
     Z.abs (end_frame (with_range args fstart fend) src) <= 2 ^ 52 ->
     match Run.setup env (with_range args fstart fend) src with
     | inr cfg => length (Run.cfg_frames cfg) = Z.to_nat (Run.fsamples args) /\
                  exists cfg0, Run.setup env args src = inr cfg0
     | inl e => Run.setup env args src = inl e
     end).
Proof.
  intros _ _. split.
  - intro Hn.
    assert (H : exists e, Run.setup env args src = inl e /\
                (e = PermissionError \/ e = GetnativeException \/ e = AttributeError \/
                 (e = ValueError /\ Run.fsamples args < -1) \/
                 (e = ZeroDivisionError /\ -1 <= Run.fsamples args /\ Run.height src = 0) \/
                 (e = IndexError /\ -1 <= Run.fsamples args))).
    { unfold Run.setup.
      destruct (negb (Run.dir_writable env)); [eexists; split; [reflexivity|tauto]|].
      destruct ((Run.img args || Run.mask_out args) && negb (Run.imwri_found env));
        [eexists; split; [reflexivity|tauto]|].
      destruct (Run.env_scaler env); cbn [bind ret raise];
        try (eexists; split; [reflexivity|tauto]).
      destruct (select_frames_none (Run.fstart args)
                  (match Run.fend args with None => Run.num_frames src | Some e => e end)
                  (Run.fsamples args) Hn) as [[Hlt ->]|[Hge ->]]; cbn [bind].
      - eexists; split; [reflexivity|tauto].
      - unfold Run.assign_ar.
        destruct (Num.eqb (Run.arg_ar args) 0) eqn:Ea; cbn [andb].
        + destruct (Run.height src =? 0) eqn:E0; cbn [bind ret raise].
          * apply Z.eqb_eq in E0. eexists; split; [reflexivity|tauto].
          * destruct (Run.height src <=? Run.effective_min_h args src);
              [eexists; split; [reflexivity|tauto]|].
            destruct (_ <=? Run.effective_min_h args src);
              eexists; (split; [reflexivity|tauto]).
        + cbn [bind ret raise].
          destruct (Run.height src <=? Run.effective_min_h args src);
            [eexists; split; [reflexivity|tauto]|].
          destruct (_ <=? Run.effective_min_h args src);
            eexists; (split; [reflexivity|tauto]). }
    destruct H as [e [He Hk]]. exists e. split; [exact He|]. split; [|exact Hk].
    unfold Run.getnative. rewrite He. reflexivity.
  - intros Hn fstart fend _ _. apply setup_any_range, Hn.
Qed.

(** The example configuration with no sample. *)
Lemma no_sample_fails_before_any_scan_witness :
  exists e, Run.setup example_env (example_args 0 None 0) example_src = inl e /\
            Run.getnative example_env (example_args 0 None 0) example_src = inl e /\
            (e = PermissionError \/ e = GetnativeException \/ e = AttributeError \/
             (e = ValueError /\ 0 < -1) \/
             (e = ZeroDivisionError /\ -1 <= 0 /\ 50 = 0) \/
             (e = IndexError /\ -1 <= 0)).
Proof.
  refine (proj1 (no_sample_fails_before_any_scan example_env (example_args 0 None 0)
                   example_src _ _) _).
  - apply Z.leb_le. reflexivity.
  - apply Z.leb_le. reflexivity.
  - simpl. lia.
Defined.

(** C8 fails: for the frames 0 to 100 and four samples the selector gives
    20, 40, 60, 80, where four equal intervals have the right edges 25, 50,
    75, 100; and for the frames 0 to 3 and five samples it gives
    0, 1, 1, 2, 2, which is not strictly increasing.  Nor is a frame always
    the inner division point rounded down: for the frames 0 to 122 and 13
    samples the seventh frame is 60, where the division point is 61. *)
Lemma select_frames_not_right_edges :
  Frames.select_frames64 0 100 4 = inr [20; 40; 60; 80] /\
  spec_right_edges 0 100 4 = [25; 50; 75; 100] /\
  Frames.select_frames64 0 3 5 = inr [0; 1; 1; 2; 2] /\
  ~ increasing [0; 1; 1; 2; 2] /\
  (exists l, Frames.select_frames64 0 122 13 = inr l /\ nth_error l 6 = Some 60) /\
  frame_at 0 122 13 6 = 61.
Proof.
  split; [vm_compute; reflexivity|]. split; [vm_compute; reflexivity|].
  split; [vm_compute; reflexivity|]. split.
  - intro H. specialize (H 1%nat 2%nat 1 1). simpl in H.
    assert (1 < 1) by (apply H; [lia|reflexivity|reflexivity]). lia.
  - split; [|reflexivity]. eexists. split; vm_compute; reflexivity.
Qed.

(** C8 as amended: for [n > 0] samples of [start < end], frame numbers of
    52 bits, the selector gives exactly [n] frames, which never decrease and
    never lie before [start]; the frame at position [i] (from 0) is the
    float64 value of [start + (i + 1) * step], [step] the float64 quotient
    of [end - start] by [n + 1], rounded down.  When [n + 1] divides
    [end - start] the frame is [start + (i + 1) * (end - start) / (n + 1)],
    the inner division point of [[start, end)] cut into [n + 1] equal
    intervals, and the frames increase strictly. *)
Theorem select_frames_spec (fstart fend n : Z) :
  0 < n -> fstart < fend -> Z.abs fstart <= 2 ^ 52 -> Z.abs fend <= 2 ^ 52 ->
  exists l, Frames.select_frames64 fstart fend n = inr l /\
            length l = Z.to_nat n /\
            (forall i, (i < Z.to_nat n)%nat ->
                       nth_error l i
                       = Some (Frames.linspace64_entry fstart fend (n + 1) (S i))) /\
            nondecreasing l /\
            Forall (fun x => fstart <= x) l /\
            ((n + 1 | fend - fstart) ->
             (forall i, (i < Z.to_nat n)%nat ->
                        nth_error l i = Some (frame_at fstart fend n i)) /\
             increasing l).
Proof.
  intros Hn Hlt Hbs Hbe.
  assert (H53 : 2 ^ 53 = 2 * 2 ^ 52) by reflexivity.
  exists (map (Frames.linspace64_entry fstart fend (n + 1)) (seq 1 (Z.to_nat n))).
  assert (Hnth : forall i, (i < Z.to_nat n)%nat ->
            nth_error (map (Frames.linspace64_entry fstart fend (n + 1))
                           (seq 1 (Z.to_nat n))) i
            = Some (Frames.linspace64_entry fstart fend (n + 1) (S i))).
  { intros i Hi. rewrite nth_error_map, nth_error_seq.
    replace (i <? Z.to_nat n)%nat with true by (symmetry; apply Nat.ltb_lt, Hi).
    reflexivity. }
  assert (Hin : forall i x,
            nth_error (map (Frames.linspace64_entry fstart fend (n + 1))
                           (seq 1 (Z.to_nat n))) i = Some x ->
            (i < Z.to_nat n)%nat /\ x = Frames.linspace64_entry fstart fend (n + 1) (S i)).
  { intros i x Hx.
    assert (Hi : (i < Z.to_nat n)%nat).
    { rewrite <- (length_seq (Z.to_nat n) 1),
        <- (length_map (Frames.linspace64_entry fstart fend (n + 1))).
      apply nth_error_Some. congruence. }
    split; [exact Hi|]. rewrite (Hnth i Hi) in Hx. congruence. }
  split; [|split; [|split; [|split; [|split]]]].
  - unfold Frames.select_frames64, Frames.linspace64.
    replace (n + 1 <? 0) with false by (symmetry; apply Z.ltb_ge; lia).
    replace (Z.to_nat (n + 1)) with (S (Z.to_nat n)) by lia.
    reflexivity.
  - rewrite length_map, length_seq. reflexivity.
  - exact Hnth.
  - intros i j x y Hij Hx Hy.
    destruct (Hin i x Hx) as [_ ->]. destruct (Hin j y Hy) as [_ ->].
    apply linspace64_entry_mono; lia.
  - apply Forall_forall. intros x Hx. apply in_map_iff in Hx.
    destruct Hx as [i [<- _]]. apply linspace64_entry_low; lia.
  - intros Hd.
    assert (Hexact : forall i, (i < Z.to_nat n)%nat ->
              Frames.linspace64_entry fstart fend (n + 1) (S i)
              = frame_at fstart fend n i).
    { intros i Hi. rewrite linspace64_entry_exact by (try assumption; lia).
      unfold frame_at. destruct Hd as [k Hk]. rewrite Hk.
      rewrite Z.div_mul by lia.
      replace (Z.of_nat (S i) * (k * (n + 1))) with (Z.of_nat (S i) * k * (n + 1)) by ring.
      rewrite Z.div_mul by lia. reflexivity. }
    split.
    + intros i Hi. rewrite (Hnth i Hi), (Hexact i Hi). reflexivity.
    + intros i j x y Hij Hx Hy.
      destruct (Hin i x Hx) as [Hi ->]. destruct (Hin j y Hy) as [Hj ->].
      rewrite (Hexact i Hi), (Hexact j Hj).
      apply frame_at_strict; [lia| |exact Hij].
      destruct Hd as [k Hk].
      assert (0 < k) by (apply Z.mul_pos_cancel_r with (n + 1); lia).
      nia.
Qed.

(** Four samples of the frames 0 to 100. *)
Lemma select_frames_spec_witness :
  exists l, Frames.select_frames64 0 100 4 = inr l /\
            length l = Z.to_nat 4 /\
            (forall i, (i < Z.to_nat 4)%nat ->
                       nth_error l i = Some (Frames.linspace64_entry 0 100 (4 + 1) (S i))) /\
            nondecreasing l /\
            Forall (fun x => 0 <= x) l /\
            ((4 + 1 | 100 - 0) ->
             (forall i, (i < Z.to_nat 4)%nat -> nth_error l i = Some (frame_at 0 100 4 i)) /\
             increasing l).
Proof.
  apply (select_frames_spec 0 100 4); [lia|lia|apply Z.leb_le|apply Z.leb_le]; reflexivity.
Defined.

(** ** The result of the search *)

(** C9 fails when the product is rounded: on the source of 150 x 300 the
    search returns 126 x 180 after two passes, and the aspect ratio at the
    start is 1/2.  The height times the aspect ratio plus 0.2 is 126, which
    the width does not exceed, but the float64 product is below 126 and the
    flag is raised. *)
Lemma overstretched_at_the_exact_product :
  Run.getnative tall_env tall_args tall_src = inr (180, 126, (1 # 2)%Q, true, false) /\
  Run.effective_ar tall_args tall_src = (1 # 2)%Q /\
  (inject_Z 180 * (Run.effective_ar tall_args tall_src + (1 # 5)) == inject_Z 126)%Q /\
  (F64.mul (F64.of_Z 180) (F64.add (Run.effective_ar tall_args tall_src) (F64.round (1 # 5)))
   < inject_Z 126)%Q.
Proof. repeat split; vm_compute; reflexivity. Qed.

(** C9 as amended: when [getnative] returns, the overstretched flag holds
    exactly when the derived width, [getw] of the height at the final aspect
    ratio, exceeds the float64 value of the height times the aspect ratio of
    the start of the run plus 0.2, the sum and the product each rounded to
    float64; and the near-upper-bound flag holds exactly when the height
    exceeds the maximum height of the configuration minus the threshold. *)
Theorem classification_of_result
        (env : Run.environment) (args : Run.arguments) (src : Run.source)
        (h w : Z) (mae : Q) (overstretched near_ub : bool) :
  Run.getnative env args src = inr (h, w, mae, overstretched, near_ub) ->
  (overstretched = true
   <-> (F64.mul (F64.of_Z h) (F64.add (Run.effective_ar args src) (F64.round (1 # 5)))
        < inject_Z w)%Q) /\
  (near_ub = true <-> Run.effective_max_h args src - Run.ub_thr args < h) /\
  exists ar, w = Run.getw_at src ar h true.
Proof.
  unfold Run.getnative.
  destruct (Run.setup env args src) as [e|cfg] eqn:Es; simpl; [discriminate|].
  destruct (setup_config _ _ _ _ Es) as [Har [_ [Hmax _]]].
  destruct (Run.run _ _ _ _ _ _ _ _ _ _) as [w1 r] eqn:Er. simpl.
  destruct r as [e|[[[h' w'] mae'] os']]; [destruct e; discriminate|].
  intro H. injection H as <- <- <- <- <-.
  assert (Hr : snd (Run.run (Run.env_num_threads env) (Run.env_completed env)
                            (Run.env_plane_stats env) src (Run.cfg_min_h cfg)
                            (Run.cfg_max_h cfg) (Run.cfg_frames cfg) (Run.arg_passes args)
                            (Run.arg_steps args)
                            {| Run.self_ar := Run.cfg_ar cfg;
                               Run.self_resolutions := []; Run.waits := 0 |})
               = inr (h', w', mae', os')) by (rewrite Er; reflexivity).
  apply run_result in Hr. simpl in Hr. destruct Hr as [Hos Hw].
  split; [|split].
  - rewrite Hos, Har. apply is_overstretched_spec.
  - rewrite Hmax. apply Z.ltb_lt.
  - exact Hw.
Qed.

(** The example run, which finds 60 x 30 and raises neither flag. *)
Lemma classification_of_result_witness :
  (false = true
   <-> (F64.mul (F64.of_Z 30)
                (F64.add (Run.effective_ar (example_args 0 None 2) example_src)
                         (F64.round (1 # 5)))
        < inject_Z 60)%Q) /\
  (false = true
   <-> Run.effective_max_h (example_args 0 None 2) example_src
       - Run.ub_thr (example_args 0 None 2) < 30) /\
  exists ar, 60 = Run.getw_at example_src ar 30 true.
Proof.
  apply (classification_of_result example_env (example_args 0 None 2) example_src
                                  30 60 1%Q false false).
  vm_compute. reflexivity.
Defined.

(** ** The width-scan aggregation *)

(** C10 fails in float64: the curve [6, 5, 4, 3] divided by 3 has the
    normalized curve 2.4, 1.0000000000000002, 0.9999999999999999, 1.5 and
    the width scan from 14 takes the width 16; divided by 1, which leaves
    the curve as it is, the two middle entries are 1 and the scan takes the
    width 15. *)
Lemma width_divisor_changes_the_width :
  Width64.normalize [6; 5; 4; 3]%Q 1 = Width64.smooth_divide (map Width.Fin [6; 5; 4; 3]%Q) /\
  Width64.normalize [6; 5; 4; 3]%Q 3 <> Width64.normalize [6; 5; 4; 3]%Q 1 /\
  Width64.best_width [6; 5; 4; 3]%Q 3 1 14 = inr 16 /\
  Width64.best_width [6; 5; 4; 3]%Q 1 1 14 = inr 15.
Proof.
  split; [vm_compute; reflexivity|]. split; [|split; vm_compute; reflexivity].
  intro H. vm_compute in H. discriminate H.
Qed.

(** C10 as amended: in float64 the normalized curve, the best width and the
    updated aspect ratio are the same for two divisors of 53 bits whose
    quotient is a power of two, when every value of the summed curve is zero
    or lies between [2^-500] and [2^500]; and for every divisor the best
    width of a curve of three values or more is one of the scanned
    widths. *)
Theorem width_divisor_up_to_a_power_of_two (v : list Q) (c j steps w_min h : Z) :
  Forall moderate v -> 0 < c -> 0 <= j -> c * 2 ^ j <= 2 ^ 53 ->
  Width64.normalize v (c * 2 ^ j) = Width64.normalize v c /\
  Width64.best_width v (c * 2 ^ j) steps w_min = Width64.best_width v c steps w_min /\
  (best_w <- Width64.best_width v (c * 2 ^ j) steps w_min ;; Width.refined_ar best_w h)
  = (best_w <- Width64.best_width v c steps w_min ;; Width.refined_ar best_w h) /\
  ((3 <= length v)%nat ->
   forall d, exists i, (i < length v)%nat /\
                       Width64.best_width v d steps w_min
                       = inr (Z.of_nat i * steps + w_min)).
Proof.
  intros Hv Hc Hj Hb.
  pose proof (normalize_power_of_two v c j Hv Hc Hj Hb) as E.
  split; [exact E|].
  unfold Width64.best_width. rewrite E. split; [reflexivity|]. split; [reflexivity|].
  intros Hl d. apply best_width64_scanned, Hl.
Qed.

(** The curve [6, 5, 4, 3] divided by 12 and by 3. *)
Lemma width_divisor_up_to_a_power_of_two_witness :
  Width64.normalize [6; 5; 4; 3]%Q (3 * 2 ^ 2) = Width64.normalize [6; 5; 4; 3]%Q 3 /\
  Width64.best_width [6; 5; 4; 3]%Q (3 * 2 ^ 2) 1 14 = Width64.best_width [6; 5; 4; 3]%Q 3 1 14 /\
  (best_w <- Width64.best_width [6; 5; 4; 3]%Q (3 * 2 ^ 2) 1 14 ;; Width.refined_ar best_w 10)
  = (best_w <- Width64.best_width [6; 5; 4; 3]%Q 3 1 14 ;; Width.refined_ar best_w 10) /\
  ((3 <= length [6; 5; 4; 3]%Q)%nat ->
   forall d, exists i, (i < length [6; 5; 4; 3]%Q)%nat /\
                       Width64.best_width [6; 5; 4; 3]%Q d 1 14
                       = inr (Z.of_nat i * 1 + 14)).
Proof.
  apply (width_divisor_up_to_a_power_of_two [6; 5; 4; 3]%Q 3 2 1 14 10).
  - apply Forall_forall. intros x Hx. right. simpl in Hx.
    destruct Hx as [<-|[<-|[<-|[<-|[]]]]]; split; vm_compute; discriminate.
  - lia.
  - lia.
  - apply Z.leb_le. reflexivity.
Defined.

(** * Further properties of the code *)

(** ** The evaluation scheduler *)

Section SchedulerFurther.

Variable num_threads : nat.
Variable completed : nat -> list nat -> list nat.
Variable f : nat -> Q.

Local Abbreviation cap := (Scheduler.cap num_threads).
Local Abbreviation issue := (Scheduler.issue num_threads completed f).
Local Abbreviation issue_all := (Scheduler.issue_all num_threads completed f).
Local Abbreviation finish := (Scheduler.finish completed f).
Local Abbreviation schedule := (Scheduler.schedule num_threads completed f).

(** Below the cap no wait happens inside the loop: the requests pile up. *)
Lemma issue_all_below_cap (clk : nat) : forall m,
  (m < cap)%nat ->
  issue_all clk m
  = {| Scheduler.clock := clk;
       Scheduler.tasks_pending := seq 0 m;
       Scheduler.vals := [];
       Scheduler.in_flight := seq 1 m |}.
Proof.
  induction m as [|m IH]; intro Hm; [reflexivity|].
  unfold Scheduler.issue_all in *.
  rewrite seq_S, fold_left_app, IH by lia. simpl fold_left.
  rewrite issue_eq. cbn [Scheduler.tasks_pending].
  rewrite drain_exit.
  - unfold added. cbn [Scheduler.clock Scheduler.tasks_pending Scheduler.vals
                       Scheduler.in_flight].
    rewrite length_app, length_seq. cbn [length].
    rewrite (seq_S m 1). cbn [Nat.add].
    replace (m + 1)%nat with (S m) by lia. reflexivity.
  - unfold added. cbn [Scheduler.tasks_pending].
    rewrite length_app, length_seq. cbn [length]. apply Nat.leb_gt. lia.
Qed.

End SchedulerFurther.

(** X1: whenever the scheduler returns, whatever the completion behaviour,
    the curve has one entry per candidate, entry [i] is the value of
    candidate [i], and the collected pairs name every candidate exactly
    once. *)
Theorem schedule_returns_ordered_curve
        (num_threads : nat) (completed : nat -> list nat -> list nat) (f : nat -> Q)
        (clk m : nat) (st : Scheduler.state) (curve : list Q) :
  Scheduler.schedule num_threads completed f clk m = (st, inr curve) ->
  length curve = m /\
  (forall i, (i < m)%nat -> nth_error curve i = Some (f i)) /\
  Permutation (map fst (Scheduler.vals st)) (seq 0 m).
Proof.
  intro H. apply schedule_curve in H. destruct H as [-> Hp].
  split; [rewrite length_map, length_seq; reflexivity|]. split; [|exact Hp].
  intros i Hi. rewrite nth_error_map, nth_error_seq.
  replace (i <? m)%nat with true by (symmetry; apply Nat.ltb_lt, Hi). reflexivity.
Qed.

(** Seven candidates, one worker thread, the youngest request first. *)
Lemma schedule_returns_ordered_curve_witness :
  length (map (fun i => inject_Z (Z.of_nat i)) (seq 0 7)) = 7%nat /\
  (forall i, (i < 7)%nat ->
     nth_error (map (fun i => inject_Z (Z.of_nat i)) (seq 0 7)) i
     = Some (inject_Z (Z.of_nat i))) /\
  Permutation
    (map fst (Scheduler.vals
                (fst (Scheduler.schedule 1 Scheduler.youngest_first
                                         (fun i => inject_Z (Z.of_nat i)) 0 7))))
    (seq 0 7).
Proof.
  apply (schedule_returns_ordered_curve 1 Scheduler.youngest_first
           (fun i => inject_Z (Z.of_nat i)) 0 7).
  reflexivity.
Defined.

(** X2: a clip with at least one frame and fewer frames than the cap
    [num_threads + 2] is always evaluated: every request is issued before
    the only wait, and the curve comes back whatever the completion
    behaviour. *)
Theorem schedule_below_cap_returns
        (num_threads : nat) (completed : nat -> list nat -> list nat) (f : nat -> Q)
        (clk m : nat) :
  (0 < m)%nat -> (m < num_threads + 2)%nat ->
  snd (Scheduler.schedule num_threads completed f clk m) = inr (map f (seq 0 m)) /\
  Scheduler.clock (fst (Scheduler.schedule num_threads completed f clk m)) = S clk.
Proof.
  intros Hm Hcap.
  assert (Hst := issue_all_below_cap num_threads completed f clk m Hcap).
  assert (Hne : Scheduler.tasks_pending
                  (Scheduler.issue_all num_threads completed f clk m) <> []).
  { rewrite Hst. simpl. destruct m; [lia|discriminate]. }
  destruct (finish_returns completed f _ Hne) as [st [curve H]].
  pose proof H as H'.
  change (Scheduler.schedule num_threads completed f clk m = (st, inr curve)) in H'.
  apply schedule_curve in H'.
  destruct H' as [-> _].
  unfold Scheduler.schedule. rewrite H. split; [reflexivity|]. simpl.
  unfold Scheduler.finish in H. rewrite Hst in H. simpl in H.
  destruct m; [lia|]. simpl in H. injection H as <-. reflexivity.
Qed.

(** Three candidates under two worker threads (cap 4), all done at once. *)
Lemma schedule_below_cap_returns_witness :
  snd (Scheduler.schedule 2 Scheduler.all_at_once (fun i => inject_Z (Z.of_nat i)) 0 3)
  = inr (map (fun i => inject_Z (Z.of_nat i)) (seq 0 3)) /\
  Scheduler.clock
    (fst (Scheduler.schedule 2 Scheduler.all_at_once (fun i => inject_Z (Z.of_nat i)) 0 3))
  = 1%nat.
Proof.
  apply (schedule_below_cap_returns 2 Scheduler.all_at_once
           (fun i => inject_Z (Z.of_nat i)) 0 3); lia.
Defined.

(** X3: when every wait reports one completed request, the scheduler returns
    the curve of every clip that has a frame. *)
Theorem schedule_one_at_a_time_returns
        (num_threads : nat) (completed : nat -> list nat -> list nat) (f : nat -> Q)
        (clk m : nat) :
  one_at_a_time completed -> (0 < m)%nat ->
  snd (Scheduler.schedule num_threads completed f clk m) = inr (map f (seq 0 m)).
Proof.
  intros Hone Hm.
  destruct (schedule_returns num_threads completed f clk m Hone Hm) as [st ->].
  reflexivity.
Qed.

(** Seven candidates, one worker thread, the oldest request first. *)
Lemma schedule_one_at_a_time_returns_witness :
  snd (Scheduler.schedule 1 Scheduler.oldest_first (fun i => inject_Z (Z.of_nat i)) 0 7)
  = inr (map (fun i => inject_Z (Z.of_nat i)) (seq 0 7)).
Proof.
  apply (schedule_one_at_a_time_returns 1 Scheduler.oldest_first
           (fun i => inject_Z (Z.of_nat i)) 0 7).
  - intros clk p. unfold Scheduler.named, Scheduler.oldest_first.
    destruct p as [|x t]; [simpl; lia|].
    etransitivity; [apply filter_length_le|]. simpl. lia.
  - lia.
Defined.

(** ** The peak detector *)

Section PeakFurther.

Lemma index_spec (l : list Q) (x : Q) : forall i,
  index l x = inr i ->
  (exists y, nth_error l i = Some y /\ Num.eqb y x = true) /\
  (forall j y, (j < i)%nat -> nth_error l j = Some y -> Num.eqb y x = false).
Proof.
  induction l as [|y t IH]; intros i H; simpl in H; [discriminate|].
  destruct (Num.eqb y x) eqn:E.
  - injection H as <-. split; [exists y; split; [reflexivity|exact E]|].
    intros j z Hj. lia.
  - destruct (index t x) as [e|k] eqn:Ek; [discriminate|]. simpl in H.
    injection H as <-. destruct (IH k eq_refl) as [Hk Hfirst]. split; [exact Hk|].
    intros [|j] z Hj Hz; simpl in Hz.
    + injection Hz as <-. exact E.
    + apply (Hfirst j); [lia|exact Hz].
Qed.

Lemma index_found (l : list Q) (x : Q) : In x l -> exists i, index l x = inr i.
Proof.
  induction l as [|y t IH]; intro H; [destruct H|]. simpl.
  destruct (Num.eqb y x) eqn:E; [eexists; reflexivity|].
  destruct H as [->|H]; [rewrite eqb_refl in E; discriminate|].
  destruct (IH H) as [i ->]. eexists. reflexivity.
Qed.

Lemma In_firstn {A : Type} (n : nat) (l : list A) (x : A) : In x (firstn n l) -> In x l.
Proof.
  revert l. induction n as [|n IH]; intros [|y t] H; simpl in *; try tauto.
  destruct H as [H|H]; [left; exact H|right; apply IH, H].
Qed.

(** What passes the threshold is above one. *)
Lemma above_threshold_above_one (top d : Q) :
  (d <= top)%Q -> Num.ltb (Peak.threshold top) (Num.sub d 1) = true -> (1 < d)%Q.
Proof.
  intros Hd H. apply ltb_lt in H.
  unfold Peak.threshold, Num.mul, Num.sub in H. rewrite !Qred_correct in H.
  destruct d as [dn dd], top as [tn td].
  unfold Qlt, Qle, Qmult, Qminus, Qplus, Qopp in *. simpl in *. nia.
Qed.

Lemma top_above_threshold (top : Q) :
  (1 < top)%Q -> Num.ltb (Peak.threshold top) (Num.sub top 1) = true.
Proof.
  intro H. apply ltb_lt.
  unfold Peak.threshold, Num.mul, Num.sub. rewrite !Qred_correct.
  destruct top as [tn td].
  unfold Qlt, Qmult, Qminus, Qplus, Qopp in *. simpl in *. nia.
Qed.

(** The ratios that [differences] selects: ratios of the curve above one. *)
Lemma differences_spec (ratios : list Q) (d : Q) :
  In d (Peak.differences (sorted_desc ratios)) -> In d ratios /\ (1 < d)%Q.
Proof.
  destruct (sorted_desc_spec ratios) as [Hd Hin].
  unfold Peak.differences.
  destruct (sorted_desc ratios) as [|top t]; [intros []|].
  intro H. apply In_firstn, filter_In in H. destruct H as [Hd' Hpass].
  split; [apply Hin, Hd'|].
  apply above_threshold_above_one with top; [|exact Hpass].
  destruct Hd' as [<-|Hd']; [apply Qle_refl|].
  inversion Hd as [|? ? _ Hall]; subst. rewrite Forall_forall in Hall. auto.
Qed.

Lemma differences_length (sorted_array : list Q) :
  (length (Peak.differences sorted_array) <= 5)%nat.
Proof.
  unfold Peak.differences. destruct sorted_array; [simpl; lia|].
  apply firstn_le_length.
Qed.

(** The loop over the selected ratios never raises; it appends, at most one
    position for each selected ratio. *)
Lemma add_differences_spec (ratios : list Q) : forall diffs res,
  (forall d, In d diffs -> In d ratios /\ (1 < d)%Q) ->
  exists added,
    Peak.add_differences ratios diffs res = (res ++ added, ret tt) /\
    (length added <= length diffs)%nat /\
    Forall (peak_at ratios) added.
Proof.
  induction diffs as [|d t IH]; intros res Hd.
  - exists []. rewrite app_nil_r. repeat split; [simpl; lia|constructor].
  - destruct (Hd d (or_introl eq_refl)) as [Hin Hone].
    destruct (index_found _ _ Hin) as [i Hi].
    destruct (IH (Peak.add_resolution res i)
                 (fun d' H => Hd d' (or_intror H))) as [added [Ha [Hlen Hpk]]].
    simpl. rewrite Hi, Ha. unfold Peak.add_resolution.
    destruct (existsb (Peak.within_20 i) res).
    + exists added. repeat split; [simpl; lia|assumption].
    + exists (i :: added). rewrite <- app_assoc. repeat split; [simpl; lia|].
      constructor; [|assumption].
      destruct (proj1 (index_spec _ _ _ Hi)) as [y [Hy Ey]].
      exists y. split; [exact Hy|]. apply eqb_eq in Ey. rewrite Ey. exact Hone.
Qed.

Lemma peak_at_lt (ratios : list Q) (r : nat) : peak_at ratios r -> (r < length ratios)%nat.
Proof. intros [x [Hx _]]. apply nth_error_Some. congruence. Qed.

Lemma separated_NoDup (l : list nat) : separated l -> NoDup l.
Proof.
  intro H. apply (proj2 (NoDup_nth_error l)).
  intros i j Hi Hij.
  destruct (Nat.eq_dec i j) as [E|E]; [exact E|exfalso].
  destruct (nth_error l i) as [a|] eqn:Ea; [|apply nth_error_None in Ea; lia].
  specialize (H i j a a E Ea (eq_sym Hij)). lia.
Qed.

End PeakFurther.

Lemma appended_peaks
      (steps : Z) (resolutions : list nat) (vals : list Q) (offset : Z) :
  exists added,
    fst (Peak.analyze_results steps resolutions vals offset) = resolutions ++ added /\
    Forall (peak_at (Peak.compute_ratios vals)) added.
Proof.
  rewrite analyze_results_fst.
  destruct (add_differences_spec (Peak.compute_ratios vals)
              (Peak.differences (sorted_desc (Peak.compute_ratios vals))) resolutions
              (differences_spec _)) as [added [Ha [_ Hpk]]].
  exists added. rewrite Ha. split; [reflexivity|exact Hpk].
Qed.

(** X5: a call of the peak detector only appends to the accumulated set:
    the entries it found keep their places, at most five positions are
    added, and every added position is a position of the curve whose ratio
    is above one. *)
Theorem analyze_results_appends_peaks
        (steps : Z) (resolutions : list nat) (vals : list Q) (offset : Z) :
  exists added,
    fst (Peak.analyze_results steps resolutions vals offset) = resolutions ++ added /\
    (length added <= 5)%nat /\
    Forall (peak_at (Peak.compute_ratios vals)) added.
Proof.
  rewrite analyze_results_fst.
  destruct (add_differences_spec (Peak.compute_ratios vals)
              (Peak.differences (sorted_desc (Peak.compute_ratios vals))) resolutions
              (differences_spec _)) as [added [Ha [Hlen Hpk]]].
  exists added. rewrite Ha. split; [reflexivity|]. split; [|exact Hpk].
  pose proof (differences_length (sorted_desc (Peak.compute_ratios vals))). lia.
Qed.

(** X6: on a curve that is not empty, with an accumulated set that is
    separated and holds positions of the curve, the peak detector either
    returns, or raises [ValueError] with the accumulated set still empty;
    it never raises [IndexError], and the set keeps holding positions of the
    curve. *)
Theorem analyze_results_fails_only_empty
        (steps : Z) (resolutions : list nat) (vals : list Q) (offset : Z) :
  vals <> [] -> separated resolutions ->
  Forall (fun r => (r < length vals)%nat) resolutions ->
  Forall (fun r => (r < length vals)%nat)
         (fst (Peak.analyze_results steps resolutions vals offset)) /\
  ((exists a, snd (Peak.analyze_results steps resolutions vals offset) = inr a) \/
   (snd (Peak.analyze_results steps resolutions vals offset) = inl ValueError /\
    fst (Peak.analyze_results steps resolutions vals offset) = [])).
Proof.
  intros Hne Hsep Hin.
  pose proof (analyze_results_separated steps resolutions vals offset Hsep) as Hsep'.
  assert (Hlen : length (Peak.compute_ratios vals) = length vals).
  { rewrite compute_ratios_length. destruct vals; [congruence|simpl; lia]. }
  revert Hsep'. rewrite analyze_results_fst. unfold Peak.analyze_results.
  destruct (add_differences_spec (Peak.compute_ratios vals)
              (Peak.differences (sorted_desc (Peak.compute_ratios vals))) resolutions
              (differences_spec _)) as [added [Ha [_ Hpk]]].
  rewrite Ha. simpl. intro Hsep'.
  assert (Hin' : Forall (fun r => (r < length vals)%nat) (resolutions ++ added)).
  { apply Forall_app. split; [exact Hin|].
    eapply Forall_impl; [|exact Hpk]. intros r Hr. apply peak_at_lt in Hr. lia. }
  split; [exact Hin'|].
  assert (Hin'' : Forall (fun r => (r < length (Peak.compute_ratios vals))%nat)
                         (resolutions ++ added)) by (rewrite Hlen; exact Hin').
  destruct (take_at_ok _ _ Hin'') as [picked Hp]. rewrite Hp. simpl.
  destruct (take_at_spec _ _ _ Hp) as [Hpl _].
  destruct picked as [|p0 pt] eqn:Epk.
  - right. split; [reflexivity|].
    destruct (resolutions ++ added); [reflexivity|discriminate].
  - left. rewrite <- Epk in *.
    assert (Hpne : picked <> []) by (rewrite Epk; discriminate).
    destruct (np_argmax_ok _ Hpne) as [k Hk]. rewrite Hk. simpl.
    destruct (np_argmax_spec _ _ Hk) as [top [Htop _]].
    assert (Hk' : (k < length (resolutions ++ added))%nat).
    { rewrite <- Hpl. apply nth_error_Some. congruence. }
    assert (Hle : (length (resolutions ++ added) <= length vals)%nat).
    { rewrite <- (length_seq (length vals) 0).
      apply NoDup_incl_length; [apply separated_NoDup, Hsep'|].
      intros r Hr. apply in_seq. rewrite Forall_forall in Hin'.
      specialize (Hin' r Hr). lia. }
    unfold getitem.
    destruct (nth_error vals k) eqn:Ev; [|apply nth_error_None in Ev; lia].
    destruct (nth_error (resolutions ++ added) k) eqn:Er;
      [|apply nth_error_None in Er; lia].
    simpl. eexists. reflexivity.
Qed.

(** The curve of the scenario with the set it leaves behind. *)
Lemma analyze_results_fails_only_empty_witness :
  Forall (fun r => (r < length scenario_vals)%nat)
         (fst (Peak.analyze_results 1 [3%nat] scenario_vals 500)) /\
  ((exists a, snd (Peak.analyze_results 1 [3%nat] scenario_vals 500) = inr a) \/
   (snd (Peak.analyze_results 1 [3%nat] scenario_vals 500) = inl ValueError /\
    fst (Peak.analyze_results 1 [3%nat] scenario_vals 500) = [])).
Proof.
  apply (analyze_results_fails_only_empty 1 [3%nat] scenario_vals 500).
  - discriminate.
  - intros i j a b Hij Hi Hj.
    destruct i as [|i]; [|destruct i; discriminate].
    destruct j as [|j]; [congruence|destruct j; discriminate].
  - constructor; [simpl; lia|constructor].
Defined.

Lemma argmax_from_stays (l : list Q) : forall best besti i,
  (forall x, In x l -> (x <= best)%Q) -> argmax_from best besti i l = besti.
Proof.
  induction l as [|x t IH]; intros best besti i H; simpl; [reflexivity|].
  replace (Num.ltb best x) with false
    by (symmetry; apply ltb_ge, H; left; reflexivity).
  apply IH. intros y Hy. apply H. right. exact Hy.
Qed.

Lemma take_at_In (a : list Q) (idx : list nat) (picked : list Q) (x : Q) :
  take_at a idx = inr picked -> In x picked -> In x a.
Proof.
  intros H Hx. destruct (take_at_spec _ _ _ H) as [Hlen Hnth].
  apply In_nth_error in Hx. destruct Hx as [j Hj].
  destruct (nth_error idx j) as [r|] eqn:Er.
  - rewrite (Hnth _ _ Er) in Hj. apply nth_error_In in Hj. exact Hj.
  - apply nth_error_None in Er.
    assert (j < length picked)%nat by (apply nth_error_Some; congruence). lia.
Qed.

(** X7: on a detector whose accumulated set is empty, a curve with a ratio
    above one always gives a result: the first entry of the accumulated set
    is the first position of the largest ratio, and that position is the
    best of bests. *)
Theorem fresh_detector_picks_largest_ratio (steps : Z) (vals : list Q) (offset : Z) :
  no_ratio_above_one vals = false ->
  exists a first rest top,
    Peak.analyze_results steps [] vals offset = (first :: rest, inr a) /\
    nth_error (Peak.compute_ratios vals) first = Some top /\
    (forall x, In x (Peak.compute_ratios vals) -> (x <= top)%Q) /\
    (forall j y, (j < first)%nat -> nth_error (Peak.compute_ratios vals) j = Some y ->
                 ~ (y == top)%Q) /\
    Peak.a_bob_idx a = 0%nat /\
    Peak.a_bob_resolution a = Z.of_nat first * steps + offset.
Proof.
  intro Hflat. unfold no_ratio_above_one in Hflat.
  assert (Hvals : exists v0 vt, vals = v0 :: vt).
  { destruct vals as [|v0 vt]; [discriminate|]. eauto. }
  destruct Hvals as [v0 [vt Hvals]].
  remember (Peak.compute_ratios vals) as ratios eqn:Er.
  destruct (sorted_desc_spec ratios) as [Hdesc Hin].
  destruct (sorted_desc ratios) as [|stop t] eqn:Es.
  { exfalso. assert (In 0%Q ratios) by (rewrite Er; left; reflexivity).
    apply Hin in H. destruct H. }
  assert (Hmax : forall x, In x ratios -> (x <= stop)%Q).
  { intros x Hx. apply Hin in Hx. destruct Hx as [<-|Hx]; [apply Qle_refl|].
    inversion Hdesc as [|? ? _ Hall]; subst. rewrite Forall_forall in Hall. auto. }
  assert (Hone : (1 < stop)%Q).
  { destruct (Qlt_le_dec 1 stop) as [H|H]; [exact H|exfalso].
    assert (forallb (fun r => Qle_bool r 1) ratios = true).
    { apply forallb_forall. intros x Hx. apply Qle_bool_iff.
      apply Qle_trans with stop; auto. }
    congruence. }
  assert (Hdiff : exists ds, Peak.differences (sorted_desc ratios) = stop :: ds).
  { rewrite Es. unfold Peak.differences. cbn [filter].
    rewrite (top_above_threshold stop Hone). cbn [firstn]. eauto. }
  destruct Hdiff as [ds Hds].
  assert (Hds' : forall d, In d ds -> In d ratios /\ (1 < d)%Q).
  { intros d Hd. apply differences_spec. rewrite Hds. right. exact Hd. }
  assert (Hstop : In stop ratios) by (apply Hin; left; reflexivity).
  destruct (index_found _ _ Hstop) as [first Hi].
  destruct (index_spec _ _ _ Hi) as [[top [Htop Eq]] Hfirst].
  apply eqb_eq in Eq.
  destruct (add_differences_spec ratios ds [first] Hds') as [added [Ha [_ Hpk]]].
  assert (Hrange : Forall (fun r => (r < length ratios)%nat) (first :: added)).
  { constructor; [apply nth_error_Some; congruence|].
    eapply Forall_impl; [|exact Hpk]. intros r Hr. apply peak_at_lt, Hr. }
  destruct (take_at_ok _ _ Hrange) as [picked Hp].
  assert (Hpicked : exists pt, picked = top :: pt /\ forall x, In x pt -> (x <= top)%Q).
  { pose proof Hp as Hp'. simpl in Hp'. unfold getitem in Hp'. rewrite Htop in Hp'.
    simpl in Hp'. destruct (take_at ratios added) as [e|pt] eqn:Et; [discriminate|].
    simpl in Hp'. injection Hp' as <-. exists pt. split; [reflexivity|].
    intros x Hx. rewrite Eq. apply Hmax. eapply take_at_In; eassumption. }
  destruct Hpicked as [pt [-> Hpt]].
  eexists. exists first, added, top.
  split; [|split; [exact Htop|split; [|split]]].
  - unfold Peak.analyze_results. rewrite <- Er, Hds.
    cbn [Peak.add_differences]. rewrite Hi.
    unfold Peak.add_resolution. cbn [existsb app]. rewrite Ha. cbn [app].
    rewrite Hp. cbn [bind ret np_argmax].
    rewrite (argmax_from_stays pt top 0%nat 1%nat Hpt).
    rewrite Hvals. cbn [getitem nth_error bind ret]. reflexivity.
  - intros x Hx. rewrite Eq. apply Hmax, Hx.
  - intros j y Hj Hy Hyt. specialize (Hfirst j y Hj Hy).
    assert (Num.eqb y stop = true) by (apply eqb_eq; rewrite Hyt; exact Eq).
    congruence.
  - split; reflexivity.
Qed.

(** The curve of the scenario. *)
Lemma fresh_detector_picks_largest_ratio_witness :
  exists a first rest top,
    Peak.analyze_results 1 [] scenario_vals 500 = (first :: rest, inr a) /\
    nth_error (Peak.compute_ratios scenario_vals) first = Some top /\
    (forall x, In x (Peak.compute_ratios scenario_vals) -> (x <= top)%Q) /\
    (forall j y, (j < first)%nat ->
                 nth_error (Peak.compute_ratios scenario_vals) j = Some y ->
                 ~ (y == top)%Q) /\
    Peak.a_bob_idx a = 0%nat /\
    Peak.a_bob_resolution a = Z.of_nat first * 1 + 500.
Proof.
  apply (fresh_detector_picks_largest_ratio 1 scenario_vals 500). reflexivity.
Defined.

(** X8: the ratios follow the curve: one ratio per value (a single ratio
    for an empty curve), the first ratio is zero, a value of zero gets the
    ratio zero instead of a division, and a positive value has a ratio above
    one exactly when it is below the value before it. *)
Theorem ratios_mark_the_drops (vals : list Q) :
  length (Peak.compute_ratios vals) = Nat.max 1 (length vals) /\
  nth_error (Peak.compute_ratios vals) 0 = Some 0%Q /\
  forall i last current,
    nth_error vals i = Some last -> nth_error vals (S i) = Some current ->
    exists r, nth_error (Peak.compute_ratios vals) (S i) = Some r /\
              ((current == 0)%Q -> (r == 0)%Q) /\
              ((0 < current)%Q -> ((1 < r)%Q <-> (current < last)%Q)).
Proof.
  split; [apply compute_ratios_length|]. split; [reflexivity|].
  intros i last current Hl Hc.
  destruct (compute_ratios_spec vals) as [_ H]. specialize (H i last current Hl Hc).
  eexists. split; [exact H|]. split.
  - intro E. apply eqb_eq in E. rewrite E. apply eqb_eq, E.
  - intro Hpos.
    assert (Hne : ~ (current == 0)%Q).
    { intro E. rewrite E in Hpos. exact (Qlt_irrefl _ Hpos). }
    replace (Num.eqb current 0) with false.
    + unfold Num.div. rewrite Qred_correct.
      assert (E : (last / current * current == last)%Q) by (field; exact Hne).
      rewrite <- (Qmult_lt_r 1 (last / current) current Hpos), E, Qmult_1_l.
      reflexivity.
    + symmetry. destruct (Num.eqb current 0) eqn:E; [|reflexivity].
      apply eqb_eq in E. contradiction.
Qed.

Lemma separated_length (l : list nat) (n : nat) :
  separated l -> Forall (fun r => (r < n)%nat) l -> (length l <= (n + 19) / 20)%nat.
Proof.
  intros Hsep Hin.
  rewrite <- (length_map (fun r => (r / 20)%nat) l).
  rewrite <- (length_seq ((n + 19) / 20) 0).
  apply NoDup_incl_length.
  - apply (proj2 (NoDup_nth_error _)).
    intros i j Hi Hij. rewrite length_map in Hi.
    destruct (Nat.eq_dec i j) as [E|E]; [exact E|exfalso].
    rewrite !nth_error_map in Hij.
    destruct (nth_error l i) as [a|] eqn:Ea; [|apply nth_error_None in Ea; lia].
    destruct (nth_error l j) as [b|] eqn:Eb; [|discriminate].
    assert (Hd : (a / 20 = b / 20)%nat) by (cbn [option_map] in Hij; congruence).
    clear Hij. specialize (Hsep i j a b E Ea Eb).
    pose proof (Nat.div_mod_eq a 20). pose proof (Nat.div_mod_eq b 20).
    pose proof (Nat.mod_upper_bound a 20). pose proof (Nat.mod_upper_bound b 20).
    lia.
  - intros q Hq. apply in_map_iff in Hq. destruct Hq as [r [<- Hr]].
    rewrite Forall_forall in Hin. specialize (Hin r Hr).
    apply in_seq. split; [lia|]. cbn [Nat.add].
    apply Nat.Div0.div_lt_upper_bound.
    pose proof (Nat.div_mod_eq (n + 19) 20).
    pose proof (Nat.mod_upper_bound (n + 19) 20). lia.
Qed.

Lemma after_calls_in_range (n : nat) (calls : list (Z * list Q * Z)) : forall res,
  (0 < n)%nat ->
  Forall (fun c => length (snd (fst c)) = n) calls ->
  Forall (fun r => (r < n)%nat) res ->
  Forall (fun r => (r < n)%nat) (after_calls res calls).
Proof.
  induction calls as [|c t IH]; intros res Hn Hc Hres; simpl; [exact Hres|].
  inversion Hc as [|? ? Hlen Ht]; subst.
  apply IH; [assumption|assumption|].
  destruct (appended_peaks (fst (fst c)) res (snd (fst c)) (snd c))
    as [added [-> Hpk]].
  apply Forall_app. split; [exact Hres|].
  eapply Forall_impl; [|exact Hpk]. intros r Hr. apply peak_at_lt in Hr.
  rewrite compute_ratios_length in Hr. lia.
Qed.

(** X9: over curves of one length [n], whatever the number of calls, the
    accumulated set holds positions of the curve, and never more than
    [(n + 19) / 20] of them. *)
Theorem accumulated_set_is_small (n : nat) (calls : list (Z * list Q * Z)) :
  (0 < n)%nat ->
  Forall (fun c => length (snd (fst c)) = n) calls ->
  Forall (fun r => (r < n)%nat) (after_calls [] calls) /\
  (length (after_calls [] calls) <= (n + 19) / 20)%nat.
Proof.
  intros Hn Hc.
  assert (H : Forall (fun r => (r < n)%nat) (after_calls [] calls))
    by (apply after_calls_in_range; [assumption|assumption|constructor]).
  split; [exact H|].
  apply separated_length; [apply after_calls_separated, separated_nil|exact H].
Qed.

(** Two calls on the curve of the scenario. *)
Lemma accumulated_set_is_small_witness :
  Forall (fun r => (r < 6)%nat)
         (after_calls [] [(1, scenario_vals, 500); (1, scenario_vals, 500)]) /\
  (length (after_calls [] [(1%Z, scenario_vals, 500%Z); (1%Z, scenario_vals, 500%Z)])
   <= (6 + 19) / 20)%nat.
Proof.
  apply (accumulated_set_is_small 6 [(1, scenario_vals, 500); (1, scenario_vals, 500)]).
  - lia.
  - repeat constructor.
Defined.

(** ** The frame selector *)



(** ** The width-scan aggregation *)

Section WidthFurther.

Import Width.

Lemma scale_length (v : list Q) (c : Q) : length (scale v c) = length v.
Proof. apply length_map. Qed.

(** On a curve of three values or more the smoothing keeps the length and
    the division pairs the entries off. *)
Lemma smooth_divide_long (vals : list xval) :
  (3 <= length vals)%nat ->
  smooth_divide vals
  = inr (map (fun p => xdiv (fst p) (snd p))
             (combine vals (map (conv_full_at vals kernel) (seq 1 (length vals))))).
Proof.
  intro H. unfold smooth_divide, np_convolve_same.
  destruct vals as [|x t]; [simpl in H; lia|].
  change (match kernel with [] => _ | _ :: _ => ?r end) with r.
  replace (length (x :: t) <? length kernel)%nat with false
    by (symmetry; apply Nat.ltb_ge; exact H).
  cbv beta iota zeta. cbn [bind ret]. unfold np_divide, broadcast.
  rewrite length_map, length_seq, Nat.eqb_refl. reflexivity.
Qed.

End WidthFurther.

(** X11: the normalisation of the width scan depends on the length of the
    summed curve: an empty curve and a curve of two values end in
    [ValueError] (from [np.convolve] and from the division of arrays of
    lengths 2 and 3), a single value gives a curve of length three, and from
    three values on the curve keeps its length. *)
Theorem normalize_by_length (v : list Q) (c : Q) :
  match length v with
  | 0%nat | 2%nat => Width.normalize v c = inl ValueError
  | 1%nat => exists l, Width.normalize v c = inr l /\ length l = 3%nat
  | _ => exists l, Width.normalize v c = inr l /\ length l = length v
  end.
Proof.
  destruct v as [|x0 [|x1 [|x2 t]]].
  - reflexivity.
  - eexists. split; reflexivity.
  - reflexivity.
  - cbn [length]. unfold Width.normalize. eexists.
    split; [apply smooth_divide_long; rewrite scale_length; simpl; lia|].
    rewrite length_map, length_combine, length_map, length_seq, scale_length.
    apply Nat.min_id.
Qed.

(** X12: on a summed curve of three values or more the width scan always
    finds a best width, and it is one of the scanned widths: [w_min] plus a
    position of the curve times the step. *)
Theorem best_width_is_scanned (v : list Q) (c : Q) (steps w_min : Z) :
  (3 <= length v)%nat ->
  exists i, (i < length v)%nat /\
            Width.best_width v c steps w_min = inr (Z.of_nat i * steps + w_min).
Proof.
  intro H. unfold Width.best_width, Width.normalize.
  rewrite smooth_divide_long by (rewrite scale_length; exact H).
  cbn [bind].
  match goal with |- context [Width.np_argmin ?l] =>
    assert (Hl : length l = length v)
      by (rewrite length_map, length_combine, length_map, length_seq, scale_length;
          apply Nat.min_id);
    destruct (np_argmin_lt l) as [k [Hk Hlt]];
      [intro E; rewrite E in Hl; simpl in Hl; lia|]
  end.
  rewrite Hk. exists k. split; [lia|reflexivity].
Qed.

(** The curve [5, 4, 3, 2, 1] of five widths from 700 in steps of 2. *)
Lemma best_width_is_scanned_witness :
  exists i, (i < length [5; 4; 3; 2; 1]%Q)%nat /\
            Width.best_width [5; 4; 3; 2; 1]%Q 4 2 700 = inr (Z.of_nat i * 2 + 700).
Proof.
  apply (best_width_is_scanned [5; 4; 3; 2; 1]%Q 4 2 700). simpl. lia.
Defined.

Section ArgminFurther.

Import Width.

Lemma xltb_below (x best y : xval) :
  xltb x best = true -> xltb y best = false -> is_nan y = false -> xltb x y = true.
Proof.
  destruct x as [a| | |], best as [b| | |], y as [c| | |]; simpl;
    try discriminate; try reflexivity.
  intros H1 H2 _. apply ltb_lt. apply ltb_lt in H1. apply ltb_ge in H2.
  apply Qlt_le_trans with b; assumption.
Qed.

Lemma xltb_asym (x y : xval) : xltb x y = true -> xltb y x = false.
Proof.
  destruct x as [a| | |], y as [b| | |]; simpl; try discriminate; try reflexivity.
  intro H. apply ltb_ge. apply ltb_lt in H. apply Qlt_le_weak, H.
Qed.

Lemma xltb_irrefl (x : xval) : xltb x x = false.
Proof.
  destruct x as [a| | |]; simpl; try reflexivity. apply ltb_ge, Qle_refl.
Qed.

Lemma argmin_from_spec (l : list xval) : forall pre best besti,
  nth_error pre besti = Some best ->
  (forall j y, (j < besti)%nat -> nth_error pre j = Some y ->
               is_nan y = false /\ (is_nan best = false -> xltb best y = true)) ->
  (is_nan best = false -> forall y, In y pre -> is_nan y = false /\ xltb y best = false) ->
  first_least (pre ++ l) (argmin_from best besti (length pre) l).
Proof.
  induction l as [|x t IH]; intros pre best besti Hb Hbefore Hall.
  - simpl. rewrite app_nil_r. exists best. split; [exact Hb|]. split; assumption.
  - assert (Hbi : (besti < length pre)%nat) by (apply nth_error_Some; congruence).
    assert (Hlen : length (pre ++ [x]) = S (length pre))
      by (rewrite length_app; simpl; lia).
    replace (pre ++ x :: t) with ((pre ++ [x]) ++ t)
      by (rewrite <- app_assoc; reflexivity).
    simpl. destruct (is_nan best) eqn:Enan.
    + exists best. split; [|split].
      * rewrite <- app_assoc, nth_error_app1 by assumption. exact Hb.
      * intros j y Hj Hy. rewrite <- app_assoc, nth_error_app1 in Hy by lia.
        destruct (Hbefore j y Hj Hy) as [H1 _]. split; [exact H1|congruence].
      * congruence.
    + specialize (Hall eq_refl).
      destruct (is_nan x || xltb x best) eqn:Enew.
      * rewrite <- Hlen. apply IH.
        -- rewrite nth_error_app2, Nat.sub_diag by lia. reflexivity.
        -- intros j y Hj Hy. rewrite nth_error_app1 in Hy by lia.
           apply nth_error_In in Hy. destruct (Hall y Hy) as [Hy1 Hy2].
           split; [exact Hy1|]. intro Hx. rewrite Hx in Enew. simpl in Enew.
           apply xltb_below with best; assumption.
        -- intros Hx y Hy. rewrite Hx in Enew. simpl in Enew.
           apply in_app_or in Hy. destruct Hy as [Hy|[<-|[]]].
           ++ destruct (Hall y Hy) as [Hy1 Hy2]. split; [exact Hy1|].
              apply xltb_asym, xltb_below with best; assumption.
           ++ split; [exact Hx|apply xltb_irrefl].
      * apply orb_false_iff in Enew. destruct Enew as [Hx Hlt].
        rewrite <- Hlen. apply IH.
        -- rewrite nth_error_app1 by assumption. exact Hb.
        -- intros j y Hj Hy. rewrite nth_error_app1 in Hy by lia.
           destruct (Hbefore j y Hj Hy) as [H1 H2]. split; [exact H1|].
           intros _. apply H2. reflexivity.
        -- intros _ y Hy. apply in_app_or in Hy. destruct Hy as [Hy|[<-|[]]].
           ++ apply Hall, Hy.
           ++ split; assumption.
Qed.

End ArgminFurther.

(** X13: [np.argmin] as the width scan uses it: on a list that is not empty
    it returns the position of the first NaN when there is one, and
    otherwise the first position of the smallest value. *)
Theorem np_argmin_first_least (l : list Width.xval) (k : nat) :
  Width.np_argmin l = inr k -> first_least l k.
Proof.
  destruct l as [|x t]; [discriminate|]. intro H. injection H as <-.
  apply (argmin_from_spec t [x] x 0%nat); [reflexivity| |].
  - intros j y Hj. lia.
  - intros Hx y [<-|[]]. split; [exact Hx|apply xltb_irrefl].
Qed.

(** The normalized curve of one value, [2, inf, 2]. *)
Lemma np_argmin_first_least_witness :
  first_least [Width.Fin 2; Width.PInf; Width.Fin 2] 0.
Proof.
  apply (np_argmin_first_least [Width.Fin 2; Width.PInf; Width.Fin 2] 0). reflexivity.
Defined.

Section SmoothingFurther.

Import Width.



End SmoothingFurther.



(** ** The search *)

(** A result of [getnative] comes from a configuration that [setup] accepts,
    with a minimum height below the maximum, and from a result of [run]. *)
Lemma getnative_returns_aux
      (env : Run.environment) (args : Run.arguments) (src : Run.source)
      (h w : Z) (mae : Q) (overstretched near_ub : bool) :
  Run.getnative env args src = inr (h, w, mae, overstretched, near_ub) ->
  exists cfg,
    Run.setup env args src = inr cfg /\
    snd (Run.run (Run.env_num_threads env) (Run.env_completed env)
                 (Run.env_plane_stats env) src (Run.cfg_min_h cfg) (Run.cfg_max_h cfg)
                 (Run.cfg_frames cfg) (Run.arg_passes args) (Run.arg_steps args)
                 {| Run.self_ar := Run.cfg_ar cfg; Run.self_resolutions := [];
                    Run.waits := 0 |})
    = inr (h, w, mae, overstretched) /\
    Run.cfg_min_h cfg < Run.cfg_max_h cfg.
Proof.
  unfold Run.getnative.
  destruct (Run.setup env args src) as [e|cfg] eqn:Es; simpl; [discriminate|].
  intro H. exists cfg. split; [reflexivity|].
  destruct (Run.run _ _ _ _ _ _ _ _ _ _) as [w1 r]. cbn [snd] in *.
  destruct r as [e|[[[h' w'] mae'] os']]; [destruct e; discriminate H|].
  injection H as <- <- <- <- <-. split; [reflexivity|].
  revert Es. unfold Run.setup.
  destruct (negb (Run.dir_writable env)); [discriminate|].
  destruct ((Run.img args || Run.mask_out args) && negb (Run.imwri_found env));
    [discriminate|].
  destruct (Run.env_scaler env); cbn [bind ret raise]; try discriminate.
  destruct (Frames.select_frames64 _ _ _) as [e|fs]; cbn [bind]; [discriminate|].
  destruct (Run.assign_ar args src) as [e|ar]; cbn [bind]; [discriminate|].
  destruct (Run.height src <=? Run.effective_min_h args src) eqn:E1; [discriminate|].
  destruct ((if Run.arg_max_h args <? 0 then Run.height src * 9 / 10
             else Run.arg_max_h args) <=? Run.effective_min_h args src) eqn:E2;
    [discriminate|].
  destruct fs as [|frame rest]; simpl; [discriminate|].
  intro Hc. injection Hc as <-. simpl.
  apply Z.leb_gt in E1, E2. unfold Run.effective_max_h.
  destruct (Run.height src <? _); lia.
Qed.

(** X15: [getw] never exceeds the width of the source, gives the width of
    the source whenever the rounded width reaches it, and with [only_even]
    on a source of even width gives an even width. *)
Theorem getw_is_clamped (src : Run.source) (ar : Q) (h : Z) (only_even : bool) :
  Run.getw_at src ar h only_even <= Run.width src /\
  (Run.width src <= Num.py_round (F64.mul (F64.of_Z h) ar) / 2 * 2 ->
   Run.getw_at src ar h only_even = Run.width src) /\
  (only_even = true -> Z.even (Run.width src) = true ->
   Z.even (Run.getw_at src ar h only_even) = true).
Proof.
  unfold Run.getw_at. set (w := Num.py_round (F64.mul (F64.of_Z h) ar)).
  split; [apply Z.le_min_r|]. split.
  - intro H. apply Z.min_r.
    destruct only_even; [exact H|].
    pose proof (Z.mul_div_le w 2). lia.
  - intros -> Hw.
    destruct (Z.min_spec (w / 2 * 2) (Run.width src)) as [[_ ->]|[_ ->]]; [|exact Hw].
    rewrite Z.even_mul. apply orb_true_r.
Qed.

Section HeightInRange.

Import Run.

Variable num_threads : nat.
Variable completed : nat -> list nat -> list nat.
Variable plane_stats : Z -> bool -> Z -> Z -> Q.
Variable src : source.
Variable min_h max_h : Z.
Variable frames : list Z.
Variable passes : Z.
Variable steps : Z.

Local Abbreviation scan_frame := (Run.scan_frame num_threads completed plane_stats src).
Local Abbreviation scan_frames := (Run.scan_frames num_threads completed plane_stats src).
Local Abbreviation height_scan :=
  (Run.height_scan num_threads completed plane_stats src min_h max_h frames steps).
Local Abbreviation width_refine :=
  (Run.width_refine num_threads completed plane_stats src frames steps).
Local Abbreviation passes_loop :=
  (Run.passes_loop num_threads completed plane_stats src min_h max_h frames steps).
Local Abbreviation run :=
  (Run.run num_threads completed plane_stats src min_h max_h frames passes steps).

Lemma hoare_mbind {A B : Type} (P : world -> Prop) (m : M A) (Q : A -> world -> Prop)
      (k : A -> M B) (R : B -> world -> Prop) :
  hoare P m Q -> (forall a, hoare (Q a) (k a) R) -> hoare P (mbind m k) R.
Proof.
  intros Hm Hk w Hw. unfold mbind. specialize (Hm w Hw).
  destruct (m w) as [w' [e|a]]; [exact I|]. apply Hk, Hm.
Qed.

Lemma hoare_weaken {A : Type} (P : world -> Prop) (m : M A) (Q Q' : A -> world -> Prop) :
  hoare P m Q -> (forall a w, Q a w -> Q' a w) -> hoare P m Q'.
Proof.
  intros Hm HQ w Hw. specialize (Hm w Hw).
  destruct (m w) as [w' [e|a]]; [exact I|]. apply HQ, Hm.
Qed.

Lemma hoare_lift {A : Type} (P : world -> Prop) (r : result A) :
  hoare P (lift r) (fun a w => P w /\ r = inr a).
Proof. intros w Hw. unfold lift. destruct r; [exact I|]. split; [exact Hw|reflexivity]. Qed.

Lemma hoare_preserves {A : Type} (n : nat) (m : M A) :
  preserves (Forall (fun r => (r < n)%nat)) m ->
  hoare (in_range n) m (fun _ w => in_range n w).
Proof.
  intros Hm w Hw. specialize (Hm w Hw).
  destruct (m w) as [w' [e|a]]; [exact I|exact Hm].
Qed.

Lemma np_add_length (a b : list Q) :
  length a = length b -> exists l, np_add a b = inr l /\ length l = length a.
Proof.
  intro H. unfold np_add, broadcast. rewrite H, Nat.eqb_refl. simpl.
  eexists. split; [reflexivity|].
  rewrite length_map, length_combine, H. apply Nat.min_id.
Qed.

Lemma scan_frame_length (n : nat) (candidates : list (Z * Z)) (frame : Z) :
  hoare (in_range n) (scan_frame candidates frame)
        (fun vals w => in_range n w /\ shaped (length candidates) (Some vals)).
Proof.
  intros w Hw. unfold Run.scan_frame.
  destruct candidates as [|c t] eqn:Ec; [exact I|]. rewrite <- Ec.
  destruct (Scheduler.schedule _ _ _ _ _) as [st [e|curve]] eqn:Es; [exact I|].
  apply schedule_curve in Es. destruct Es as [-> _].
  split; [exact Hw|]. simpl. rewrite length_map, length_seq.
  split; [reflexivity|]. rewrite Ec. simpl. lia.
Qed.

Lemma scan_frames_length (n : nat) (candidates : list (Z * Z)) : forall fs sampled,
  shaped (length candidates) sampled ->
  hoare (in_range n) (scan_frames candidates fs sampled)
        (fun out w => in_range n w /\ shaped (length candidates) out).
Proof.
  induction fs as [|frame t IH]; intros sampled Hs; simpl.
  - intros w Hw. split; assumption.
  - eapply hoare_mbind; [apply scan_frame_length|]. intro vals.
    intros w [Hw [Hlen Hpos]]. unfold mbind, lift.
    destruct sampled as [acc|].
    + destruct Hs as [Hacc _].
      destruct (np_add_length vals acc) as [l [-> Hl]]; [congruence|].
      apply IH; [|exact Hw]. simpl. split; [congruence|exact Hpos].
    + simpl. apply IH; [|exact Hw]. simpl. split; assumption.
Qed.

Lemma analyze_results_in_range (n : nat) (vals : list Q) (offset : Z) :
  length vals = n -> (0 < n)%nat ->
  hoare (in_range n) (Run.analyze_results steps vals offset)
        (fun a w => in_range n w /\
                    exists r, (r < n)%nat /\
                              Peak.a_bob_resolution a = Z.of_nat r * steps + offset).
Proof.
  intros Hlen Hn w Hw. unfold Run.analyze_results.
  destruct (appended_peaks steps (self_resolutions w) vals offset)
    as [added [Ha Hpk]].
  destruct (Peak.analyze_results steps (self_resolutions w) vals offset)
    as [res' [e|a]] eqn:E; [exact I|].
  simpl in Ha. subst res'.
  assert (Hin : Forall (fun r => (r < n)%nat) (self_resolutions w ++ added)).
  { apply Forall_app. split; [exact Hw|].
    eapply Forall_impl; [|exact Hpk]. intros r Hr. apply peak_at_lt in Hr.
    rewrite compute_ratios_length in Hr. lia. }
  split; [exact Hin|].
  destruct (analyze_results_best _ _ _ _ _ _ E) as [r [top [Hr [Hres _]]]].
  exists r. split; [|exact Hres].
  rewrite Forall_forall in Hin. apply Hin. apply nth_error_In with (1 := Hr).
Qed.

Lemma hoare_get_ar (P : world -> Prop) : hoare P get_ar (fun _ w => P w).
Proof. intros w Hw. exact Hw. Qed.

Lemma mean_curve_length (n : nat) (sampled : option (list Q)) (vals : list Q) :
  shaped n sampled -> mean_curve frames sampled = inr vals ->
  length vals = n /\ (0 < n)%nat.
Proof.
  intros Hs H. destruct sampled as [l|]; [|discriminate].
  simpl in H. injection H as <-. rewrite length_map. exact Hs.
Qed.

Lemma height_scan_in_range (hs : list Z) :
  py_range min_h (max_h + 1) steps = inr hs ->
  hoare (in_range (length hs)) height_scan
        (fun a w => in_range (length hs) w /\
                    exists r, (r < length hs)%nat /\
                              Peak.a_bob_resolution a = Z.of_nat r * steps + min_h).
Proof.
  intro Hhs. unfold Run.height_scan.
  eapply hoare_mbind; [apply hoare_lift|]. intros hs' w [Hw Heq].
  assert (hs' = hs) by congruence. subst hs'. revert w Hw.
  refine (hoare_mbind _ _ (fun _ w => in_range (length hs) w) _ _ _ _);
    [apply hoare_get_ar|]. intro ar.
  eapply hoare_mbind.
  { apply scan_frames_length. exact I. }
  intro sampled. rewrite length_map.
  eapply hoare_mbind; [apply hoare_lift|]. intros vals w [[Hw Hs] Hm].
  destruct (mean_curve_length _ _ _ Hs Hm) as [Hlen Hn].
  revert w Hw. apply analyze_results_in_range; assumption.
Qed.

Lemma passes_loop_in_range (hs : list Z) :
  py_range min_h (max_h + 1) steps = inr hs ->
  forall k, hoare (in_range (length hs)) (passes_loop k) (fun _ w => in_range (length hs) w).
Proof.
  intro Hhs. induction k as [|k IH]; simpl.
  - intros w Hw. exact Hw.
  - eapply hoare_mbind; [apply height_scan_in_range, Hhs|]. intro a.
    apply hoare_mbind with (Q := fun _ w => in_range (length hs) w);
      [|intros u; apply IH].
    intros w [Hw _]. revert w Hw.
    apply hoare_preserves, preserves_width_refine.
Qed.

(** The height that [run] returns is one of the scanned heights. *)
Lemma run_height_scanned (hs : list Z) :
  py_range min_h (max_h + 1) steps = inr hs ->
  hoare (in_range (length hs)) run
        (fun out _ => exists r, (r < length hs)%nat /\
                                fst (fst (fst out)) = Z.of_nat r * steps + min_h).
Proof.
  intro Hhs. unfold Run.run.
  eapply hoare_mbind; [apply hoare_lift|]. intros hs' w [Hw _]. revert w Hw.
  refine (hoare_mbind _ _ (fun _ w => in_range (length hs) w) _ _ _ _);
    [apply hoare_get_ar|]. intro ar.
  eapply hoare_mbind; [apply passes_loop_in_range, Hhs|]. intros u.
  eapply hoare_mbind; [apply height_scan_in_range, Hhs|]. intro a.
  intros w [Hw Hr]. unfold getw, mbind, get_ar, mret. simpl. exact Hr.
Qed.

End HeightInRange.

Lemma py_range_nth (start stop step : Z) (hs : list Z) (r : nat) :
  py_range start stop step = inr hs -> (r < length hs)%nat ->
  nth_error hs r = Some (Z.of_nat r * step + start) /\
  (start < stop -> 0 < step /\ start <= Z.of_nat r * step + start < stop).
Proof.
  unfold py_range. intros H Hr.
  destruct (step =? 0) eqn:E0; [discriminate|]. apply Z.eqb_neq in E0.
  destruct (0 <? step) eqn:Ep; injection H as <-;
    rewrite length_map, length_seq in Hr.
  - apply Z.ltb_lt in Ep. split.
    + rewrite nth_error_map, nth_error_seq.
      replace (r <? _)%nat with true by (symmetry; apply Nat.ltb_lt, Hr).
      simpl. f_equal. lia.
    + intro Hlt. split; [exact Ep|].
      assert (Hq : Z.of_nat r < (stop - start + step - 1) / step) by lia.
      assert (Hq' : Z.of_nat r + 1 <= (stop - start + step - 1) / step) by lia.
      assert (Hm : step * ((stop - start + step - 1) / step) <= stop - start + step - 1)
        by (apply Z.mul_div_le; lia).
      nia.
  - apply Z.ltb_ge in Ep. split.
    + rewrite nth_error_map, nth_error_seq.
      replace (r <? _)%nat with true by (symmetry; apply Nat.ltb_lt, Hr).
      simpl. f_equal. lia.
    + intro Hlt. exfalso.
      assert (Hneg : (start - stop - step - 1) / - step <= 0).
      { apply Z.lt_succ_r. apply Z.div_lt_upper_bound; lia. }
      lia.
Qed.

(** X16: the height that [getnative] returns is one of the scanned heights:
    the step is positive, the height lies between the minimum and the
    maximum height of the configuration, a whole number of steps above the
    minimum.  The width does not exceed the width of the source. *)
Theorem reported_height_is_scanned
        (env : Run.environment) (args : Run.arguments) (src : Run.source)
        (h w : Z) (mae : Q) (overstretched near_ub : bool) :
  Run.getnative env args src = inr (h, w, mae, overstretched, near_ub) ->
  0 < Run.arg_steps args /\
  Run.effective_min_h args src <= h <= Run.effective_max_h args src /\
  (exists k, 0 <= k /\ h = Run.effective_min_h args src + k * Run.arg_steps args) /\
  w <= Run.width src.
Proof.
  intro H.
  destruct (getnative_returns_aux env args src h w mae overstretched near_ub H)
    as [cfg [Hcfg [Hrun Hlt]]].
  destruct (setup_config _ _ _ _ Hcfg) as [_ [Hmin [Hmax _]]].
  rewrite <- Hmin, <- Hmax.
  pose proof Hrun as Hrun'. apply run_result in Hrun'. destruct Hrun' as [_ [ar ->]].
  assert (Hhs : exists hs, py_range (Run.cfg_min_h cfg) (Run.cfg_max_h cfg + 1)
                                    (Run.arg_steps args) = inr hs).
  { revert Hrun. unfold Run.run, Run.mbind at 1, Run.lift at 1.
    destruct (py_range _ _ _) as [e|hs]; [discriminate|]. eauto. }
  destruct Hhs as [hs Hhs].
  pose proof (run_height_scanned (Run.env_num_threads env) (Run.env_completed env)
                (Run.env_plane_stats env) src (Run.cfg_min_h cfg) (Run.cfg_max_h cfg)
                (Run.cfg_frames cfg) (Run.arg_passes args) (Run.arg_steps args) hs Hhs
                {| Run.self_ar := Run.cfg_ar cfg; Run.self_resolutions := [];
                   Run.waits := 0 |}) as Hh.
  unfold in_range in Hh at 1. simpl in Hh. specialize (Hh (Forall_nil _)).
  destruct (Run.run _ _ _ _ _ _ _ _ _ _) as [w1 r]. simpl in Hrun. subst r.
  destruct Hh as [r [Hr Hh]]. simpl in Hh. subst h.
  destruct (py_range_nth _ _ _ _ _ Hhs Hr) as [_ Hb].
  destruct (Hb ltac:(lia)) as [Hstep Hbound].
  split; [exact Hstep|]. split; [lia|]. split.
  - exists (Z.of_nat r). split; lia.
  - apply Z.le_min_r.
Qed.

(** The example run. *)
Lemma reported_height_is_scanned_witness :
  0 < Run.arg_steps (example_args 0 None 2) /\
  Run.effective_min_h (example_args 0 None 2) example_src <= 30
  <= Run.effective_max_h (example_args 0 None 2) example_src /\
  (exists k, 0 <= k /\
             30 = Run.effective_min_h (example_args 0 None 2) example_src
                  + k * Run.arg_steps (example_args 0 None 2)) /\
  60 <= Run.width example_src.
Proof.
  apply (reported_height_is_scanned example_env (example_args 0 None 2) example_src
                                    30 60 1%Q false false).
  reflexivity.
Defined.

(** X17: [getnative] lets a [ValueError] out only when it comes from
    [np.linspace], for a sample count below -1; a [ValueError] of the
    search itself always leaves as [GetnativeException]. *)
Theorem getnative_value_error_is_from_linspace
        (env : Run.environment) (args : Run.arguments) (src : Run.source) :
  Run.getnative env args src = inl ValueError ->
  Run.fsamples args < -1 /\ Run.setup env args src = inl ValueError.
Proof.
  unfold Run.getnative.
  destruct (Run.setup env args src) as [e|cfg] eqn:Es; simpl.
  - intro H. injection H as ->. split; [|reflexivity].
    revert Es. unfold Run.setup.
    destruct (negb (Run.dir_writable env)); [discriminate|].
    destruct ((Run.img args || Run.mask_out args) && negb (Run.imwri_found env));
      [discriminate|].
    destruct (Run.env_scaler env); cbn [bind ret raise]; try discriminate.
    unfold Frames.select_frames64, Frames.linspace64.
    destruct (Run.fsamples args + 1 <? 0) eqn:E; [intros _; apply Z.ltb_lt in E; lia|].
    cbn [bind ret].
    destruct (Run.assign_ar args src) as [e|ar] eqn:Ea; cbn [bind].
    { unfold Run.assign_ar in Ea.
      destruct (_ && _); [injection Ea as <-; discriminate|discriminate]. }
    destruct (Run.height src <=? Run.effective_min_h args src); [discriminate|].
    destruct (_ <=? Run.effective_min_h args src); [discriminate|].
    unfold getitem. destruct (nth_error _ 0); discriminate.
  - destruct (Run.run _ _ _ _ _ _ _ _ _ _) as [w1 r]. simpl.
    destruct r as [e|[[[h' w'] mae'] os']]; [destruct e; discriminate|discriminate].
Qed.

(** The example configuration with a sample count of -2. *)
Lemma getnative_value_error_is_from_linspace_witness :
  Run.fsamples (example_args 0 None (-2)) < -1 /\
  Run.setup example_env (example_args 0 None (-2)) example_src = inl ValueError.
Proof.
  apply (getnative_value_error_is_from_linspace example_env (example_args 0 None (-2))
                                                example_src).
  reflexivity.
Defined.

(** X18: a step of zero never gives a result: when the checks of
    [getnative] pass, [range] raises [ValueError] at the start of [run],
    before any scan, and the run ends in [GetnativeException]. *)
Theorem zero_step_is_refused
        (env : Run.environment) (args : Run.arguments) (src : Run.source) :
  Run.arg_steps args = 0 ->
  Run.getnative env args src
  = match Run.setup env args src with
    | inl e => inl e
    | inr _ => inl GetnativeException
    end.
Proof.
  intro H. unfold Run.getnative.
  destruct (Run.setup env args src) as [e|cfg]; simpl; [reflexivity|].
  rewrite H. reflexivity.
Qed.

(** The example configuration with the step 0. *)
Lemma zero_step_is_refused_witness :
  Run.getnative example_env
    {| Run.fstart := 0; Run.fend := None; Run.fsamples := 2; Run.arg_passes := 1;
       Run.arg_ar := 0; Run.arg_min_h := -1; Run.arg_max_h := -1; Run.ub_thr := 10;
       Run.arg_steps := 0; Run.img := false; Run.mask_out := false |} example_src
  = inl GetnativeException.
Proof.
  apply (zero_step_is_refused example_env
           {| Run.fstart := 0; Run.fend := None; Run.fsamples := 2; Run.arg_passes := 1;
              Run.arg_ar := 0; Run.arg_min_h := -1; Run.arg_max_h := -1; Run.ub_thr := 10;
              Run.arg_steps := 0; Run.img := false; Run.mask_out := false |} example_src).
  reflexivity.
Defined.

(** ** The batch of scalers *)

Section AssignedArguments.

Variable args : Run.arguments.
Variable src : Run.source.
Hypothesis height_not_negative : 0 <= Run.height src.

Lemma effective_max_h_not_negative : 0 <= Run.effective_max_h args src.
Proof.
  unfold Run.effective_max_h.
  assert (0 <= Run.height src * 9 / 10) by (apply Z.div_pos; lia).
  destruct (Run.arg_max_h args <? 0) eqn:E;
    [|apply Z.ltb_ge in E];
    match goal with |- context [if ?c then _ else _] => destruct c end; lia.
Qed.

Lemma effective_ar_assigned :
  Run.effective_ar (Batch.assigned args src) src = Run.effective_ar args src.
Proof.
  unfold Run.effective_ar at 1. cbn [Batch.assigned Run.arg_ar].
  unfold Run.effective_ar.
  destruct (Num.eqb (Run.arg_ar args) 0) eqn:E.
  - destruct (Num.eqb (Run.src_ar src) 0); reflexivity.
  - rewrite E. reflexivity.
Qed.

Lemma src_ar_no_height : Run.height src = 0 -> Run.src_ar src = 0%Q.
Proof.
  intro H. unfold Run.src_ar, F64.div, F64.round. rewrite H.
  replace (Qeq_bool (inject_Z (Run.width src) / inject_Z 0) 0) with true; [reflexivity|].
  symmetry. apply Qeq_bool_iff. unfold Qdiv. apply Qmult_0_r.
Qed.

Lemma assign_ar_assigned :
  Run.assign_ar (Batch.assigned args src) src = Run.assign_ar args src.
Proof.
  unfold Run.assign_ar. rewrite effective_ar_assigned.
  cbn [Batch.assigned Run.arg_ar]. unfold Run.effective_ar.
  destruct (Num.eqb (Run.arg_ar args) 0) eqn:E.
  - destruct (Run.height src =? 0) eqn:E0.
    + apply Z.eqb_eq in E0. rewrite (src_ar_no_height E0). reflexivity.
    + rewrite andb_false_r. reflexivity.
  - rewrite E. reflexivity.
Qed.

Lemma effective_min_h_assigned :
  Run.effective_min_h (Batch.assigned args src) src = Run.effective_min_h args src.
Proof.
  unfold Run.effective_min_h at 1. cbn [Batch.assigned Run.arg_min_h].
  unfold Run.effective_min_h.
  assert (0 <= Run.height src / 2) by (apply Z.div_pos; lia).
  destruct (Run.arg_min_h args <? 0) eqn:E.
  - replace (Run.height src / 2 <? 0) with false by (symmetry; apply Z.ltb_ge; lia).
    reflexivity.
  - rewrite E. reflexivity.
Qed.

Lemma pre_clamp_assigned :
  (if Run.arg_max_h (Batch.assigned args src) <? 0 then Run.height src * 9 / 10
   else Run.arg_max_h (Batch.assigned args src))
  = Run.effective_max_h args src.
Proof.
  cbn [Batch.assigned Run.arg_max_h].
  pose proof effective_max_h_not_negative.
  replace (Run.effective_max_h args src <? 0) with false
    by (symmetry; apply Z.ltb_ge; lia).
  reflexivity.
Qed.

Lemma effective_max_h_assigned :
  Run.effective_max_h (Batch.assigned args src) src = Run.effective_max_h args src.
Proof.
  unfold Run.effective_max_h at 1. rewrite pre_clamp_assigned.
  destruct (Run.height src <? Run.effective_max_h args src) eqn:E; [|reflexivity].
  apply Z.ltb_lt in E. unfold Run.effective_max_h in *.
  destruct (Run.height src <? _) eqn:E'; [reflexivity|]. apply Z.ltb_ge in E'. lia.
Qed.

Lemma setup_assigned (env : Run.environment) :
  Run.setup env (Batch.assigned args src) src = Run.setup env args src.
Proof.
  unfold Run.setup.
  rewrite effective_min_h_assigned, effective_max_h_assigned, assign_ar_assigned,
    pre_clamp_assigned.
  cbn [Batch.assigned Run.img Run.mask_out Run.fstart Run.fend Run.fsamples].
  destruct (negb (Run.dir_writable env)); [reflexivity|].
  destruct ((Run.img args || Run.mask_out args) && negb (Run.imwri_found env));
    [reflexivity|].
  destruct (Run.env_scaler env); cbn [bind ret raise]; try reflexivity.
  destruct (Frames.select_frames64 _ _ _) as [e|fs]; [reflexivity|]. cbn [bind].
  destruct (Run.assign_ar args src) as [e|ar]; [reflexivity|]. cbn [bind].
  destruct (Run.height src <=? Run.effective_min_h args src) eqn:E1; [reflexivity|].
  apply Z.leb_gt in E1.
  replace (Run.effective_max_h args src <=? Run.effective_min_h args src)
    with ((if Run.arg_max_h args <? 0 then Run.height src * 9 / 10
           else Run.arg_max_h args) <=? Run.effective_min_h args src);
    [reflexivity|].
  unfold Run.effective_max_h.
  destruct (Run.height src <? _) eqn:E2; [|reflexivity].
  apply Z.ltb_lt in E2.
  destruct (_ <=? Run.effective_min_h args src) eqn:E3.
  - apply Z.leb_le in E3. lia.
  - symmetry. apply Z.leb_gt. lia.
Qed.

Lemma getnative_assigned (env : Run.environment) :
  Run.getnative env (Batch.assigned args src) src = Run.getnative env args src.
Proof.
  unfold Run.getnative. rewrite setup_assigned. reflexivity.
Qed.

Lemma assigned_assigned :
  Batch.assigned (Batch.assigned args src) src = Batch.assigned args src.
Proof.
  unfold Batch.assigned at 1.
  rewrite effective_ar_assigned, effective_min_h_assigned, effective_max_h_assigned.
  reflexivity.
Qed.

End AssignedArguments.

(** X19: on a source whose height is not negative, [getnative] called again
    with the [args] object that a call has assigned to gives what the call
    on the fresh [args] gives, and assigns the same values again; so every
    scaler of a batch is run on the same configuration. *)
Theorem getnative_on_assigned_arguments
        (env : Run.environment) (args : Run.arguments) (src : Run.source) :
  0 <= Run.height src ->
  Run.getnative env (Batch.assigned args src) src = Run.getnative env args src /\
  Run.setup env (Batch.assigned args src) src = Run.setup env args src /\
  Batch.assigned (Batch.assigned args src) src = Batch.assigned args src.
Proof.
  intro H. split; [apply getnative_assigned, H|].
  split; [apply setup_assigned, H|apply assigned_assigned, H].
Qed.

(** The example configuration. *)
Lemma getnative_on_assigned_arguments_witness :
  Run.getnative example_env (Batch.assigned (example_args 0 None 2) example_src) example_src
  = Run.getnative example_env (example_args 0 None 2) example_src /\
  Run.setup example_env (Batch.assigned (example_args 0 None 2) example_src) example_src
  = Run.setup example_env (example_args 0 None 2) example_src /\
  Batch.assigned (Batch.assigned (example_args 0 None 2) example_src) example_src
  = Batch.assigned (example_args 0 None 2) example_src.
Proof.
  apply (getnative_on_assigned_arguments example_env (example_args 0 None 2) example_src).
  simpl. lia.
Defined.

Section BatchFurther.

Variable env : Run.environment.
Variable args : Run.arguments.
Variable src : Run.source.
Hypothesis height_not_negative : 0 <= Run.height src.

Lemma scalers_loop_assigned (mode : list (option Batch.scaler)) : forall d,
  Batch.scalers_loop env src mode (Batch.assigned args src) d
  = Batch.scalers_loop env src mode args d.
Proof.
  induction mode as [|s t IH]; intro d; simpl; [reflexivity|].
  destruct (Batch.skipped s); [apply IH|].
  rewrite getnative_assigned by assumption.
  destruct (Run.getnative (Batch.env_for env s) args src) as [e|r]; [reflexivity|].
  rewrite assigned_assigned by assumption. reflexivity.
Qed.

Lemma dict_set_fresh {V : Type} (d : list (String.string * V)) (k : String.string) (v : V) :
  ~ In k (map fst d) -> Batch.dict_set d k v = d ++ [(k, v)].
Proof.
  induction d as [|[k' v'] t IH]; intro H; simpl; [reflexivity|].
  simpl in H. destruct (String.eqb k' k) eqn:E.
  - apply String.eqb_eq in E. tauto.
  - rewrite IH by tauto. reflexivity.
Qed.

Lemma dict_get_In {V : Type} (d : list (String.string * V)) (k : String.string) (v : V) :
  NoDup (map fst d) -> In (k, v) d -> Batch.dict_get d k = Some v.
Proof.
  induction d as [|[k' v'] t IH]; intros Hn Hin; [destruct Hin|].
  simpl in Hn. inversion Hn as [|? ? Hk Ht]; subst. simpl.
  destruct Hin as [Hin|Hin].
  - injection Hin as -> ->. rewrite String.eqb_refl. reflexivity.
  - destruct (String.eqb k' k) eqn:E; [|apply IH; assumption].
    apply String.eqb_eq in E. subst k'. exfalso. apply Hk.
    change k with (fst (k, v)). apply in_map, Hin.
Qed.

Lemma dicts_of_snoc (E : list entry) (k : String.string) (h w : Z) (mae : Q) (ub : bool) :
  ~ In k (map fst E) ->
  {| Batch.res_dict := Batch.dict_set (Batch.res_dict (dicts_of E)) k (h, w);
     Batch.mae_dict := Batch.dict_set (Batch.mae_dict (dicts_of E)) k mae;
     Batch.ub_dict := Batch.dict_set (Batch.ub_dict (dicts_of E)) k ub |}
  = dicts_of (E ++ [(k, (h, w, mae, ub))]).
Proof.
  intro H. unfold dicts_of. cbn [Batch.res_dict Batch.mae_dict Batch.ub_dict].
  rewrite !dict_set_fresh by (rewrite map_map; exact H).
  rewrite !map_app. reflexivity.
Qed.

(** With keys that differ, the loop ends with the kept results in the
    dicts, or with the exception of the first scaler that fails. *)
Lemma scalers_loop_spec (mode : list (option Batch.scaler)) : forall E,
  NoDup (map fst E ++ map Batch.key (tried mode)) ->
  match Batch.scalers_loop env src mode args (dicts_of E) with
  | inr d => d = dicts_of (E ++ kept env args src mode) /\
             forall s, In s (tried mode) ->
                       exists r, Run.getnative (Batch.env_for env s) args src = inr r
  | inl r => exists s e, In s (tried mode) /\
                         Run.getnative (Batch.env_for env s) args src = inl e /\
                         r = Batch.Raised e
  end.
Proof.
  induction mode as [|s t IH]; intros E Hn.
  - simpl. rewrite app_nil_r. split; [reflexivity|]. intros s [].
  - cbn [Batch.scalers_loop kept]. unfold tried in *. cbn [filter]. simpl in Hn.
    destruct (Batch.skipped s) eqn:Es; cbn [negb]; simpl in Hn; [apply IH, Hn|].
    destruct (Run.getnative (Batch.env_for env s) args src)
      as [e|[[[[h w] mae] os] ub]] eqn:Eg; cbv beta iota.
    + exists s, e. split; [left; reflexivity|]. split; [exact Eg|reflexivity].
    + rewrite scalers_loop_assigned.
      assert (Hfresh : ~ In (Batch.key s) (map fst E)).
      { apply NoDup_remove_2 in Hn. intro H. apply Hn, in_or_app. left. exact H. }
      assert (Hn' : NoDup (map fst E ++ map Batch.key (tried t)))
        by (apply NoDup_remove_1 in Hn; exact Hn).
      destruct os.
      * specialize (IH E Hn').
        destruct (Batch.scalers_loop env src t args (dicts_of E)) as [r|d].
        -- destruct IH as [s' [e [Hs' He]]]. exists s', e. split; [right; exact Hs'|exact He].
        -- destruct IH as [-> Hall]. split; [reflexivity|].
           intros s' [<-|Hs']; [eauto|apply Hall, Hs'].
      * rewrite dicts_of_snoc by exact Hfresh.
        assert (Hn'' : NoDup (map fst (E ++ [(Batch.key s, (h, w, mae, ub))])
                              ++ map Batch.key (tried t))).
        { rewrite map_app, <- app_assoc. exact Hn. }
        specialize (IH _ Hn'').
        destruct (Batch.scalers_loop env src t args _) as [r|d].
        -- destruct IH as [s' [e [Hs' He]]]. exists s', e. split; [right; exact Hs'|exact He].
        -- destruct IH as [-> Hall]. rewrite <- app_assoc. split; [reflexivity|].
           intros s' [<-|Hs']; [eauto|apply Hall, Hs'].
Qed.

Lemma kept_spec (mode : list (option Batch.scaler)) (e : entry) :
  In e (kept env args src mode) <->
  exists s, In s (tried mode) /\ Batch.key s = fst e /\
            Run.getnative (Batch.env_for env s) args src
            = inr (fst (fst (fst (snd e))), snd (fst (fst (snd e))),
                   snd (fst (snd e)), false, snd (snd e)).
Proof.
  induction mode as [|s t IH]; simpl.
  - split; [intros []|intros [s [[] _]]].
  - unfold tried in *. simpl.
    destruct (Batch.skipped s) eqn:Es; simpl; [exact IH|].
    destruct (Run.getnative (Batch.env_for env s) args src)
      as [x|[[[[h w] mae] os] ub]] eqn:Eg.
    + rewrite IH. split; intros [s' [Hs' H]]; exists s'; (split; [|exact H]).
      * right. exact Hs'.
      * destruct Hs' as [<-|Hs']; [|exact Hs']. destruct H as [_ H]. congruence.
    + destruct os.
      * rewrite IH. split; intros [s' [Hs' H]]; exists s'; (split; [|exact H]).
        -- right. exact Hs'.
        -- destruct Hs' as [<-|Hs']; [|exact Hs']. destruct H as [_ H]. congruence.
      * simpl. rewrite IH. split.
        -- intros [<-|[s' [Hs' H]]].
           ++ exists s. split; [left; reflexivity|]. split; [reflexivity|exact Eg].
           ++ exists s'. split; [right; exact Hs'|exact H].
        -- intros [s' [[<-|Hs'] [Hk H]]].
           ++ left. rewrite Eg in H. injection H as -> -> -> ->.
              destruct e as [k [[[h' w'] mae'] ub']]. simpl in *. congruence.
           ++ right. exists s'. split; [exact Hs'|]. split; assumption.
Qed.

Lemma kept_keys (mode : list (option Batch.scaler)) :
  NoDup (map Batch.key (tried mode)) -> NoDup (map fst (kept env args src mode)).
Proof.
  intro Hn. induction mode as [|s t IH]; simpl; [constructor|].
  unfold tried in *. simpl in Hn.
  destruct (Batch.skipped s) eqn:Es; simpl in Hn; [apply IH, Hn|].
  inversion Hn as [|? ? Hk Ht]; subst.
  destruct (Run.getnative (Batch.env_for env s) args src)
    as [x|[[[[h w] mae] os] ub]]; [apply IH, Ht|].
  destruct os; [apply IH, Ht|]. simpl. constructor; [|apply IH, Ht].
  intro H. apply Hk. apply in_map_iff in H. destruct H as [e [He Hin]].
  apply kept_spec in Hin. destruct Hin as [s' [Hs' [Hkey _]]].
  apply in_map_iff. exists s'. split; [congruence|exact Hs'].
Qed.

Lemma min_from_spec (d : list (String.string * Q)) : forall pre best,
  In best pre -> (forall kv, In kv pre -> (snd best <= snd kv)%Q) ->
  exists v, In (Batch.min_from best d, v) (pre ++ d) /\
            forall kv, In kv (pre ++ d) -> (v <= snd kv)%Q.
Proof.
  induction d as [|kv t IH]; intros pre best Hb Hmin; simpl.
  - exists (snd best). rewrite app_nil_r. split; [destruct best; exact Hb|exact Hmin].
  - replace (pre ++ kv :: t) with ((pre ++ [kv]) ++ t)
      by (rewrite <- app_assoc; reflexivity).
    destruct (Num.ltb (snd kv) (snd best)) eqn:E; apply IH.
    + apply in_or_app. right. left. reflexivity.
    + apply ltb_lt in E. intros kv' H. apply in_app_or in H.
      destruct H as [H|[<-|[]]]; [|apply Qle_refl].
      apply Qle_trans with (snd best); [apply Qlt_le_weak, E|apply Hmin, H].
    + apply in_or_app. left. exact Hb.
    + apply ltb_ge in E. intros kv' H. apply in_app_or in H.
      destruct H as [H|[<-|[]]]; [apply Hmin, H|exact E].
Qed.

(** The report on dicts that hold entries of different keys. *)
Lemma report_spec (E : list entry) :
  NoDup (map fst E) ->
  match Batch.report (dicts_of E) with
  | inr None => E = []
  | inr (Some (best, w, h, ub)) =>
      exists mae, In (best, (h, w, mae, ub)) E /\
                  forall e, In e E -> (mae <= snd (fst (snd e)))%Q
  | inl _ => False
  end.
Proof.
  intro Hn. destruct E as [|e0 t] eqn:EE; [reflexivity|]. rewrite <- EE in *.
  unfold Batch.report.
  assert (Hm : Batch.mae_dict (dicts_of E)
               = (fst e0, snd (fst (snd e0)))
                   :: map (fun e => (fst e, snd (fst (snd e)))) t)
    by (rewrite EE; reflexivity).
  assert (Hr : exists x y, Batch.res_dict (dicts_of E) = x :: y)
    by (rewrite EE; simpl; eauto).
  destruct Hr as [x [y Hr]]. rewrite Hm, Hr. rewrite <- Hr.
  destruct (min_from_spec (map (fun e => (fst e, snd (fst (snd e)))) t)
              [(fst e0, snd (fst (snd e0)))] (fst e0, snd (fst (snd e0))))
    as [v [Hin Hmin]]; [left; reflexivity|intros kv [<-|[]]; apply Qle_refl|].
  change ([(fst e0, snd (fst (snd e0)))] ++ map (fun e => (fst e, snd (fst (snd e)))) t)
    with (Batch.mae_dict (dicts_of (e0 :: t))) in Hin, Hmin.
  rewrite <- EE in Hin, Hmin.
  set (best := Batch.min_from _ _) in *.
  unfold dicts_of in Hin. cbn [Batch.mae_dict] in Hin.
  apply in_map_iff in Hin. destruct Hin as [[k [[[h w] mae] ub]] [Heq He]].
  simpl in Heq. injection Heq as Hk Hv. subst k v.
  rewrite (dict_get_In (Batch.res_dict (dicts_of E)) best (h, w)).
  - rewrite (dict_get_In (Batch.ub_dict (dicts_of E)) best ub).
    + exists mae. split; [exact He|]. intros e Hin.
      apply (Hmin (fst e, snd (fst (snd e)))).
      unfold dicts_of. cbn [Batch.mae_dict].
      apply in_map_iff. exists e. split; [reflexivity|exact Hin].
    + unfold dicts_of. cbn [Batch.ub_dict]. rewrite map_map. exact Hn.
    + unfold dicts_of. cbn [Batch.ub_dict]. apply in_map_iff.
      exists (best, (h, w, mae, ub)). split; [reflexivity|exact He].
  - unfold dicts_of. cbn [Batch.res_dict]. rewrite map_map. exact Hn.
  - unfold dicts_of. cbn [Batch.res_dict]. apply in_map_iff.
    exists (best, (h, w, mae, ub)). split; [reflexivity|exact He].
Qed.

End BatchFurther.

Section BatchOutcome.

Variable env : Run.environment.
Variable args : Run.arguments.
Variable src : Run.source.
Hypothesis height_not_negative : 0 <= Run.height src.

Lemma dict_set_same_keys {V W : Type} (d1 : list (String.string * V)) :
  forall (d2 : list (String.string * W)) (k : String.string) (v : V) (w : W),
  map fst d1 = map fst d2 ->
  map fst (Batch.dict_set d1 k v) = map fst (Batch.dict_set d2 k w).
Proof.
  induction d1 as [|[k1 v1] t IH]; intros [|[k2 v2] t2] k v w H;
    simpl in H; try discriminate; [reflexivity|].
  injection H as -> H. simpl.
  destruct (String.eqb k2 k); simpl; [congruence|].
  f_equal. apply IH, H.
Qed.

Lemma dict_set_not_empty {V : Type} (d : list (String.string * V)) k v :
  Batch.dict_set d k v <> [].
Proof. destruct d as [|[k' v'] t]; simpl; [|destruct (String.eqb k' k)]; discriminate. Qed.

Lemma dict_get_key {V : Type} (d : list (String.string * V)) (k : String.string) :
  In k (map fst d) -> exists v, Batch.dict_get d k = Some v.
Proof.
  induction d as [|[k' v'] t IH]; intros H; [destruct H|]. simpl.
  destruct (String.eqb k' k) eqn:E; [eauto|]. destruct H as [H|H]; [|apply IH, H].
  simpl in H. subst k'. rewrite String.eqb_refl in E. discriminate.
Qed.

Lemma min_from_key (d : list (String.string * Q)) : forall best,
  In (Batch.min_from best d) (map fst (best :: d)).
Proof.
  induction d as [|kv t IH]; intro best; simpl; [left; reflexivity|].
  destruct (Num.ltb (snd kv) (snd best)).
  - right. apply (IH kv).
  - destruct (IH best) as [H|H]; [left; exact H|right; right; exact H].
Qed.

(** The loop on dicts of the same keys: it ends with dicts of the same
    keys, which are empty when nothing was kept, or with the exception of
    a scaler. *)
Lemma scalers_loop_outcome (mode : list (option Batch.scaler)) : forall d,
  aligned d ->
  match Batch.scalers_loop env src mode args d with
  | inr d' => aligned d' /\
              (Batch.res_dict d' = [] <->
               Batch.res_dict d = [] /\ kept env args src mode = []) /\
              forall s, In s (tried mode) ->
                        exists r, Run.getnative (Batch.env_for env s) args src = inr r
  | inl r => exists s e, In s (tried mode) /\
                         Run.getnative (Batch.env_for env s) args src = inl e /\
                         r = Batch.Raised e
  end.
Proof.
  induction mode as [|s t IH]; intros d Ha.
  - simpl. split; [exact Ha|]. split; [tauto|]. intros s [].
  - cbn [Batch.scalers_loop kept]. unfold tried in *. cbn [filter].
    destruct (Batch.skipped s) eqn:Es; cbn [negb]; [apply IH, Ha|].
    destruct (Run.getnative (Batch.env_for env s) args src)
      as [e|[[[[h w] mae] os] ub]] eqn:Eg; cbv beta iota.
    + exists s, e. split; [left; reflexivity|]. split; [exact Eg|reflexivity].
    + rewrite scalers_loop_assigned by assumption.
      destruct os.
      * specialize (IH d Ha).
        destruct (Batch.scalers_loop env src t args d) as [r|d'].
        -- destruct IH as [s' [e [Hs' He]]]. exists s', e. split; [right; exact Hs'|exact He].
        -- destruct IH as [Ha' [Hempty Hall]]. split; [exact Ha'|]. split; [exact Hempty|].
           intros s' [<-|Hs']; [eauto|apply Hall, Hs'].
      * match goal with
        | |- match Batch.scalers_loop _ _ _ _ ?d1 with _ => _ end =>
            assert (Ha1 : aligned d1)
        end.
        { destruct Ha as [H1 H2]. split; cbn [Batch.res_dict Batch.mae_dict Batch.ub_dict];
            apply dict_set_same_keys; assumption. }
        specialize (IH _ Ha1).
        destruct (Batch.scalers_loop env src t args _) as [r|d'].
        -- destruct IH as [s' [e [Hs' He]]]. exists s', e. split; [right; exact Hs'|exact He].
        -- destruct IH as [Ha' [Hempty Hall]]. split; [exact Ha'|]. split.
           ++ rewrite Hempty. cbn [Batch.res_dict]. split.
              ** intros [H _]. exfalso. exact (dict_set_not_empty _ _ _ H).
              ** intros [_ H]. discriminate.
           ++ intros s' [<-|Hs']; [eauto|apply Hall, Hs'].
Qed.

(** On dicts of the same keys the report finds every key it looks up. *)
Lemma report_outcome (d : Batch.dicts) :
  aligned d ->
  match Batch.report d with
  | inr None => Batch.res_dict d = []
  | inr (Some _) => Batch.res_dict d <> []
  | inl _ => False
  end.
Proof.
  intros [H1 H2]. unfold Batch.report.
  destruct (Batch.res_dict d) as [|x y] eqn:Er.
  - destruct (Batch.mae_dict d); reflexivity.
  - destruct (Batch.mae_dict d) as [|kv t] eqn:Em; [discriminate|].
    pose proof (min_from_key t kv) as Hk.
    rewrite <- Er, <- Em in *. clear Er Em.
    destruct (dict_get_key (Batch.res_dict d) (Batch.min_from kv t)) as [[h w] ->];
      [rewrite H1; exact Hk|].
    destruct (dict_get_key (Batch.ub_dict d) (Batch.min_from kv t)) as [ub ->];
      [rewrite <- H2, H1; exact Hk|].
    intro H. rewrite H in H1. destruct (Batch.mae_dict d); [destruct Hk|discriminate].
Qed.

Lemma no_dicts_aligned : aligned Batch.no_dicts.
Proof. split; reflexivity. Qed.

End BatchOutcome.

(** X20: when the keys of the scalers that are run differ, the scaler that
    [_getnative] names is one of them, its result was not overstretched, the
    width, the height and the flag that are printed are those of its result,
    and no result that was kept has a smaller error. *)
Theorem batch_names_the_smallest_error
        (env : Run.environment) (args : Run.arguments) (src : Run.source)
        (mode : list (option Batch.scaler))
        (best : String.string) (w h : Z) (ub : bool) :
  0 <= Run.height src ->
  NoDup (map Batch.key (tried mode)) ->
  Batch.getnative_batch env args src mode = inr (Some (best, w, h, ub)) ->
  exists s mae,
    In s (tried mode) /\ Batch.key s = best /\
    Run.getnative (Batch.env_for env s) args src = inr (h, w, mae, false, ub) /\
    forall s' h' w' mae' ub',
      In s' (tried mode) ->
      Run.getnative (Batch.env_for env s') args src = inr (h', w', mae', false, ub') ->
      (mae <= mae')%Q.
Proof.
  intros Hh Hn Hb. unfold Batch.getnative_batch in Hb.
  pose proof (scalers_loop_spec env args src Hh mode []) as Hl.
  change (dicts_of []) with Batch.no_dicts in Hl.
  specialize (Hl Hn).
  destruct (Batch.scalers_loop env src mode args Batch.no_dicts) as [r|d];
    [discriminate|].
  destruct Hl as [-> _]. simpl app in Hb.
  pose proof (report_spec (kept env args src mode)
                (kept_keys env args src mode Hn)) as Hr.
  rewrite Hb in Hr. destruct Hr as [mae [He Hmin]].
  apply kept_spec in He. destruct He as [s [Hs [Hk Hg]]]. simpl in Hk, Hg.
  exists s, mae. repeat split; try assumption.
  intros s' h' w' mae' ub' Hs' Hg'.
  apply (Hmin (Batch.key s', (h', w', mae', ub'))).
  apply kept_spec. exists s'. split; [exact Hs'|]. split; [reflexivity|exact Hg'].
Qed.

(** X21: [_getnative] ends with an exception exactly when [getnative]
    raises for a scaler that is run, and the exception is that of
    [getnative]: the lookups in the dicts never fail. *)
Theorem batch_fails_only_with_a_scaler
        (env : Run.environment) (args : Run.arguments) (src : Run.source)
        (mode : list (option Batch.scaler)) :
  0 <= Run.height src ->
  (forall r, Batch.getnative_batch env args src mode = inl r ->
             exists s e, In s (tried mode) /\
                         Run.getnative (Batch.env_for env s) args src = inl e /\
                         r = Batch.Raised e) /\
  ((exists o, Batch.getnative_batch env args src mode = inr o) <->
   forall s, In s (tried mode) ->
             exists r, Run.getnative (Batch.env_for env s) args src = inr r).
Proof.
  intro Hh. unfold Batch.getnative_batch.
  pose proof (scalers_loop_outcome env args src Hh mode Batch.no_dicts
                (no_dicts_aligned)) as Hl.
  destruct (Batch.scalers_loop env src mode args Batch.no_dicts) as [r|d].
  - destruct Hl as [s [e [Hs [Hg ->]]]]. split.
    + intros r Hr. injection Hr as <-. exists s, e. auto.
    + split; [intros [o Ho]; discriminate|].
      intro Hall. destruct (Hall s Hs) as [x Hx]. congruence.
  - destruct Hl as [Ha [_ Hall]]. pose proof (report_outcome d Ha) as Hr.
    destruct (Batch.report d) as [x|o]; [destruct Hr|]. split.
    + intros r Hr'. discriminate.
    + split; [intros _; exact Hall|intros _; eauto].
Qed.

(** X22: [_getnative] prints that the estimation does not converge exactly
    when [getnative] returns an overstretched result for every scaler that
    is run. *)
Theorem batch_does_not_converge
        (env : Run.environment) (args : Run.arguments) (src : Run.source)
        (mode : list (option Batch.scaler)) :
  0 <= Run.height src ->
  (Batch.getnative_batch env args src mode = inr None <->
   forall s, In s (tried mode) ->
             exists h w mae ub,
               Run.getnative (Batch.env_for env s) args src = inr (h, w, mae, true, ub)).
Proof.
  intro Hh. unfold Batch.getnative_batch.
  pose proof (scalers_loop_outcome env args src Hh mode Batch.no_dicts
                (no_dicts_aligned)) as Hl.
  destruct (Batch.scalers_loop env src mode args Batch.no_dicts) as [r|d].
  - destruct Hl as [s [e [Hs [Hg _]]]]. split; [discriminate|].
    intro Hall. destruct (Hall s Hs) as [h [w [mae [ub Hx]]]]. congruence.
  - destruct Hl as [Ha [Hempty Hall]]. pose proof (report_outcome d Ha) as Hr.
    split.
    + intros Hb s Hs. rewrite Hb in Hr. apply Hempty in Hr. destruct Hr as [_ Hk].
      destruct (Hall s Hs) as [[[[[h w] mae] os] ub] Hg].
      destruct os; [eauto|]. exfalso.
      assert (Hin : In (Batch.key s, (h, w, mae, ub)) (kept env args src mode)).
      { apply kept_spec. exists s. split; [exact Hs|]. split; [reflexivity|exact Hg]. }
      rewrite Hk in Hin. destruct Hin.
    + intro Hos.
      assert (Hk : kept env args src mode = []).
      { destruct (kept env args src mode) as [|e t] eqn:Ek; [reflexivity|]. exfalso.
        assert (Hin : In e (kept env args src mode)) by (rewrite Ek; left; reflexivity).
        apply kept_spec in Hin. destruct Hin as [s [Hs [_ Hg]]].
        destruct (Hos s Hs) as [h [w [mae [ub Hx]]]]. congruence. }
      assert (Hd : Batch.res_dict d = []) by (apply Hempty; split; [reflexivity|exact Hk]).
      destruct (Batch.report d) as [x|[o|]]; [destruct Hr| |reflexivity].
      exfalso. exact (Hr Hd).
Qed.

(** The example mode on the example source: the second scaler is skipped,
    and the third, of the smaller error, is named. *)
Lemma batch_names_the_smallest_error_witness :
  exists s mae,
    In s (tried example_mode) /\
    Batch.key s = Batch.key (nth 2 example_mode None) /\
    Run.getnative (Batch.env_for example_env s) (example_args 0 None 2) example_src
    = inr (40, 80, mae, false, true) /\
    forall s' h' w' mae' ub',
      In s' (tried example_mode) ->
      Run.getnative (Batch.env_for example_env s') (example_args 0 None 2) example_src
      = inr (h', w', mae', false, ub') ->
      (mae <= mae')%Q.
Proof.
  apply (batch_names_the_smallest_error example_env (example_args 0 None 2) example_src
           example_mode (Batch.key (nth 2 example_mode None)) 80 40 true).
  - simpl. lia.
  - vm_compute. repeat constructor; simpl; intuition discriminate.
  - vm_compute. reflexivity.
Defined.

(** The example mode on the example source, where every scaler returns. *)
Lemma batch_fails_only_with_a_scaler_witness :
  (forall r, Batch.getnative_batch example_env (example_args 0 None 2) example_src
                                   example_mode = inl r ->
             exists s e, In s (tried example_mode) /\
                         Run.getnative (Batch.env_for example_env s)
                                       (example_args 0 None 2) example_src = inl e /\
                         r = Batch.Raised e) /\
  ((exists o, Batch.getnative_batch example_env (example_args 0 None 2) example_src
                                    example_mode = inr o) <->
   forall s, In s (tried example_mode) ->
             exists r, Run.getnative (Batch.env_for example_env s)
                                     (example_args 0 None 2) example_src = inr r).
Proof.
  apply (batch_fails_only_with_a_scaler example_env (example_args 0 None 2) example_src
           example_mode).
  simpl. lia.
Defined.

(** Two passes on the wide source with the scaler that pulls the width
    out: the only result is overstretched, and nothing is named. *)
Lemma batch_does_not_converge_witness :
  Batch.getnative_batch example_env two_pass_args wide_src stretched_mode = inr None.
Proof.
  apply (proj2 (batch_does_not_converge example_env two_pass_args wide_src stretched_mode
                  ltac:(simpl; lia))).
  intros s Hs. vm_compute in Hs. destruct Hs as [<-|[]].
  exists 30, 130, (1 # 2)%Q, false. vm_compute. reflexivity.
Defined.

(** ** The marks of the plot *)

Section PlotFurther.

Lemma ceil_step (m i : Z) :
  1 <= m -> 0 <= i ->
  (i + 1 + m - 1) / m - (i + m - 1) / m = if i mod m =? 0 then 1 else 0.
Proof.
  intros Hm Hi.
  pose proof (Z.div_mod i m ltac:(lia)) as Hd.
  pose proof (Z.mod_pos_bound i m ltac:(lia)) as Hr.
  assert (H1 : (i + 1 + m - 1) / m = i / m + 1)
    by (symmetry; apply Z.div_unique with (r := i mod m); lia).
  rewrite H1. destruct (i mod m =? 0) eqn:E.
  - apply Z.eqb_eq in E.
    assert (H2 : (i + m - 1) / m = i / m)
      by (symmetry; apply Z.div_unique with (r := m - 1); lia).
    lia.
  - apply Z.eqb_neq in E.
    assert (H2 : (i + m - 1) / m = i / m + 1)
      by (symmetry; apply Z.div_unique with (r := i mod m - 1); lia).
    lia.
Qed.

Variables min_h max_h steps : Z.

Local Abbreviation modulus := ((max_h - min_h + 10 * steps - 1) / (10 * steps)).

(** With a step and a modulus of one at least the selection never raises;
    it takes the entries at the positions that the modulus divides. *)
Lemma select_spec :
  1 <= steps -> 1 <= modulus ->
  forall l i, 0 <= i ->
  exists ts,
    Plot.select min_h max_h steps i l = inr ts /\
    Z.of_nat (length ts)
    = (i + Z.of_nat (length l) + modulus - 1) / modulus - (i + modulus - 1) / modulus /\
    (forall t, In t ts ->
               exists j, nth_error l j = Some t /\ (i + Z.of_nat j) mod modulus = 0) /\
    (i mod modulus = 0 -> hd_error ts = hd_error l).
Proof.
  intros Hs Hm. induction l as [|dh t IH]; intros i Hi.
  - exists []. split; [reflexivity|]. split; [|split].
    + change (Z.of_nat (length (@nil Z))) with 0.
      replace (i + 0 + modulus - 1) with (i + modulus - 1) by lia. lia.
    + intros x [].
    + reflexivity.
  - destruct (IH (i + 1) ltac:(lia)) as [rest [Hsel [Hlen [Hin _]]]].
    cbn [Plot.select]. unfold Plot.floordiv, Plot.modulo.
    replace (10 * steps =? 0) with false by (symmetry; apply Z.eqb_neq; lia).
    unfold bind at 1. unfold ret at 1.
    replace (modulus =? 0) with false by (symmetry; apply Z.eqb_neq; lia).
    unfold bind at 1. unfold ret at 1.
    rewrite Hsel. unfold bind, ret.
    pose proof (ceil_step modulus i Hm Hi) as Hc.
    assert (Hl : i + Z.of_nat (length (dh :: t)) = i + 1 + Z.of_nat (length t))
      by (cbn [length]; lia).
    rewrite Hl.
    destruct (i mod modulus =? 0) eqn:E.
    + exists (dh :: rest). split; [reflexivity|]. split; [|split].
      * cbn [length]. lia.
      * intros x [<-|Hx].
        -- exists 0%nat. split; [reflexivity|]. apply Z.eqb_eq in E.
           replace (i + Z.of_nat 0) with i by lia. exact E.
        -- destruct (Hin x Hx) as [j [Hj Hmod]]. exists (S j). split; [exact Hj|].
           replace (i + Z.of_nat (S j)) with (i + 1 + Z.of_nat j) by lia. exact Hmod.
      * reflexivity.
    + exists rest. split; [reflexivity|]. split; [|split].
      * lia.
      * intros x Hx.
        destruct (Hin x Hx) as [j [Hj Hmod]]. exists (S j). split; [exact Hj|].
        replace (i + Z.of_nat (S j)) with (i + 1 + Z.of_nat j) by lia. exact Hmod.
      * apply Z.eqb_neq in E. intro H. contradiction.
Qed.

End PlotFurther.

(** The marks for heights [min_h < max_h] and a step of one at least. *)
Lemma ticks_spec (min_h max_h steps : Z) :
  1 <= steps -> min_h < max_h ->
  exists ts,
    Plot.ticks min_h max_h steps = inr ts /\
    hd_error ts = Some min_h /\
    (length ts <= 11)%nat /\
    forall t, In t ts ->
              min_h <= t <= max_h /\
              exists k, 0 <= k /\
                        t = min_h + k * ((max_h - min_h + 10 * steps - 1) / (10 * steps)
                                         * steps).
Proof.
  intros Hs Hlt.
  set (m := (max_h - min_h + 10 * steps - 1) / (10 * steps)).
  assert (Hm : 1 <= m) by (apply Z.div_le_lower_bound; lia).
  assert (Hup : max_h - min_h <= 10 * steps * m).
  { pose proof (Z.div_mod (max_h - min_h + 10 * steps - 1) (10 * steps) ltac:(lia)) as Hd.
    pose proof (Z.mod_pos_bound (max_h - min_h + 10 * steps - 1) (10 * steps) ltac:(lia)).
    fold m in Hd. lia. }
  unfold Plot.ticks.
  destruct (py_range min_h (max_h + 1) steps) as [e|hs] eqn:Er.
  { unfold py_range in Er.
    replace (steps =? 0) with false in Er by (symmetry; apply Z.eqb_neq; lia).
    replace (0 <? steps) with true in Er by (symmetry; apply Z.ltb_lt; lia).
    discriminate. }
  assert (Hn : Z.of_nat (length hs) = (max_h - min_h) / steps + 1).
  { unfold py_range in Er.
    replace (steps =? 0) with false in Er by (symmetry; apply Z.eqb_neq; lia).
    replace (0 <? steps) with true in Er by (symmetry; apply Z.ltb_lt; lia).
    injection Er as <-. rewrite length_map, length_seq.
    replace (max_h + 1 - min_h + steps - 1) with (max_h - min_h + 1 * steps) by lia.
    rewrite Z.div_add by lia.
    pose proof (Z.div_pos (max_h - min_h) steps ltac:(lia) ltac:(lia)). lia. }
  assert (Hq : (max_h - min_h) / steps <= 10 * m).
  { assert ((max_h - min_h) / steps < 10 * m + 1); [|lia].
    apply Z.div_lt_upper_bound; [lia|]. nia. }
  pose proof (Z.div_pos (max_h - min_h) steps ltac:(lia) ltac:(lia)) as Hq0.
  unfold bind.
  destruct (select_spec min_h max_h steps Hs Hm hs 0 ltac:(lia))
    as [ts [Hsel [Hlen [Hin Hhd]]]].
  fold m in Hlen, Hin, Hhd.
  exists ts. split; [exact Hsel|]. split; [|split].
  - rewrite Hhd by (apply Z.mod_0_l; lia).
    assert (H0 : (0 < length hs)%nat) by lia.
    destruct (py_range_nth _ _ _ _ 0%nat Er H0) as [Hx _].
    destruct hs as [|x y]; [simpl in H0; lia|]. simpl in Hx. simpl.
    exact Hx.
  - assert (Hz : Z.of_nat (length ts) <= 11); [|lia].
    rewrite Hlen. replace (0 + m - 1) with (m - 1) by lia.
    rewrite (Z.div_small (m - 1) m) by lia.
    assert ((0 + Z.of_nat (length hs) + m - 1) / m < 12); [|lia].
    apply Z.div_lt_upper_bound; lia.
  - intros t Ht. destruct (Hin t Ht) as [j [Hj Hmod]].
    assert (Hjl : (j < length hs)%nat) by (apply nth_error_Some; congruence).
    destruct (py_range_nth _ _ _ _ j Er Hjl) as [Hx Hb].
    rewrite Hx in Hj. injection Hj as <-.
    destruct (Hb ltac:(lia)) as [_ Hb']. split; [lia|].
    exists (Z.of_nat j / m). split; [apply Z.div_pos; lia|].
    replace (0 + Z.of_nat j) with (Z.of_nat j) in Hmod by lia.
    pose proof (Z.div_mod (Z.of_nat j) m ltac:(lia)) as Hd. rewrite Hmod in Hd.
    rewrite Hd at 1. ring.
Qed.

(** X23: for heights [min_h < max_h] and a step of one at least,
    [save_plot] finds its marks without an exception: the first mark is
    [min_h], there are eleven marks at most, and every mark is a candidate
    height, a multiple of the modulus times the step above [min_h]. *)
Theorem plot_marks_are_few (min_h max_h steps : Z) :
  1 <= steps -> min_h < max_h ->
  exists ts,
    Plot.ticks min_h max_h steps = inr ts /\
    hd_error ts = Some min_h /\
    (length ts <= 11)%nat /\
    forall t, In t ts ->
              min_h <= t <= max_h /\
              exists k, 0 <= k /\
                        t = min_h + k * ((max_h - min_h + 10 * steps - 1) / (10 * steps)
                                         * steps).
Proof. exact (ticks_spec min_h max_h steps). Qed.

(** A plot from the height 500 to the height 1000 in steps of one. *)
Lemma plot_marks_are_few_witness :
  exists ts,
    Plot.ticks 500 1000 1 = inr ts /\
    hd_error ts = Some 500 /\
    (length ts <= 11)%nat /\
    forall t, In t ts ->
              500 <= t <= 1000 /\
              exists k, 0 <= k /\
                        t = 500 + k * ((1000 - 500 + 10 * 1 - 1) / (10 * 1) * 1).
Proof.
  apply (plot_marks_are_few 500 1000 1); lia.
Defined.

(** X24: with a step of one at least, [save_plot] raises exactly when
    there is one candidate height, and then it is a division by zero. *)
Theorem plot_marks_fail_on_one_height (min_h max_h steps : Z) (e : exn) :
  1 <= steps ->
  (Plot.ticks min_h max_h steps = inl e <-> e = ZeroDivisionError /\ min_h = max_h).
Proof.
  intro Hs. destruct (Z.lt_trichotomy min_h max_h) as [Hlt|[Heq|Hgt]].
  - destruct (ticks_spec min_h max_h steps Hs Hlt) as [ts [Ht _]].
    rewrite Ht. split; [discriminate|lia].
  - subst max_h. unfold Plot.ticks, py_range.
    replace (steps =? 0) with false by (symmetry; apply Z.eqb_neq; lia).
    replace (0 <? steps) with true by (symmetry; apply Z.ltb_lt; lia).
    replace (min_h + 1 - min_h + steps - 1) with (1 * steps) by lia.
    rewrite Z.div_mul by lia. unfold bind at 1. unfold ret at 1.
    change (Z.to_nat 1) with 1%nat. cbn [seq map Plot.select].
    unfold Plot.floordiv.
    replace (10 * steps =? 0) with false by (symmetry; apply Z.eqb_neq; lia).
    replace (min_h - min_h + 10 * steps - 1) with (10 * steps - 1) by lia.
    rewrite (Z.div_small (10 * steps - 1) (10 * steps)) by lia.
    unfold bind, ret, Plot.modulo, raise. simpl.
    split; [intro H; injection H as <-; auto|intros [-> _]; reflexivity].
  - unfold Plot.ticks, py_range.
    replace (steps =? 0) with false by (symmetry; apply Z.eqb_neq; lia).
    replace (0 <? steps) with true by (symmetry; apply Z.ltb_lt; lia).
    assert (Hz : (max_h + 1 - min_h + steps - 1) / steps <= 0).
    { assert ((max_h + 1 - min_h + steps - 1) / steps < 1); [|lia].
      apply Z.div_lt_upper_bound; lia. }
    destruct ((max_h + 1 - min_h + steps - 1) / steps) eqn:E; try lia;
      simpl; (split; [discriminate|lia]).
Qed.

(** One candidate height, 720. *)
Lemma plot_marks_fail_on_one_height_witness :
  Plot.ticks 720 720 1 = inl ZeroDivisionError.
Proof.
  apply (proj2 (plot_marks_fail_on_one_height 720 720 1 ZeroDivisionError
                  ltac:(lia))).
  split; reflexivity.
Defined.
